(** * Parallel_Life: life-like cellular automata on a toroidal grid

    A shallow embedding of the C++ sources of the repository:
    - the common header (rule tables, [parse_rulestring], [neighbor_count]);
    - the sequential default program ([step] with Conway's rule hard-coded);
    - [invertAmazeLife_openMP_parallel_for.cpp] (table driven [step] under
      [#pragma omp parallel for collapse(2) schedule(static)]);
    - the first sequential program with the constant 80 x 24 grid.

    Conventions of the embedding.
    - A C++ [int] is a [Z] inside [INT_MIN .. INT_MAX]; an addition or a
      product whose result leaves that range and a remainder by zero are
      undefined behaviour and make the embedded function return [None].
    - [std::vector<T>] is [list T]; [v[i]] outside [0 .. size) is undefined
      behaviour, hence also [None].
    - [uint8_t] cells are [Z] values in [0 .. 255].
    - The process-wide [gWidth], [gHeight] are passed explicitly. *)

From Stdlib Require Import ZArith Lia String Ascii.
From stdpp Require Import base tactics option list numbers strings.

Local Open Scope Z_scope.

(** ** Machine integers *)

Definition INT_MIN : Z := - 2 ^ 31.
Definition INT_MAX : Z := 2 ^ 31 - 1.

Definition in_int (z : Z) : bool := (INT_MIN <=? z) && (z <=? INT_MAX).

(** [a + b] on [int]. *)
Definition int_add (a b : Z) : option Z :=
  if in_int (a + b) then Some (a + b) else None.

(** [a * b] on [int]. *)
Definition int_mul (a b : Z) : option Z :=
  if in_int (a * b) then Some (a * b) else None.

(** [a % b] on [int]: truncated remainder, undefined for [b = 0] and for
    [INT_MIN % -1]. *)
Definition int_rem (a b : Z) : option Z :=
  if b =? 0 then None
  else if (a =? INT_MIN) && (b =? -1) then None
  else Some (Z.rem a b).

(** ** Loops *)

(** A loop over the values of [l], threading the state [s]; the body may
    fail, which ends the loop with a failure. *)
Fixpoint for_each {A St : Type} (body : St -> A -> option St)
    (l : list A) (s : St) : option St :=
  match l with
  | [] => Some s
  | a :: l' => s' ← body s a; for_each body l' s'
  end.

(** [for (int i = lo; i < hi; ++i) body] *)
Definition for_range {St : Type} (lo hi : Z) (body : St -> Z -> option St)
    (s : St) : option St :=
  for_each body (seqZ lo (hi - lo)) s.

(** ** Vectors and grids *)

Abbreviation Grid := (list (list Z)).

(** [v[i]], the index being an [int] converted to [size_t]. *)
Definition vec_at {A : Type} (v : list A) (i : Z) : option A :=
  if i <? 0 then None else v !! Z.to_nat i.

(** [v[i] = a] *)
Definition vec_set {A : Type} (v : list A) (i : Z) (a : A) : option (list A) :=
  if (0 <=? i) && (i <? Z.of_nat (length v))
  then Some (<[Z.to_nat i := a]> v) else None.

(** [g[y][x]] *)
Definition grid_at (g : Grid) (y x : Z) : option Z :=
  row ← vec_at g y; vec_at row x.

(** [g[y][x] = v] *)
Definition grid_set (g : Grid) (y x v : Z) : option Grid :=
  row ← vec_at g y; row' ← vec_set row x v; vec_set g y row'.

(** Short-circuit [&&] and [||] when the right operand reads memory. *)
Definition and_then (a : bool) (b : option bool) : option bool :=
  if a then b else Some false.
Definition or_else (a : option bool) (b : option bool) : option bool :=
  a ≫= fun v : bool => if v then Some true else b.

(** [static_cast<uint8_t>(b)] *)
Definition of_bool (b : bool) : Z := if b then 1 else 0.

(** ** The generation kernel *)

Section Kernel.
(** The globals [gWidth] and [gHeight]. *)
Variables gWidth gHeight : Z.

(** [(i + d + n) % n] *)
Definition wrap_index (i d n : Z) : option Z :=
  a ← int_add i d; b ← int_add a n; int_rem b n.

(** The body of the two loops of [neighbor_count]:
    [if (dy || dx) cnt += g[(y+dy+gHeight)%gHeight][(x+dx+gWidth)%gWidth];] *)
Definition add_neighbor (g : Grid) (y x dy cnt dx : Z) : option Z :=
  if negb (dy =? 0) || negb (dx =? 0) then
    yy ← wrap_index y dy gHeight;
    xx ← wrap_index x dx gWidth;
    c ← grid_at g yy xx;
    int_add cnt c
  else Some cnt.

(** [neighbor_count]: the same text in the header and in each program. *)
Definition neighbor_count (g : Grid) (y x : Z) : option Z :=
  for_range (-1) 2 (fun cnt dy =>
    for_range (-1) 2 (fun cnt dx => add_neighbor g y x dy cnt dx) cnt) 0.

(** The value the sequential default program stores:
    [(n == 3) || (cur[y][x] && n == 2)] with [n = neighbor_count(cur, y, x)]. *)
Definition conway_next (cur : Grid) (y x : Z) : option bool :=
  n ← neighbor_count cur y x;
  or_else (Some (n =? 3))
    (c ← grid_at cur y x; and_then (negb (c =? 0)) (Some (n =? 2))).

(** The value the table driven programs store, for the tables [B], [S]:
    [bool alive = cur[y][x] != 0;
     bool nextAlive = (!alive && B[n]) || (alive && S[n]);] *)
Definition table_next (B S : list Z) (cur : Grid) (y x : Z) : option bool :=
  n ← neighbor_count cur y x;
  c ← grid_at cur y x;
  let alive := negb (c =? 0) in
  or_else
    (and_then (negb alive) (b ← vec_at B n; Some (negb (b =? 0))))
    (and_then alive (s ← vec_at S n; Some (negb (s =? 0)))).

(** The loop body: [nxt[y][x] = static_cast<uint8_t>(next)]. *)
Definition store_cell (next : Z -> Z -> option bool) (nxt : Grid) (y x : Z)
    : option Grid :=
  v ← next y x; grid_set nxt y x (of_bool v).

(** The two nested loops over the grid. *)
Definition pass (next : Z -> Z -> option bool) (nxt : Grid) : option Grid :=
  for_range 0 gHeight (fun nxt y =>
    for_range 0 gWidth (fun nxt x => store_cell next nxt y x) nxt) nxt.

(** [step] of the sequential programs; [cur.swap(nxt)] exchanges the two
    buffers, the result is the pair of the new [cur] and the new [nxt]. *)
Definition step_conway (cur nxt : Grid) : option (Grid * Grid) :=
  nxt' ← pass (conway_next cur) nxt; Some (nxt', cur).

(** [step] with the rule tables [B] and [S], run by one thread. *)
Definition step_tables (B S : list Z) (cur nxt : Grid) : option (Grid * Grid) :=
  nxt' ← pass (table_next B S cur) nxt; Some (nxt', cur).



End Kernel.

(** ** The OpenMP loop of the parallel program

    [#pragma omp parallel for collapse(2) schedule(static)] turns the two
    loops into one iteration space, the cells [(y, x)] in row-major order,
    cuts it into one contiguous chunk per thread, and lets every thread run
    its chunk in order; the threads interleave freely.  One iteration reads
    [cur] and writes the single cell [nxt[y][x]]. *)

Section OpenMP.
Variables gWidth gHeight : Z.

Definition iteration_space : list (Z * Z) :=
  flat_map (fun y => map (pair y) (seqZ 0 gWidth)) (seqZ 0 gHeight).

(** Sizes of the chunks of [schedule(static)] for [n] iterations and
    [T] threads.  OpenMP asks for chunks of about the same size, at most
    one per thread, in thread order; the sizes here are those of GCC's
    runtime: the first [n mod T] threads get one iteration more. *)
Definition static_sizes (n T : nat) : list nat :=
  map (fun i => if (i <? n mod T)%nat then S (n / T) else (n / T)%nat) (seq 0 T).

Fixpoint split_chunks {A : Type} (sizes : list nat) (l : list A) : list (list A) :=
  match sizes with
  | [] => []
  | k :: ks => take k l :: split_chunks ks (drop k l)
  end.

Definition static_chunks {A : Type} (T : nat) (l : list A) : list (list A) :=
  split_chunks (static_sizes (length l) T) l.

(** The orders in which the iterations of the threads can happen: any
    merge of the threads' own sequences. *)
Inductive interleaving {A : Type} : list (list A) -> list A -> Prop :=
| interleaving_done ts :
    Forall (fun t => t = []) ts -> interleaving ts []
| interleaving_next ts1 a t ts2 l :
    interleaving (ts1 ++ t :: ts2) l ->
    interleaving (ts1 ++ (a :: t) :: ts2) (a :: l).

(** The iterations run in the order [order]. *)
Definition run_cells (next : Z -> Z -> option bool)
    (order : list (Z * Z)) (nxt : Grid) : option Grid :=
  for_each (fun nxt c => store_cell next nxt c.1 c.2) order nxt.

(** [step] of [invertAmazeLife_openMP_parallel_for.cpp] with [T] threads
    and the tables [B], [S]: the results it can produce. *)
Definition step_omp (B S : list Z) (T : nat) (cur nxt : Grid)
    (res : option (Grid * Grid)) : Prop :=
  exists order,
    interleaving (static_chunks T iteration_space) order /\
    res = (nxt' ← run_cells (table_next gWidth gHeight B S cur) order nxt;
           Some (nxt', cur)).

End OpenMP.

(** ** Rule tables and the rulestring parser (common header) *)

Module Rules.
(** [struct RuleTables { std::array<uint8_t,9> B{}; std::array<uint8_t,9> S{}; }] *)
Record RuleTables := { B : list Z; S : list Z }.
End Rules.
Abbreviation RuleTables := Rules.RuleTables.

(** [std::string] is a list of characters. *)
Abbreviation cstring := (list ascii).
Definition lit (s : string) : cstring := list_ascii_of_string s.

(** The code of a character.  The comparisons of the parser bound the
    character from above by ['8'] or ['9'], so they come out the same
    whether [char] is signed or not. *)
Definition code (c : ascii) : Z := Z.of_N (N_of_ascii c).

(** [r.find_first_of(set)], [None] for [npos]. *)
Fixpoint find_first_of (r set : cstring) : option nat :=
  match r with
  | [] => None
  | c :: r' => if bool_decide (c ∈ set) then Some 0%nat
               else S <$> find_first_of r' set
  end.

(** [std::isdigit] on an [unsigned char]. *)
Definition isdigit (c : ascii) : bool :=
  (code "0" <=? code c) && (code c <=? code "9").

(** The markers at which [fillDigits] stops. *)
Definition is_marker (c : ascii) : bool :=
  bool_decide (c ∈ lit "/BbSs").

(** The state the lambda [fillDigits] works on: the table it fills and the
    captured [invalidFound], [invalidChars]. *)
Record fill_state := {
  arr : list Z;
  invalidFound : bool;
  invalidChars : cstring
}.

(** One iteration of the loop of [fillDigits], after the [break] test. *)
Definition fill_char (st : fill_state) (c : ascii) : fill_state :=
  if (code "0" <=? code c) && (code c <=? code "8") then
    {| arr := <[Z.to_nat (code c - code "0") := 1]> (arr st);
       invalidFound := invalidFound st;
       invalidChars := invalidChars st |}
  else if (code "0" <=? code c) && (code c <=? code "9") then
    {| arr := arr st;
       invalidFound := true;
       invalidChars := if bool_decide (c ∈ invalidChars st)
                       then invalidChars st else invalidChars st ++ [c] |}
  else if isdigit c then
    {| arr := arr st;
       invalidFound := true;
       invalidChars := if bool_decide (c ∈ invalidChars st)
                       then invalidChars st else invalidChars st ++ [c] |}
  else st.

(** The loop of [fillDigits] over the characters from position [from]. *)
Fixpoint fill_loop (s : cstring) (st : fill_state) : fill_state :=
  match s with
  | [] => st
  | c :: s' => if is_marker c then st else fill_loop s' (fill_char st c)
  end.

Definition fillDigits (s : cstring) (from : nat) (st : fill_state) : fill_state :=
  fill_loop (drop from s) st.

(** The characters of [invalidChars] separated by commas. *)
Fixpoint join_commas (cs : cstring) (i : nat) : cstring :=
  match cs with
  | [] => []
  | c :: cs' => (if (0 <? i)%nat then lit "," else []) ++ c :: join_commas cs' (S i)
  end.

Definition endl : cstring := ["010"%char].

(** [t.B.fill(0)] on a 9-element array, which starts zeroed. *)
Definition zero_table : list Z := replicate 9 0.

(** The copy of [rule] without spaces and commas. *)
Definition strip_rule (rule : cstring) : cstring :=
  foldl (fun r c =>
           if negb (bool_decide (c = " "%char)) && negb (bool_decide (c = ","%char))
           then r ++ [c] else r) [] rule.

(** [parse_rulestring]: the tables and the text written to [std::cerr]. *)
Definition parse_rulestring (rule : cstring) : RuleTables * cstring :=
  let r := strip_rule rule in
  let posB := find_first_of r (lit "Bb") in
  let posS := find_first_of r (lit "Ss") in
  match posB, posS with
  | None, None =>
      ({| Rules.B := <[3%nat := 1]> zero_table;
          Rules.S := <[3%nat := 1]> (<[2%nat := 1]> zero_table) |}, [])
  | _, _ =>
      let st0 := {| arr := zero_table; invalidFound := false; invalidChars := [] |} in
      let stB := match posB with
                 | Some p => fillDigits r (p + 1) st0
                 | None => st0
                 end in
      let stS := match posS with
                 | Some p =>
                     fillDigits r (p + 1)
                       {| arr := zero_table; invalidFound := invalidFound stB;
                          invalidChars := invalidChars stB |}
                 | None =>
                     {| arr := zero_table; invalidFound := invalidFound stB;
                        invalidChars := invalidChars stB |}
                 end in
      ({| Rules.B := arr stB; Rules.S := arr stS |},
       if invalidFound stS
       then lit "Warning: digits >8 ignored in rulestring: "
            ++ join_commas (invalidChars stS) 0 ++ endl
       else [])
  end.

(** ** The programs *)

(** What a run of [main] shows to the outside. *)
Inductive event :=
| ClearScreen                 (* "\033[2J" on std::cout *)
| Cerr (text : cstring)       (* a line on std::cerr *)
| Draw (g : Grid)             (* draw(cur) *)
| StepCall (cur : Grid)       (* a call step(cur, nxt) *)
| Report (steps : Z).         (* the timing line of the benchmark mode *)

(** How [main] ends: [return code], or abnormally (an uncaught exception
    of [std::stoi] / [std::stod], or undefined behaviour). *)
Inductive outcome := Exit (code : Z) | Crash.

Record run := { trace : list event; result : outcome }.

Section Main.
(** The probability type with [std::stod], [std::stoi] (both [None] when
    they throw) and the random fill of [random_init]. *)
Variable Prob : Type.
Variable default_prob : Prob.
Variable stod : cstring -> option Prob.
Variable stoi : cstring -> option Z.
Variable random_init : Grid -> Prob -> Grid.

(** [step] of the program, given the dimensions. *)
Variable step : Z -> Z -> Grid -> Grid -> option (Grid * Grid).
(** Whether the program knows [--threads]. *)
Variable has_threads : bool.

(** The locals of [main] set from the command line, with the globals
    [gWidth] and [gHeight]. *)
Record config := {
  draw_enabled : bool;
  steps : Z;
  prob : Prob;
  gWidth : Z;
  gHeight : Z;
  threads : Z
}.

Definition default_config : config :=
  {| draw_enabled := true; steps := -1; prob := default_prob;
     gWidth := 80; gHeight := 24; threads := -1 |}.

(** The loop over [argv[1..]]; an option that needs a value and is the
    last argument falls through all branches and is ignored. *)
Fixpoint parse_args (args : list cstring) (c : config) : option config :=
  match args with
  | [] => Some c
  | a :: rest =>
      if bool_decide (a = lit "--no-draw") then
        parse_args rest
          {| draw_enabled := false; steps := steps c; prob := prob c;
             gWidth := gWidth c; gHeight := gHeight c; threads := threads c |}
      else
        match rest with
        | [] => Some c
        | v :: rest' =>
            if bool_decide (a = lit "--steps") then
              n ← stoi v;
              parse_args rest'
                {| draw_enabled := draw_enabled c; steps := n; prob := prob c;
                   gWidth := gWidth c; gHeight := gHeight c; threads := threads c |}
            else if bool_decide (a = lit "--prob") then
              p ← stod v;
              parse_args rest'
                {| draw_enabled := draw_enabled c; steps := steps c; prob := p;
                   gWidth := gWidth c; gHeight := gHeight c; threads := threads c |}
            else if bool_decide (a = lit "--width") then
              n ← stoi v;
              parse_args rest'
                {| draw_enabled := draw_enabled c; steps := steps c; prob := prob c;
                   gWidth := n; gHeight := gHeight c; threads := threads c |}
            else if bool_decide (a = lit "--height") then
              n ← stoi v;
              parse_args rest'
                {| draw_enabled := draw_enabled c; steps := steps c; prob := prob c;
                   gWidth := gWidth c; gHeight := n; threads := threads c |}
            else if has_threads && bool_decide (a = lit "--threads") then
              n ← stoi v;
              parse_args rest'
                {| draw_enabled := draw_enabled c; steps := steps c; prob := prob c;
                   gWidth := gWidth c; gHeight := gHeight c; threads := n |}
            else parse_args rest c
        end
  end.

(** [steps * gWidth * gHeight], the [int] product by which the report
    divides the time for its last field. *)
Definition report_cells (c : config) : option Z :=
  p ← int_mul (steps c) (gWidth c); int_mul p (gHeight c).

(** [for (int i = 0; i < steps; ++i) step(cur, nxt);] followed by the
    report and [return 0].  The report evaluates [report_cells]; when that
    product overflows the behaviour is undefined and nothing is said about
    the line. *)
Fixpoint benchmark_loop (c : config) (todo : nat) (cur nxt : Grid)
    (tr : list event) : run :=
  match todo with
  | O =>
      match report_cells c with
      | Some _ => {| trace := tr ++ [Report (steps c)]; result := Exit 0 |}
      | None => {| trace := tr; result := Crash |}
      end
  | S todo' =>
      match step (gWidth c) (gHeight c) cur nxt with
      | Some (cur', nxt') =>
          benchmark_loop c todo' cur' nxt' (tr ++ [StepCall cur])
      | None => {| trace := tr ++ [StepCall cur]; result := Crash |}
      end
  end.

(** [while (steps < 0 || iter < steps) { draw; step; ++iter; }] then
    [return 0]; with [steps < 0] the loop does not end, [fuel] bounds the
    number of iterations that are followed. *)
Fixpoint interactive_loop (fuel : nat) (c : config) (iter : Z)
    (cur nxt : Grid) (tr : list event) : option run :=
  if (steps c <? 0) || (iter <? steps c) then
    match fuel with
    | O => None
    | S fuel' =>
        let tr := if draw_enabled c then tr ++ [Draw cur] else tr in
        match step (gWidth c) (gHeight c) cur nxt with
        | Some (cur', nxt') =>
            match int_add iter 1 with
            | Some iter' =>
                interactive_loop fuel' c iter' cur' nxt' (tr ++ [StepCall cur])
            | None => Some {| trace := tr ++ [StepCall cur]; result := Crash |}
            end
        | None => Some {| trace := tr ++ [StepCall cur]; result := Crash |}
        end
    end
  else Some {| trace := tr; result := Exit 0 |}.

(** [main], after the options are read into [c]. *)
Definition main_body (fuel : nat) (c : config) : option run :=
  let tr := if draw_enabled c then [ClearScreen] else [] in
  if (gWidth c <=? 0) || (gHeight c <=? 0) then
    Some {| trace := tr ++ [Cerr (lit "Invalid dimensions" ++ endl)];
            result := Exit 1 |}
  else
    let cur := replicate (Z.to_nat (gHeight c)) (replicate (Z.to_nat (gWidth c)) 0) in
    let nxt := cur in
    let cur := random_init cur (prob c) in
    if negb (draw_enabled c) && (0 <? steps c) then
      Some (benchmark_loop c (Z.to_nat (steps c)) cur nxt tr)
    else interactive_loop fuel c 0 cur nxt tr.

(** [main(argc, argv)]; [argv[0]] is skipped. *)
Definition life_main (fuel : nat) (argv : list cstring) : option run :=
  match parse_args (tail argv) default_config with
  | Some c => main_body fuel c
  | None => Some {| trace := []; result := Crash |}
  end.
End Main.

Arguments draw_enabled {Prob} _.
Arguments steps {Prob} _.
Arguments prob {Prob} _.
Arguments gWidth {Prob} _.
Arguments gHeight {Prob} _.
Arguments threads {Prob} _.

(** The sequential default program. *)
Module DefaultSequential.
Definition neighbor_count := neighbor_count.
Definition step (gWidth gHeight : Z) := step_conway gWidth gHeight.
Definition main {Prob} (default_prob : Prob) stod stoi random_init :=
  life_main Prob default_prob stod stoi random_init step false.
End DefaultSequential.

(** [invertAmazeLife_openMP_parallel_for.cpp], rule B028/S0124. *)
Module InvertAmaze.
Definition B : list Z := [1;0;1;0;0;0;0;0;1].
Definition S : list Z := [1;1;1;0;1;0;0;0;0].
Definition neighbor_count := neighbor_count.
(** [step] as one thread runs it (also the build without OpenMP). *)
Definition step (gWidth gHeight : Z) := step_tables gWidth gHeight B S.
(** [step] under OpenMP with [T] threads. *)
Definition step_parallel (gWidth gHeight : Z) (T : nat) :=
  step_omp gWidth gHeight B S T.
Definition main {Prob} (default_prob : Prob) stod stoi random_init :=
  life_main Prob default_prob stod stoi random_init step true.
End InvertAmaze.

(** The first sequential program: the grid is the constant 80 x 24. *)
Module FixedSequential.
Definition kWidth : Z := 80.
Definition kHeight : Z := 24.
Definition neighbor_count := neighbor_count kWidth kHeight.
Definition step := step_conway kWidth kHeight.
End FixedSequential.

(** [std::stoi(s)] of the standard library (base 10, in the C locale), as
    it works through [strtol]: leading white space is skipped, a sign may
    follow, then the longest run of digits is read and the rest of the text
    is ignored.  It throws ([None]) when there is no digit
    ([std::invalid_argument]) and when the value does not fit an [int]
    ([std::out_of_range]). *)
Definition isspace (c : ascii) : bool :=
  (code c =? 32) || ((9 <=? code c) && (code c <=? 13)).

Fixpoint skip_spaces (s : cstring) : cstring :=
  match s with
  | c :: s' => if isspace c then skip_spaces s' else s
  | [] => []
  end.

Fixpoint leading_digits (s : cstring) : cstring :=
  match s with
  | c :: s' => if isdigit c then c :: leading_digits s' else []
  | [] => []
  end.

Fixpoint digits_value (s : cstring) (acc : Z) : Z :=
  match s with
  | [] => acc
  | c :: s' => digits_value s' (10 * acc + (code c - code "0"))
  end.

Definition stoi_dec (s : cstring) : option Z :=
  let signed :=
    match skip_spaces s with
    | c :: s' => if bool_decide (c = "-"%char) then (true, s')
                 else if bool_decide (c = "+"%char) then (false, s')
                 else (false, c :: s')
    | [] => (false, [])
    end in
  match leading_digits signed.2 with
  | [] => None
  | ds => let v := digits_value ds 0 in
          let v := if signed.1 then - v else v in
          if in_int v then Some v else None
  end.

(** ** Vocabulary of the statements *)

(** A grid of [h] rows of [w] cells. *)
Definition grid_shape (w h : Z) (g : Grid) : Prop :=
  Z.of_nat (length g) = h /\ Forall (fun row => Z.of_nat (length row) = w) g.

(** Every cell is a [uint8_t]. *)
Definition cells_u8 (g : Grid) : Prop :=
  Forall (Forall (fun c => 0 <= c < 256)) g.

(** Every cell is 0 or 1. *)
Definition bit_valued (g : Grid) : Prop :=
  Forall (Forall (fun c => c = 0 \/ c = 1)) g.

(** Positive dimensions for which [i + 1 + n] fits an [int]. *)
Definition dims_ok (w h : Z) : Prop := 0 < w < 2 ^ 30 /\ 0 < h < 2 ^ 30.

(** The row lengths of a grid. *)
Definition row_lengths (g : Grid) : list nat := map length g.

(** The position [(y, x)] lies in the grid. *)
Definition in_grid (g : Grid) (y x : Z) : Prop := is_Some (grid_at g y x).

(** The iteration for the cell [c] can run: its value is defined and the
    cell lies in [nxt]. *)
Definition cell_ready (next : Z -> Z -> option bool) (nxt : Grid) (c : Z * Z) : Prop :=
  is_Some (next c.1 c.2) /\ in_grid nxt c.1 c.2.

#[global] Instance cell_ready_dec next nxt c : Decision (cell_ready next nxt c).
Proof. unfold cell_ready, in_grid. apply _. Defined.

(** The cell [(y, x)], 0 outside the grid. *)
Definition cell (g : Grid) (y x : Z) : Z := default 0 (grid_at g y x).

(** A table entry, 0 outside the table. *)
Definition entry (t : list Z) (n : Z) : Z := default 0 (vec_at t n).

(** The eight offsets [(dy, dx)], [(0, 0)] excluded. *)
Definition neighbor_offsets : list (Z * Z) :=
  [(-1, -1); (-1, 0); (-1, 1); (0, -1); (0, 1); (1, -1); (1, 0); (1, 1)].

(** The neighbour count in the words of the specification: the sum of
    [current[(y+dy+height)%height][(x+dx+width)%width]] over the offsets. *)
Definition count_spec (w h : Z) (g : Grid) (y x : Z) : Z :=
  foldr Z.add 0
    (map (fun d => cell g ((y + d.1 + h) mod h) ((x + d.2 + w) mod w))
       neighbor_offsets).

(** The cells at the wrapped offsets other than [d]. *)
Definition other_neighbors (w h : Z) (g : Grid) (y x : Z) (d : Z * Z) : Z :=
  foldr Z.add 0
    (map (fun e => cell g ((y + e.1 + h) mod h) ((x + e.2 + w) mod w))
       (List.filter (fun e => negb ((e.1 =? d.1) && (e.2 =? d.2)))
          neighbor_offsets)).

(** The cell [(y', x')] is the summand that the offset [d] contributes to
    the count of [(y, x)]: the count is this cell plus the cells at the
    seven other offsets. *)
Definition counted_by (w h : Z) (g : Grid) (y x : Z) (d : Z * Z) (y' x' : Z)
    : Prop :=
  d ∈ neighbor_offsets /\
  neighbor_count w h g y x = Some (cell g y' x' + other_neighbors w h g y x d).

(** [g'] is [g] with the dead cell [(y', x')] made alive, all other cells
    as they are. *)
Definition revived (g g' : Grid) (y' x' : Z) : Prop :=
  cell g y' x' = 0 /\ cell g' y' x' = 1 /\
  forall a b, a <> y' \/ b <> x' -> cell g' a b = cell g a b.

(** The cell [(y, x)] counts the cell [(y', x')] as a neighbour, at the
    offset [d]: the cell is a summand of the count, and making it alive
    makes the count larger. *)
Definition neighbor_of (w h : Z) (g : Grid) (y x : Z) (d : Z * Z) (y' x' : Z)
    : Prop :=
  counted_by w h g y x d y' x' /\
  forall g', grid_shape w h g' -> cells_u8 g' -> revived g g' y' x' ->
    exists n n', neighbor_count w h g y x = Some n /\
                 neighbor_count w h g' y x = Some n' /\ n < n'.

(** The next state in the words of the specification:
    [(not alive AND Birth[count]) OR (alive AND Survive[count])]. *)
Definition rule_spec (B S : list Z) (alive : bool) (n : Z) : bool :=
  (negb alive && negb (entry B n =? 0)) || (alive && negb (entry S n =? 0)).

(** Conway's rule in the words of the specification: a live cell survives
    with 2 or 3 live neighbours, a dead cell is born with exactly 3. *)
Definition conway_spec (alive : bool) (n : Z) : bool :=
  if alive then (n =? 2) || (n =? 3) else n =? 3.

(** The default tables, Birth = {3} and Survive = {2, 3}. *)
Definition default_B : list Z := [0; 0; 0; 1; 0; 0; 0; 0; 0].
Definition default_S : list Z := [0; 0; 1; 1; 0; 0; 0; 0; 0].

(** [n] calls of [step] in a row, as the loops of [main] make them. *)
Fixpoint run_steps (step : Grid -> Grid -> option (Grid * Grid)) (n : nat)
    (cur nxt : Grid) : option (Grid * Grid) :=
  match n with
  | O => Some (cur, nxt)
  | S n' => s ← step cur nxt; run_steps step n' s.1 s.2
  end.

(** The cells of a 2 x 2 block whose top left corner is [(by, bx)], on the
    torus of [h] rows and [w] columns. *)
Definition in_block (w h by_ bx y x : Z) : bool :=
  ((y - by_) mod h <? 2) && ((x - bx) mod w <? 2).

(** [g] holds such a block and is dead everywhere else. *)
Definition block_grid (w h by_ bx : Z) (g : Grid) : Prop :=
  grid_shape w h g /\
  forall y x, 0 <= y < h -> 0 <= x < w ->
    grid_at g y x = Some (of_bool (in_block w h by_ bx y x)).

(** The distinct elements of a list in the order of their first
    appearance. *)
Definition add_seen (acc : cstring) (c : ascii) : cstring :=
  if bool_decide (c ∈ acc) then acc else acc ++ [c].
Definition first_seen (cs : cstring) : cstring := foldl add_seen [] cs.

(** The characters a section scan reads: up to the next marker. *)
Fixpoint until_marker (s : cstring) : cstring :=
  match s with
  | [] => []
  | c :: s' => if is_marker c then [] else c :: until_marker s'
  end.

(** The section that follows the marker at [pos] in the stripped text. *)
Definition section_after (r : cstring) (pos : option nat) : cstring :=
  match pos with
  | Some p => until_marker (drop (p + 1) r)
  | None => []
  end.

(** All the characters the parser scans, the B section first. *)
Definition scanned (rule : cstring) : cstring :=
  let r := strip_rule rule in
  section_after r (find_first_of r (lit "Bb")) ++
  section_after r (find_first_of r (lit "Ss")).

(** The digit characters above 8. *)
Definition invalid_digit (c : ascii) : bool :=
  isdigit c && negb ((code "0" <=? code c) && (code c <=? code "8")).

(** The diagnostic line for the invalid characters [cs]. *)
Definition warning (cs : cstring) : cstring :=
  lit "Warning: digits >8 ignored in rulestring: " ++ join_commas cs 0 ++ endl.

(** The characters the parser keeps: all but spaces and commas. *)
Definition kept (c : ascii) : bool :=
  negb (bool_decide (c = " "%char)) && negb (bool_decide (c = ","%char)).

(** The upper-case form of a marker letter; other characters stay. *)
Definition marker_upper (c : ascii) : ascii :=
  if bool_decide (c = "b"%char) then "B"%char
  else if bool_decide (c = "s"%char) then "S"%char
  else c.

(** A well-formed table: nine entries, each 0 or 1. *)
Definition table_ok (t : list Z) : Prop :=
  length t = 9%nat /\ Forall (fun b => b = 0 \/ b = 1) t.

(** The tables of the standard Game of Life. *)
Definition default_rule : RuleTables :=
  {| Rules.B := default_B; Rules.S := default_S |}.

(** ** Vocabulary of the further properties *)

(** [Grid g(h, std::vector<uint8_t>(w, c))], as [main] builds its buffers. *)
Definition uniform_grid (w h c : Z) : Grid :=
  replicate (Z.to_nat h) (replicate (Z.to_nat w) c).

(** [g'] shows [g] moved on the torus: its cell [(y, x)] is the cell
    [(y + a, x + b)] of [g]. *)
Definition shifted (w h a b : Z) (g g' : Grid) : Prop :=
  forall y x, 0 <= y < h -> 0 <= x < w ->
    grid_at g' y x = grid_at g ((y + a) mod h) ((x + b) mod w).

(** Three live cells in the row [cy], centred on the column [cx], on an
    otherwise dead torus; and the same in the column [cx]. *)
Definition hblinker (w h cy cx : Z) (g : Grid) : Prop :=
  grid_shape w h g /\
  forall y x, 0 <= y < h -> 0 <= x < w ->
    grid_at g y x =
    Some (of_bool (((y - cy) mod h =? 0) && ((x - (cx - 1)) mod w <? 3))).

Definition vblinker (w h cy cx : Z) (g : Grid) : Prop :=
  grid_shape w h g /\
  forall y x, 0 <= y < h -> 0 <= x < w ->
    grid_at g y x =
    Some (of_bool (((y - (cy - 1)) mod h <? 3) && ((x - cx) mod w =? 0))).

(** [nxt] holds every cell of the [w] x [h] range. *)
Definition covers (w h : Z) (nxt : Grid) : Prop :=
  forall y x, 0 <= y < h -> 0 <= x < w -> in_grid nxt y x.

(** ** The remaining functions of the programs *)

(** [random_init]: every cell, row by row, receives the next outcome of
    [bern(rng)]; [draws] is the sequence of these outcomes, whatever the
    seed of the generator and the probability make it. *)
Fixpoint random_row (draws : nat -> bool) (k : nat) (row : list Z) : list Z * nat :=
  match row with
  | [] => ([], k)
  | _ :: row' =>
      let r := random_row draws (S k) row' in (of_bool (draws k) :: r.1, r.2)
  end.

Fixpoint random_rows (draws : nat -> bool) (k : nat) (g : Grid) : Grid :=
  match g with
  | [] => []
  | row :: g' =>
      let r := random_row draws k row in r.1 :: random_rows draws r.2 g'
  end.

Definition random_init (draws : nat -> bool) (g : Grid) : Grid :=
  random_rows draws 0 g.

(** ["\033[H"], the cursor to the top left. *)
Definition home : cstring := ["027"%char; "["%char; "H"%char].

(** [(g[y][x] ? '#' : ' ')] *)
Definition glyph (c : Z) : ascii := if c =? 0 then " "%char else "#"%char.

(** [draw]: the text written to [std::cout]. *)
Definition draw (gWidth gHeight : Z) (g : Grid) : option cstring :=
  for_range 0 gHeight (fun out y =>
    out' ← for_range 0 gWidth (fun out x =>
              c ← grid_at g y x; Some (out ++ [glyph c])) out;
    Some (out' ++ endl)) home.

(** A row and a grid as [draw] shows them. *)
Definition render_row (row : list Z) : cstring := map glyph row ++ endl.
Definition render (g : Grid) : cstring := home ++ concat (map render_row g).

(** The rest of the first sequential program. *)
Module FixedProgram.
(** [manual_init] *)
Definition manual_init (g : Grid) : option Grid :=
  g1 ← grid_set g 10 40 1; g2 ← grid_set g1 10 41 1; grid_set g2 10 42 1.

(** The loop [while (true) { draw(cur); step(cur, nxt); ... }]: the events
    of its first [fuel] rounds; [None] says that the loop is still
    running, it has no exit. *)
Fixpoint loop (fuel : nat) (cur nxt : Grid) (tr : list event)
    : list event * option outcome :=
  match fuel with
  | O => (tr, None)
  | S fuel' =>
      match FixedSequential.step cur nxt with
      | Some (cur', nxt') => loop fuel' cur' nxt' (tr ++ [Draw cur; StepCall cur])
      | None => (tr ++ [Draw cur; StepCall cur], Some Crash)
      end
  end.

(** [main] *)
Definition main (fuel : nat) : list event * option outcome :=
  let cur := uniform_grid FixedSequential.kWidth FixedSequential.kHeight 0 in
  let nxt := cur in
  match manual_init cur with
  | Some cur' => loop fuel cur' nxt [ClearScreen]
  | None => ([ClearScreen], Some Crash)
  end.
End FixedProgram.

(** The events of a run that draws and steps through the generations [gens]. *)
Definition frames (gens : list Grid) : list event :=
  flat_map (fun g => [Draw g; StepCall g]) gens.

(** The generations [0 .. n-1] of a run of [step] from [cur], [nxt]. *)
Fixpoint generations (step : Grid -> Grid -> option (Grid * Grid)) (n : nat)
    (cur nxt : Grid) : list Grid :=
  match n with
  | O => []
  | S n' =>
      cur :: match step cur nxt with
             | Some s => generations step n' s.1 s.2
             | None => []
             end
  end.

(** The digit character of a count, and the canonical text of a rule:
    ["B"], the counts of the birth table, ["/S"], the counts of the
    survival table, as in the rule list of the README. *)
Definition digit_char (n : nat) : ascii := ascii_of_nat (48 + n).

Definition show_table (t : list Z) : cstring :=
  map digit_char
    (List.filter (fun n => negb (entry t (Z.of_nat n) =? 0)) (seq 0 9)).

Definition show_rule (t : RuleTables) : cstring :=
  lit "B" ++ show_table (Rules.B t) ++ lit "/S" ++ show_table (Rules.S t).

(** ** Loops and vectors *)

Lemma for_each_app {A St : Type} (body : St -> A -> option St) l1 l2 s :
  for_each body (l1 ++ l2) s = for_each body l1 s ≫= for_each body l2.
Proof.
  revert s; induction l1 as [|a l1 IH]; intros s; simpl; [done|].
  destruct (body s a); simpl; auto.
Qed.

Lemma vec_at_Some {A : Type} (v : list A) i a :
  vec_at v i = Some a <-> 0 <= i /\ v !! Z.to_nat i = Some a.
Proof.
  unfold vec_at. destruct (Z.ltb_spec i 0); [split; [done|lia]|].
  split; [auto|tauto].
Qed.

Lemma vec_at_is_Some {A : Type} (v : list A) i :
  is_Some (vec_at v i) <-> 0 <= i < Z.of_nat (length v).
Proof.
  unfold vec_at. destruct (Z.ltb_spec i 0).
  - split; [intros [? ?]; done | lia].
  - rewrite lookup_lt_is_Some. lia.
Qed.

Lemma vec_set_Some {A : Type} (v : list A) i a :
  0 <= i < Z.of_nat (length v) -> vec_set v i a = Some (<[Z.to_nat i := a]> v).
Proof.
  intros Hi. unfold vec_set.
  destruct (Z.leb_spec 0 i); [|lia]. destruct (Z.ltb_spec i (Z.of_nat (length v))); [done|lia].
Qed.

Lemma vec_set_None {A : Type} (v : list A) i a :
  ~ 0 <= i < Z.of_nat (length v) -> vec_set v i a = None.
Proof.
  intros Hi. unfold vec_set.
  destruct (Z.leb_spec 0 i); [|done]. destruct (Z.ltb_spec i (Z.of_nat (length v))); [lia|done].
Qed.

Lemma vec_at_insert_eq {A : Type} (v : list A) i a :
  0 <= i < Z.of_nat (length v) -> vec_at (<[Z.to_nat i := a]> v) i = Some a.
Proof.
  intros Hi. apply vec_at_Some. split; [lia|].
  apply list_lookup_insert_eq. lia.
Qed.

Lemma vec_at_insert_ne {A : Type} (v : list A) i j a :
  0 <= i -> j <> i -> vec_at (<[Z.to_nat i := a]> v) j = vec_at v j.
Proof.
  intros Hi Hne. unfold vec_at. destruct (Z.ltb_spec j 0); [done|].
  apply list_lookup_insert_ne. lia.
Qed.

(** ** Grids *)

Lemma in_grid_lengths (g : Grid) y x :
  in_grid g y x <->
  0 <= y /\ exists n, row_lengths g !! Z.to_nat y = Some n /\ 0 <= x < Z.of_nat n.
Proof.
  unfold in_grid, grid_at, row_lengths. rewrite list_lookup_fmap. split.
  - intros [c Hc]. destruct (vec_at g y) as [row|] eqn:Hrow; [|done].
    simpl in Hc. apply vec_at_Some in Hrow as [Hy Hrow]. rewrite Hrow. simpl.
    split; [done|]. exists (length row). split; [done|].
    apply vec_at_is_Some. eauto.
  - intros [Hy (n & Hn & Hx)].
    destruct (g !! Z.to_nat y) as [row|] eqn:Hrow; [|done].
    simpl in Hn. injection Hn as <-.
    assert (vec_at g y = Some row) as -> by (apply vec_at_Some; auto).
    simpl. by apply vec_at_is_Some.
Qed.

Lemma in_grid_same_lengths (g g' : Grid) y x :
  row_lengths g = row_lengths g' -> in_grid g y x <-> in_grid g' y x.
Proof. intros E. by rewrite !in_grid_lengths, E. Qed.

Lemma grid_set_None (g : Grid) y x v :
  ~ in_grid g y x -> grid_set g y x v = None.
Proof.
  unfold in_grid, grid_set, grid_at. intros H.
  destruct (vec_at g y) as [row|] eqn:Hrow; [|done]. simpl in *.
  rewrite vec_set_None; [done|]. by rewrite <- vec_at_is_Some.
Qed.

Lemma grid_set_Some (g : Grid) y x v :
  in_grid g y x ->
  exists g', grid_set g y x v = Some g' /\
    row_lengths g' = row_lengths g /\
    forall y' x', grid_at g' y' x' =
      if bool_decide (y' = y /\ x' = x) then Some v else grid_at g y' x'.
Proof.
  unfold in_grid, grid_set, grid_at. intros H.
  destruct (vec_at g y) as [row|] eqn:Hrow; [|by destruct H]. simpl in *.
  apply vec_at_is_Some in H.
  pose proof Hrow as Hrow'. apply vec_at_Some in Hrow' as [Hy Hl].
  assert (0 <= y < Z.of_nat (length g)) as Hy'.
  { apply vec_at_is_Some. eauto. }
  rewrite vec_set_Some by done. simpl. rewrite vec_set_Some by done.
  eexists; split; [done|]. split.
  - unfold row_lengths. apply list_eq. intros i.
    rewrite !list_lookup_fmap. destruct (decide (i = Z.to_nat y)) as [->|Hne].
    + rewrite list_lookup_insert_eq by lia. rewrite Hl. simpl.
      by rewrite length_insert.
    + by rewrite list_lookup_insert_ne.
  - intros y' x'. destruct (decide (y' = y)) as [->|Hne].
    + rewrite vec_at_insert_eq by done. rewrite Hrow. simpl.
      destruct (decide (x' = x)) as [->|Hnx].
      * rewrite bool_decide_eq_true_2 by done. by apply vec_at_insert_eq.
      * rewrite bool_decide_eq_false_2 by tauto.
        apply vec_at_insert_ne; [lia|done].
    + rewrite bool_decide_eq_false_2 by tauto.
      rewrite vec_at_insert_ne; [done|lia|done].
Qed.

Lemma grid_ext (g1 g2 : Grid) :
  row_lengths g1 = row_lengths g2 ->
  (forall y x, grid_at g1 y x = grid_at g2 y x) -> g1 = g2.
Proof.
  intros Hlen Hat. apply list_eq. intros i.
  assert (length <$> g1 !! i = length <$> g2 !! i) as Hi.
  { unfold row_lengths in Hlen.
    pose proof (f_equal (fun l => l !! i) Hlen) as E. simpl in E.
    by rewrite !list_lookup_fmap in E. }
  destruct (g1 !! i) as [r1|] eqn:H1, (g2 !! i) as [r2|] eqn:H2; try done.
  simpl in Hi. injection Hi as Hi. f_equal. apply list_eq. intros j.
  specialize (Hat (Z.of_nat i) (Z.of_nat j)). unfold grid_at, vec_at in Hat.
  destruct (Z.ltb_spec (Z.of_nat i) 0); [lia|].
  rewrite (Nat2Z.id i), H1, H2 in Hat. simpl in Hat.
  destruct (Z.ltb_spec (Z.of_nat j) 0); [lia|]. by rewrite Nat2Z.id in Hat.
Qed.

Lemma grid_shape_same_lengths w h (g g' : Grid) :
  row_lengths g' = row_lengths g -> grid_shape w h g -> grid_shape w h g'.
Proof.
  unfold grid_shape, row_lengths. intros E [Hh Hw]. split.
  - rewrite <- Hh. f_equal. by rewrite <- (length_map length g'), E, length_map.
  - apply (Forall_fmap length (fun n => Z.of_nat n = w)).
    change (length <$> g') with (map length g'). rewrite E.
    by apply (Forall_fmap length (fun n => Z.of_nat n = w)).
Qed.

Lemma in_grid_shape w h (g : Grid) y x :
  grid_shape w h g -> in_grid g y x <-> 0 <= y < h /\ 0 <= x < w.
Proof.
  intros [Hh Hw]. unfold in_grid, grid_at. split.
  - intros [c Hc]. destruct (vec_at g y) as [row|] eqn:Hrow; [|done].
    simpl in Hc. assert (is_Some (vec_at g y)) as Hy by eauto.
    apply vec_at_is_Some in Hy. apply vec_at_Some in Hrow as [_ Hrow].
    rewrite Forall_lookup in Hw. specialize (Hw _ _ Hrow).
    assert (is_Some (vec_at row x)) as Hx by eauto.
    apply vec_at_is_Some in Hx. lia.
  - intros [Hy Hx]. assert (is_Some (vec_at g y)) as [row Hrow].
    { apply vec_at_is_Some. lia. }
    rewrite Hrow. simpl. apply vec_at_is_Some.
    apply vec_at_Some in Hrow as [_ Hrow].
    rewrite Forall_lookup in Hw. specialize (Hw _ _ Hrow). lia.
Qed.

Lemma grid_shape_ext w h (g1 g2 : Grid) :
  grid_shape w h g1 -> grid_shape w h g2 ->
  (forall y x, 0 <= y < h -> 0 <= x < w -> grid_at g1 y x = grid_at g2 y x) ->
  g1 = g2.
Proof.
  intros Hs1 Hs2 Hat. apply grid_ext.
  - destruct Hs1 as [Hl1 Hr1], Hs2 as [Hl2 Hr2]. unfold row_lengths.
    apply list_eq_same_length with (Z.to_nat h); rewrite ?length_map; try lia.
    intros i a b _. rewrite !list_lookup_fmap.
    destruct (g1 !! i) as [r1|] eqn:E1; [|done].
    destruct (g2 !! i) as [r2|] eqn:E2; [|done]. simpl.
    rewrite Forall_lookup in Hr1, Hr2.
    specialize (Hr1 _ _ E1). specialize (Hr2 _ _ E2).
    intros [= <-] [= <-]. lia.
  - intros y x. destruct (decide (0 <= y < h /\ 0 <= x < w)) as [[Hy Hx]|Hout].
    + by apply Hat.
    + destruct (grid_at g1 y x) eqn:E1.
      { destruct Hout. apply (in_grid_shape w h g1); [done|].
        unfold in_grid. eauto. }
      destruct (grid_at g2 y x) eqn:E2; [|done].
      destruct Hout. apply (in_grid_shape w h g2); [done|].
      unfold in_grid. eauto.
Qed.

Lemma bits_from_lookup w h (g : Grid) :
  grid_shape w h g ->
  (forall y x, 0 <= y < h -> 0 <= x < w ->
     exists b, grid_at g y x = Some (of_bool b)) ->
  bit_valued g.
Proof.
  intros Hs Hat.
  apply Forall_lookup. intros i row Hrow. apply Forall_lookup. intros j c Hc.
  assert (grid_at g (Z.of_nat i) (Z.of_nat j) = Some c) as Hg.
  { unfold grid_at, vec_at.
    destruct (Z.ltb_spec (Z.of_nat i) 0); [lia|].
    rewrite (Nat2Z.id i), Hrow. simpl.
    destruct (Z.ltb_spec (Z.of_nat j) 0); [lia|]. by rewrite Nat2Z.id. }
  assert (in_grid g (Z.of_nat i) (Z.of_nat j)) as Hin by (unfold in_grid; eauto).
  apply (in_grid_shape w h) in Hin as [Hy Hx]; [|done].
  destruct (Hat _ _ Hy Hx) as [[] Hb]; rewrite Hb in Hg;
    injection Hg as <-; auto.
Qed.

(** ** Running the cell updates in any order *)

Section Cells.
Variable next : Z -> Z -> option bool.

Lemma store_cell_Some nxt y x v :
  next y x = Some v -> in_grid nxt y x ->
  exists g', store_cell next nxt y x = Some g' /\
    row_lengths g' = row_lengths nxt /\
    forall y' x', grid_at g' y' x' =
      if bool_decide (y' = y /\ x' = x) then Some (of_bool v)
      else grid_at nxt y' x'.
Proof.
  intros Hv Hin. unfold store_cell. rewrite Hv. simpl.
  by apply grid_set_Some.
Qed.

Lemma store_cell_None nxt c :
  ~ cell_ready next nxt c -> store_cell next nxt c.1 c.2 = None.
Proof.
  unfold cell_ready, store_cell. intros H.
  destruct (next c.1 c.2) as [v|]; [|done]. simpl.
  apply grid_set_None. intros Hin. apply H. eauto.
Qed.

Lemma cell_ready_same_lengths nxt nxt' c :
  row_lengths nxt' = row_lengths nxt ->
  cell_ready next nxt c <-> cell_ready next nxt' c.
Proof.
  intros E. unfold cell_ready.
  by rewrite (in_grid_same_lengths nxt' nxt).
Qed.

Lemma run_cells_Some l : forall nxt,
  Forall (cell_ready next nxt) l ->
  exists new, run_cells next l nxt = Some new /\
    row_lengths new = row_lengths nxt /\
    forall y x, grid_at new y x =
      if bool_decide ((y, x) ∈ l) then of_bool <$> next y x
      else grid_at nxt y x.
Proof.
  induction l as [|[y0 x0] l IH]; intros nxt Hall.
  - exists nxt. split; [done|]. split; [done|]. intros y x.
    rewrite bool_decide_eq_false_2; [done|]. apply not_elem_of_nil.
  - apply Forall_cons in Hall as [[[v Hv] Hin] Hall]. simpl in Hv, Hin.
    destruct (store_cell_Some nxt y0 x0 v Hv Hin) as (g1 & Hg1 & Hlen1 & Hat1).
    destruct (IH g1) as (new & Hnew & Hlen & Hat).
    { eapply Forall_impl; [exact Hall|]. intros c Hc.
      by apply (cell_ready_same_lengths nxt g1). }
    exists new. split; [|split].
    + unfold run_cells in *. simpl. rewrite Hg1. simpl. exact Hnew.
    + congruence.
    + intros y x. rewrite Hat, Hat1.
      destruct (decide ((y, x) ∈ l)) as [Hl|Hl].
      * rewrite !bool_decide_eq_true_2; [done| |done]. by right.
      * rewrite (bool_decide_eq_false_2 _ Hl).
        destruct (decide (y = y0 /\ x = x0)) as [[-> ->]|Hne].
        -- rewrite !bool_decide_eq_true_2; [|left|done]. by rewrite Hv.
        -- rewrite !bool_decide_eq_false_2; [done| |done].
           intros [E|?]%elem_of_cons; [|done]. injection E as -> ->. tauto.
Qed.

Lemma run_cells_None l : forall nxt,
  ~ Forall (cell_ready next nxt) l -> run_cells next l nxt = None.
Proof.
  induction l as [|c l IH]; intros nxt Hall.
  - destruct Hall. constructor.
  - unfold run_cells in *. simpl.
    destruct (decide (cell_ready next nxt c)) as [Hc|Hc].
    + pose proof Hc as [[v Hv] Hin].
      destruct (store_cell_Some nxt c.1 c.2 v Hv Hin) as (g1 & Hg1 & Hlen1 & _).
      rewrite Hg1. simpl. apply IH. intros Hl. apply Hall.
      constructor; [done|]. eapply Forall_impl; [exact Hl|].
      intros c' Hc'. by apply (cell_ready_same_lengths nxt g1).
    + by rewrite store_cell_None.
Qed.

(** The result does not depend on the order of the iterations. *)
Lemma run_cells_perm l l' nxt :
  l ≡ₚ l' -> run_cells next l nxt = run_cells next l' nxt.
Proof.
  intros Hp. destruct (decide (Forall (cell_ready next nxt) l)) as [Hall|Hall].
  - destruct (run_cells_Some l nxt Hall) as (g & -> & Hlen & Hat).
    rewrite Hp in Hall.
    destruct (run_cells_Some l' nxt Hall) as (g' & -> & Hlen' & Hat').
    f_equal. apply grid_ext; [congruence|]. intros y x.
    rewrite Hat, Hat'.
    rewrite (bool_decide_ext ((y, x) ∈ l) ((y, x) ∈ l')); [done|].
    by rewrite Hp.
  - rewrite (run_cells_None l) by done. symmetry. apply run_cells_None.
    by rewrite <- Hp.
Qed.
End Cells.

(** ** The sequential loops visit the iteration space in row-major order *)

Lemma for_each_pairs {St : Type} (f : St -> Z -> Z -> option St) y xs s :
  for_each (fun s c => f s c.1 c.2) (map (pair y) xs) s =
  for_each (fun s x => f s y x) xs s.
Proof.
  revert s. induction xs as [|x xs IH]; intros s; simpl; [done|].
  destruct (f s y x); simpl; auto.
Qed.

Lemma for_each_flat {St : Type} (f : St -> Z -> Z -> option St) ys xs s :
  for_each (fun s y => for_each (fun s x => f s y x) xs s) ys s =
  for_each (fun s c => f s c.1 c.2)
    (flat_map (fun y => map (pair y) xs) ys) s.
Proof.
  revert s. induction ys as [|y ys IH]; intros s; simpl; [done|].
  rewrite for_each_app, for_each_pairs.
  destruct (for_each (fun s x => f s y x) xs s); simpl; auto.
Qed.

Lemma pass_run_cells w h next nxt :
  pass w h next nxt = run_cells next (iteration_space w h) nxt.
Proof.
  unfold pass, run_cells, iteration_space, for_range.
  rewrite !Z.sub_0_r. apply for_each_flat.
Qed.

Lemma elem_of_iteration_space w h y x :
  (y, x) ∈ iteration_space w h <-> 0 <= y < h /\ 0 <= x < w.
Proof.
  unfold iteration_space. rewrite list_elem_of_In, in_flat_map. split.
  - intros (y' & Hy & Hx). apply in_map_iff in Hx as (x' & E & Hx).
    injection E as -> ->.
    apply list_elem_of_In, elem_of_seqZ in Hy.
    apply list_elem_of_In, elem_of_seqZ in Hx. lia.
  - intros [Hy Hx]. exists y. split.
    + apply list_elem_of_In, elem_of_seqZ. lia.
    + apply in_map. apply list_elem_of_In, elem_of_seqZ. lia.
Qed.

(** One pass over a grid of the right shape, when every cell's value is
    defined: it succeeds, keeps the shape, and every cell holds its value. *)
Lemma pass_spec w h next nxt :
  grid_shape w h nxt ->
  (forall y x, 0 <= y < h -> 0 <= x < w -> is_Some (next y x)) ->
  exists new, pass w h next nxt = Some new /\
    grid_shape w h new /\
    forall y x, 0 <= y < h -> 0 <= x < w ->
      grid_at new y x = of_bool <$> next y x.
Proof.
  intros Hshape Hnext. rewrite pass_run_cells.
  destruct (run_cells_Some next (iteration_space w h) nxt)
    as (new & Hnew & Hlen & Hat).
  { apply Forall_forall. intros [y x] Hc.
    apply elem_of_iteration_space in Hc as [Hy Hx]. split; simpl.
    - by apply Hnext.
    - by apply (in_grid_shape w h). }
  exists new. split; [done|]. split.
  - by apply (grid_shape_same_lengths w h nxt).
  - intros y x Hy Hx. rewrite Hat, bool_decide_eq_true_2; [done|].
    by apply elem_of_iteration_space.
Qed.

(** ** The neighbour count *)

Lemma int_add_in_range a b :
  INT_MIN <= a + b <= INT_MAX -> int_add a b = Some (a + b).
Proof.
  intros H. unfold int_add, in_int.
  destruct (Z.leb_spec INT_MIN (a + b)); [|lia].
  destruct (Z.leb_spec (a + b) INT_MAX); [done|lia].
Qed.

Lemma wrap_index_ok i d n :
  0 <= i < n -> n < 2 ^ 30 -> -1 <= d <= 1 ->
  wrap_index i d n = Some ((i + d + n) mod n).
Proof.
  intros Hi Hn Hd. unfold wrap_index.
  assert (2 ^ 30 = 1073741824) as E30 by done.
  rewrite int_add_in_range by (unfold INT_MIN, INT_MAX; lia). simpl.
  rewrite int_add_in_range by (unfold INT_MIN, INT_MAX; lia). simpl.
  unfold int_rem. destruct (Z.eqb_spec n 0); [lia|].
  destruct (Z.eqb_spec n (-1)); [lia|]. rewrite andb_false_r.
  f_equal. apply Z.rem_mod_nonneg; lia.
Qed.

(** At [n = 2^30] the sum [i + 1 + n] of the last index leaves [int]. *)
Example wrap_index_beyond_bound : wrap_index (2 ^ 30 - 1) 1 (2 ^ 30) = None.
Proof. reflexivity. Qed.

Lemma cell_u8 (g : Grid) y x : cells_u8 g -> 0 <= cell g y x < 256.
Proof.
  intros Hu. unfold cell, grid_at.
  destruct (vec_at g y) as [row|] eqn:Hrow; simpl; [|lia].
  destruct (vec_at row x) as [c|] eqn:Hc; simpl; [|lia].
  apply vec_at_Some in Hrow as [_ Hrow]. apply vec_at_Some in Hc as [_ Hc].
  unfold cells_u8 in Hu. rewrite Forall_lookup in Hu.
  specialize (Hu _ _ Hrow). rewrite Forall_lookup in Hu. by apply (Hu _ _ Hc).
Qed.

Lemma cell_bit (g : Grid) y x : bit_valued g -> cell g y x = 0 \/ cell g y x = 1.
Proof.
  intros Hu. unfold cell, grid_at.
  destruct (vec_at g y) as [row|] eqn:Hrow; simpl; [|by left].
  destruct (vec_at row x) as [c|] eqn:Hc; simpl; [|by left].
  apply vec_at_Some in Hrow as [_ Hrow]. apply vec_at_Some in Hc as [_ Hc].
  unfold bit_valued in Hu. rewrite Forall_lookup in Hu.
  specialize (Hu _ _ Hrow). rewrite Forall_lookup in Hu. by apply (Hu _ _ Hc).
Qed.

Lemma bit_valued_u8 (g : Grid) : bit_valued g -> cells_u8 g.
Proof.
  unfold bit_valued, cells_u8. intros H.
  eapply Forall_impl; [exact H|]. intros row Hrow.
  eapply Forall_impl; [exact Hrow|]. simpl. lia.
Qed.

Lemma grid_at_cell w h (g : Grid) y x :
  grid_shape w h g -> 0 <= y < h -> 0 <= x < w ->
  grid_at g y x = Some (cell g y x).
Proof.
  intros Hs Hy Hx. unfold cell.
  destruct (proj2 (in_grid_shape w h g y x Hs) (conj Hy Hx)) as [c ->]. done.
Qed.

Section Count.
Variables (w h : Z) (g : Grid).
Hypothesis Hdims : dims_ok w h.
Hypothesis Hshape : grid_shape w h g.
Hypothesis Hu8 : cells_u8 g.

Lemma add_neighbor_ok y x dy cnt dx :
  0 <= y < h -> 0 <= x < w -> -1 <= dy <= 1 -> -1 <= dx <= 1 ->
  0 <= cnt <= 2000 ->
  add_neighbor w h g y x dy cnt dx =
  Some (cnt + if (dy =? 0) && (dx =? 0) then 0
              else cell g ((y + dy + h) mod h) ((x + dx + w) mod w)).
Proof.
  intros Hy Hx Hdy Hdx Hcnt. destruct Hdims as [Hw Hh]. unfold add_neighbor.
  destruct (Z.eqb_spec dy 0) as [->|Hy0], (Z.eqb_spec dx 0) as [->|Hx0];
    simpl; try (f_equal; lia).
  all: rewrite !wrap_index_ok by lia; simpl.
  all: rewrite (grid_at_cell w h) by (try done; apply Z.mod_pos_bound; lia).
  all: simpl; apply int_add_in_range.
  all: match goal with |- context [cell g ?a ?b] =>
         pose proof (cell_u8 g a b Hu8) end.
  all: unfold INT_MIN, INT_MAX; lia.
Qed.

Lemma neighbor_count_ok y x :
  0 <= y < h -> 0 <= x < w ->
  neighbor_count w h g y x = Some (count_spec w h g y x).
Proof.
  intros Hy Hx. unfold neighbor_count, for_range.
  change (seqZ (-1) (2 - -1)) with [-1; 0; 1].
  assert (forall a b, 0 <= cell g a b < 256) as Hc
    by (intros; by apply cell_u8).
  unfold count_spec, neighbor_offsets. cbn [for_each map foldr fst snd].
  repeat (rewrite add_neighbor_ok by
    (try done; try lia;
     repeat match goal with
       | |- context [cell g ?a ?b] =>
           lazymatch goal with
           | _ : 0 <= cell g a b < 256 |- _ => fail
           | _ => pose proof (Hc a b)
           end
       end; lia);
    cbn [mbind option_bind Z.eqb andb]).
  f_equal. lia.
Qed.
End Count.

Lemma count_spec_bits w h (g : Grid) y x :
  bit_valued g -> 0 <= count_spec w h g y x <= 8.
Proof.
  intros Hb. unfold count_spec, neighbor_offsets. cbn [map foldr fst snd].
  repeat match goal with
    | |- context [cell g ?a ?b] =>
        lazymatch goal with
        | _ : cell g a b = 0 \/ cell g a b = 1 |- _ => fail
        | _ => pose proof (cell_bit g a b Hb)
        end
    end.
  lia.
Qed.

Lemma count_spec_u8 w h (g : Grid) y x :
  cells_u8 g -> 0 <= count_spec w h g y x <= 2040.
Proof.
  intros Hb. unfold count_spec, neighbor_offsets. cbn [map foldr fst snd].
  repeat match goal with
    | |- context [cell g ?a ?b] =>
        lazymatch goal with
        | _ : 0 <= cell g a b < 256 |- _ => fail
        | _ => pose proof (cell_u8 g a b Hb)
        end
    end.
  lia.
Qed.

Lemma vec_at_entry (t : list Z) n :
  0 <= n < Z.of_nat (length t) -> vec_at t n = Some (entry t n).
Proof.
  intros Hn. unfold entry.
  destruct (proj2 (vec_at_is_Some t n) Hn) as [b ->]. done.
Qed.

(** ** The values the two kernels store *)

Section Next.
Variables (w h : Z) (cur : Grid).
Hypothesis Hdims : dims_ok w h.
Hypothesis Hshape : grid_shape w h cur.
Hypothesis Hu8 : cells_u8 cur.

Lemma conway_next_ok y x :
  0 <= y < h -> 0 <= x < w ->
  conway_next w h cur y x =
  Some ((count_spec w h cur y x =? 3) ||
        (negb (cell cur y x =? 0) && (count_spec w h cur y x =? 2))).
Proof.
  intros Hy Hx. unfold conway_next.
  rewrite (neighbor_count_ok w h cur) by done. simpl.
  unfold or_else. simpl. destruct (count_spec w h cur y x =? 3); [done|].
  rewrite (grid_at_cell w h) by done. simpl.
  by destruct (cell cur y x =? 0).
Qed.

Lemma table_next_ok B S y x :
  length B = 9%nat -> length S = 9%nat ->
  0 <= y < h -> 0 <= x < w ->
  count_spec w h cur y x <= 8 ->
  table_next w h B S cur y x =
  Some (rule_spec B S (negb (cell cur y x =? 0)) (count_spec w h cur y x)).
Proof.
  intros HB HS Hy Hx Hn. unfold table_next.
  rewrite (neighbor_count_ok w h cur) by done. simpl.
  rewrite (grid_at_cell w h) by done. simpl.
  pose proof (count_spec_u8 w h cur y x Hu8) as Hn0.
  unfold rule_spec.
  destruct (cell cur y x =? 0); simpl.
  - rewrite vec_at_entry by lia. simpl. unfold or_else. simpl.
    by destruct (entry B _ =? 0).
  - rewrite vec_at_entry by lia. done.
Qed.
End Next.

Lemma run_cells_ext next next' l nxt :
  (forall c, c ∈ l -> next c.1 c.2 = next' c.1 c.2) ->
  run_cells next l nxt = run_cells next' l nxt.
Proof.
  revert nxt. induction l as [|c l IH]; intros nxt Hext; [done|].
  unfold run_cells in *. simpl.
  assert (store_cell next nxt c.1 c.2 = store_cell next' nxt c.1 c.2) as ->.
  { unfold store_cell. by rewrite (Hext c) by left. }
  destruct (store_cell next' nxt c.1 c.2); simpl; [|done].
  apply IH. intros c' Hc'. apply Hext. by right.
Qed.

Lemma pass_ext w h next next' nxt :
  (forall y x, 0 <= y < h -> 0 <= x < w -> next y x = next' y x) ->
  pass w h next nxt = pass w h next' nxt.
Proof.
  intros Hext. rewrite !pass_run_cells. apply run_cells_ext.
  intros [y x] Hc. apply elem_of_iteration_space in Hc as [Hy Hx].
  by apply Hext.
Qed.

(** What one step yields on well-formed buffers, for any kernel whose
    values are defined: the new generation has the shape of the grid and
    holds the kernel's values, the old generation is handed back as [nxt]. *)
Lemma step_pass_spec w h next (cur nxt : Grid) :
  grid_shape w h nxt ->
  (forall y x, 0 <= y < h -> 0 <= x < w -> is_Some (next y x)) ->
  exists new, (nxt' ← pass w h next nxt; Some (nxt', cur)) = Some (new, cur) /\
    grid_shape w h new /\ bit_valued new /\
    forall y x, 0 <= y < h -> 0 <= x < w ->
      grid_at new y x = of_bool <$> next y x.
Proof.
  intros Hs Hnext.
  destruct (pass_spec w h next nxt Hs Hnext) as (new & -> & Hsn & Hat).
  exists new. split; [done|]. split; [done|]. split; [|done].
  apply (bits_from_lookup w h); [done|]. intros y x Hy Hx.
  rewrite Hat by done. destruct (Hnext y x Hy Hx) as [b ->]. by exists b.
Qed.

(** ** Interleavings and the static schedule *)

Lemma interleaving_skip {A : Type} (ts : list (list A)) l :
  interleaving ts l -> interleaving ([] :: ts) l.
Proof.
  induction 1 as [ts Hts|ts1 a t ts2 l _ IH].
  - constructor. by constructor.
  - apply (interleaving_next ([] :: ts1)). exact IH.
Qed.

Lemma interleaving_concat {A : Type} (ts : list (list A)) :
  interleaving ts (concat ts).
Proof.
  induction ts as [|t ts IH]; simpl.
  - by constructor.
  - induction t as [|a t IHt]; simpl.
    + by apply interleaving_skip.
    + by apply (interleaving_next []).
Qed.

Lemma interleaving_perm {A : Type} (ts : list (list A)) l :
  interleaving ts l -> concat ts ≡ₚ l.
Proof.
  induction 1 as [ts Hts|ts1 a t ts2 l _ IH].
  - induction Hts as [|t ts -> _ IH]; simpl; done.
  - rewrite concat_app in *. simpl in *.
    rewrite <- IH. symmetry. apply Permutation_middle.
Qed.

Lemma concat_split_chunks {A : Type} sizes (l : list A) :
  concat (split_chunks sizes l) = take (sum_list sizes) l.
Proof.
  revert l. induction sizes as [|k ks IH]; intros l; simpl.
  - by rewrite take_0.
  - by rewrite IH, take_take_drop.
Qed.

Lemma sum_static_sizes_aux q r k :
  sum_list (map (fun i => if (i <? r)%nat then S q else q) (seq 0 k)) =
  (k * q + Nat.min k r)%nat.
Proof.
  induction k as [|k IH]; [done|].
  rewrite seq_S, map_app, sum_list_with_app, IH. cbn [map sum_list_with]. unfold id.
  rewrite Nat.add_0_l. destruct (Nat.ltb_spec k r); lia.
Qed.

Lemma sum_static_sizes n T : (0 < T)%nat -> sum_list (static_sizes n T) = n.
Proof.
  intros HT. unfold static_sizes. rewrite sum_static_sizes_aux.
  pose proof (Nat.mod_upper_bound n T ltac:(lia)).
  pose proof (Nat.div_mod_eq n T). lia.
Qed.

Lemma concat_static_chunks {A : Type} T (l : list A) :
  (0 < T)%nat -> concat (static_chunks T l) = l.
Proof.
  intros HT. unfold static_chunks.
  rewrite concat_split_chunks, sum_static_sizes by done.
  by rewrite take_ge.
Qed.

(** ** The generation step *)

(** Shape and cell range of a grid given as a literal. *)
Ltac concrete_shape :=
  split; [reflexivity | repeat (constructor; try reflexivity)].
Ltac concrete_cells :=
  repeat (constructor; try lia; auto).

(** C1: on a grid of positive width and height with bit-valued cells and
    for any rule tables [B[0..8]], [S[0..8]], the step succeeds and, for
    every cell [(y, x)], the count [n] the code computes is the sum of the
    eight cells at [((y+dy+height)%height, (x+dx+width)%width)], [(dy, dx)]
    ranging over [{-1,0,1}^2] without [(0,0)], and [next[y][x]] receives
    [(not alive AND B[n]) OR (alive AND S[n])] with
    [alive = (current[y][x] != 0)].  The bound [2^30] on the dimensions
    keeps [y + dy + gHeight] inside [int]. *)
Theorem step_tables_cell_rule w h B S (cur nxt : Grid) :
  dims_ok w h -> grid_shape w h cur -> grid_shape w h nxt -> bit_valued cur ->
  length B = 9%nat -> length S = 9%nat ->
  exists new,
    step_tables w h B S cur nxt = Some (new, cur) /\
    forall y x, 0 <= y < h -> 0 <= x < w ->
      neighbor_count w h cur y x = Some (count_spec w h cur y x) /\
      grid_at new y x =
        Some (of_bool (rule_spec B S (negb (cell cur y x =? 0))
                         (count_spec w h cur y x))).
Proof.
  intros Hd Hc Hn Hb HB HS. pose proof (bit_valued_u8 cur Hb) as Hu.
  assert (forall y x, 0 <= y < h -> 0 <= x < w ->
            table_next w h B S cur y x =
            Some (rule_spec B S (negb (cell cur y x =? 0))
                    (count_spec w h cur y x))) as Hnext.
  { intros y x Hy Hx. apply table_next_ok; try done.
    by apply count_spec_bits. }
  destruct (step_pass_spec w h (table_next w h B S cur) cur nxt Hn)
    as (new & Hstep & _ & _ & Hat).
  { intros y x Hy Hx. rewrite Hnext by done. eauto. }
  exists new. split; [exact Hstep|]. intros y x Hy Hx. split.
  - by apply neighbor_count_ok.
  - by rewrite Hat, Hnext.
Qed.

Lemma step_tables_cell_rule_witness :
  exists new,
    step_tables 3 3 InvertAmaze.B InvertAmaze.S
      [[0; 1; 0]; [0; 1; 0]; [0; 1; 0]] [[0; 0; 0]; [0; 0; 0]; [0; 0; 0]]
    = Some (new, [[0; 1; 0]; [0; 1; 0]; [0; 1; 0]]) /\
    forall y x, 0 <= y < 3 -> 0 <= x < 3 ->
      neighbor_count 3 3 [[0; 1; 0]; [0; 1; 0]; [0; 1; 0]] y x =
        Some (count_spec 3 3 [[0; 1; 0]; [0; 1; 0]; [0; 1; 0]] y x) /\
      grid_at new y x =
        Some (of_bool (rule_spec InvertAmaze.B InvertAmaze.S
                (negb (cell [[0; 1; 0]; [0; 1; 0]; [0; 1; 0]] y x =? 0))
                (count_spec 3 3 [[0; 1; 0]; [0; 1; 0]; [0; 1; 0]] y x))).
Proof.
  apply step_tables_cell_rule.
  - unfold dims_ok. lia.
  - concrete_shape.
  - concrete_shape.
  - concrete_cells.
  - reflexivity.
  - reflexivity.
Defined.






(** In the strict reading the table driven step has no defined result on
    such input: with a cell of value 9 the count of a neighbouring dead
    cell is 9 and [B[9]] lies outside the table. *)
Lemma step_tables_nonbit_input_undefined :
  grid_shape 3 3 [[0; 0; 0]; [0; 9; 0]; [0; 0; 0]] /\
  grid_shape 3 3 [[0; 0; 0]; [0; 0; 0]; [0; 0; 0]] /\
  cells_u8 [[0; 0; 0]; [0; 9; 0]; [0; 0; 0]] /\
  neighbor_count 3 3 [[0; 0; 0]; [0; 9; 0]; [0; 0; 0]] 0 0 = Some 9 /\
  vec_at InvertAmaze.B 9 = None /\
  InvertAmaze.step 3 3 [[0; 0; 0]; [0; 9; 0]; [0; 0; 0]]
    [[0; 0; 0]; [0; 0; 0]; [0; 0; 0]] = None.
Proof.
  split; [concrete_shape|].
  split; [concrete_shape|].
  split; [concrete_cells|].
  split; [vm_compute; reflexivity|].
  split; vm_compute; reflexivity.
Qed.

(** ** Conway's rule against the default tables *)

Lemma grid_at_bit (g : Grid) y x c :
  bit_valued g -> grid_at g y x = Some c -> c = 0 \/ c = 1.
Proof.
  intros Hb Hc. pose proof (cell_bit g y x Hb) as H.
  unfold cell in H. by rewrite Hc in H.
Qed.

Lemma add_neighbor_bits w h (g : Grid) y x dy cnt dx cnt' :
  bit_valued g -> add_neighbor w h g y x dy cnt dx = Some cnt' ->
  cnt <= cnt' <= cnt + (if (dy =? 0) && (dx =? 0) then 0 else 1).
Proof.
  intros Hb. unfold add_neighbor.
  destruct (dy =? 0), (dx =? 0); simpl; try (intros [= <-]; lia).
  all: destruct (wrap_index y dy h) as [yy|]; simpl; [|done].
  all: destruct (wrap_index x dx w) as [xx|]; simpl; [|done].
  all: destruct (grid_at g yy xx) as [c|] eqn:Hc; simpl; [|done].
  all: apply (grid_at_bit g yy xx c Hb) in Hc.
  all: unfold int_add; destruct (in_int (cnt + c)); intros [= <-]; lia.
Qed.

Lemma neighbor_count_bits w h (g : Grid) y x n :
  bit_valued g -> neighbor_count w h g y x = Some n -> 0 <= n <= 8.
Proof.
  intros Hb. unfold neighbor_count, for_range.
  change (seqZ (-1) (2 - -1)) with [-1; 0; 1]. cbn [for_each].
  repeat match goal with
    | |- context [add_neighbor w h g y x ?dy ?cnt ?dx] =>
        let E := fresh "E" in
        destruct (add_neighbor w h g y x dy cnt dx) eqn:E;
        cbn [mbind option_bind]; [|done];
        apply (add_neighbor_bits w h g y x dy cnt dx _ Hb) in E;
        cbn [Z.eqb andb] in E
    end.
  intros [= <-]. lia.
Qed.

Lemma conway_table_next w h (cur : Grid) y x :
  grid_shape w h cur -> bit_valued cur -> 0 <= y < h -> 0 <= x < w ->
  conway_next w h cur y x = table_next w h default_B default_S cur y x.
Proof.
  intros Hs Hb Hy Hx. unfold conway_next, table_next.
  destruct (neighbor_count w h cur y x) as [n|] eqn:En; simpl; [|done].
  apply neighbor_count_bits in En; [|done].
  rewrite (grid_at_cell w h) by done. simpl.
  assert (n = 0 \/ n = 1 \/ n = 2 \/ n = 3 \/ n = 4 \/ n = 5 \/ n = 6 \/
          n = 7 \/ n = 8) as Hn by lia.
  destruct (cell cur y x =? 0);
    destruct Hn as [->|[->|[->|[->|[->|[->|[->|[->| ->]]]]]]]]; reflexivity.
Qed.

(** The rule of the default tables is Conway's rule as the specification
    words it. *)
Lemma rule_spec_default alive n :
  0 <= n <= 8 -> rule_spec default_B default_S alive n = conway_spec alive n.
Proof.
  intros Hn.
  assert (n = 0 \/ n = 1 \/ n = 2 \/ n = 3 \/ n = 4 \/ n = 5 \/ n = 6 \/
          n = 7 \/ n = 8) as H by lia.
  destruct alive;
    destruct H as [->|[->|[->|[->|[->|[->|[->|[->| ->]]]]]]]]; reflexivity.
Qed.

(** Whatever the interleaving, the threads produce the sequential result. *)
Lemma step_omp_deterministic w h B S (T : nat) (cur nxt : Grid) res :
  (0 < T)%nat ->
  step_omp w h B S T cur nxt res <-> res = step_tables w h B S cur nxt.
Proof.
  intros HT. unfold step_omp, step_tables. rewrite pass_run_cells. split.
  - intros (order & Hil & ->). apply interleaving_perm in Hil.
    rewrite concat_static_chunks in Hil by done.
    by rewrite (run_cells_perm _ _ _ nxt Hil).
  - intros ->. exists (concat (static_chunks T (iteration_space w h))).
    split; [apply interleaving_concat|].
    by rewrite concat_static_chunks.
Qed.

Lemma step_conway_default_tables w h (cur nxt : Grid) :
  grid_shape w h cur -> bit_valued cur ->
  step_conway w h cur nxt = step_tables w h default_B default_S cur nxt.
Proof.
  intros Hs Hb. unfold step_conway, step_tables.
  rewrite (pass_ext w h (conway_next w h cur)
             (table_next w h default_B default_S cur)); [done|].
  intros y x Hy Hx. by apply conway_table_next.
Qed.

(** C2: for any grid and rule tables, the loop run by [T] OpenMP threads
    under the static schedule produces, in whatever order the threads'
    iterations interleave, exactly what the single-threaded loop produces;
    and the step with Conway's rule written out,
    [next = (n==3) OR (cur AND n==2)], in the program with run-time
    dimensions and in the one with the constant 80 x 24 grid, equals the
    table driven step with the default tables Birth={3}, Survive={2,3} on
    every bit-valued grid. *)
Theorem step_strategies_agree w h B S (T : nat) (cur nxt : Grid) :
  (0 < T)%nat ->
  (forall res, step_omp w h B S T cur nxt res <->
               res = step_tables w h B S cur nxt) /\
  (forall res, InvertAmaze.step_parallel w h T cur nxt res <->
               res = InvertAmaze.step w h cur nxt) /\
  (grid_shape w h cur -> bit_valued cur ->
   DefaultSequential.step w h cur nxt =
   step_tables w h default_B default_S cur nxt) /\
  (grid_shape 80 24 cur -> bit_valued cur ->
   FixedSequential.step cur nxt =
   step_tables 80 24 default_B default_S cur nxt).
Proof.
  intros HT. split; [|split; [|split]].
  - intros res. by apply step_omp_deterministic.
  - intros res. by apply step_omp_deterministic.
  - apply step_conway_default_tables.
  - apply step_conway_default_tables.
Qed.

Lemma step_strategies_agree_witness :
  (forall res,
     step_omp 3 3 InvertAmaze.B InvertAmaze.S 4
       [[0; 1; 0]; [0; 1; 0]; [0; 1; 0]] [[0; 0; 0]; [0; 0; 0]; [0; 0; 0]] res <->
     res = step_tables 3 3 InvertAmaze.B InvertAmaze.S
             [[0; 1; 0]; [0; 1; 0]; [0; 1; 0]] [[0; 0; 0]; [0; 0; 0]; [0; 0; 0]]) /\
  DefaultSequential.step 3 3
    [[0; 1; 0]; [0; 1; 0]; [0; 1; 0]] [[0; 0; 0]; [0; 0; 0]; [0; 0; 0]] =
  step_tables 3 3 default_B default_S
    [[0; 1; 0]; [0; 1; 0]; [0; 1; 0]] [[0; 0; 0]; [0; 0; 0]; [0; 0; 0]].
Proof.
  destruct (step_strategies_agree 3 3 InvertAmaze.B InvertAmaze.S 4
              [[0; 1; 0]; [0; 1; 0]; [0; 1; 0]]
              [[0; 0; 0]; [0; 0; 0]; [0; 0; 0]]) as (Homp & _ & Hconway & _).
  - lia.
  - split; [exact Homp|]. apply Hconway; [concrete_shape|concrete_cells].
Defined.

(** C3: a step reads the cell values from [cur] alone and writes [nxt]
    alone.  One iteration changes the single cell [(y, x)] of [nxt]; the
    generation a step computes holds, cell by cell, a value of [cur] that
    does not depend on what [nxt] held before nor on the cells already
    written; and when the step returns the buffers have changed roles:
    the first holds the new generation, the second is the previous
    generation, unchanged. *)
Theorem step_frame w h (cur nxt : Grid) :
  dims_ok w h -> grid_shape w h cur -> grid_shape w h nxt -> cells_u8 cur ->
  (forall next g y x g', store_cell next g y x = Some g' ->
     forall y' x', ~ (y' = y /\ x' = x) -> grid_at g' y' x' = grid_at g y' x') /\
  (exists new,
     DefaultSequential.step w h cur nxt = Some (new, cur) /\
     (forall y x, 0 <= y < h -> 0 <= x < w ->
        grid_at new y x = of_bool <$> conway_next w h cur y x) /\
     (forall nxt2, grid_shape w h nxt2 ->
        DefaultSequential.step w h cur nxt2 = Some (new, cur)) /\
     (forall order, order ≡ₚ iteration_space w h ->
        run_cells (conway_next w h cur) order nxt = Some new)) /\
  (forall B S, length B = 9%nat -> length S = 9%nat -> bit_valued cur ->
   exists new,
     step_tables w h B S cur nxt = Some (new, cur) /\
     (forall y x, 0 <= y < h -> 0 <= x < w ->
        grid_at new y x = of_bool <$> table_next w h B S cur y x) /\
     (forall nxt2, grid_shape w h nxt2 ->
        step_tables w h B S cur nxt2 = Some (new, cur)) /\
     (forall order, order ≡ₚ iteration_space w h ->
        run_cells (table_next w h B S cur) order nxt = Some new)).
Proof.
  intros Hd Hc Hn Hu.
  assert (forall next,
    (forall y x, 0 <= y < h -> 0 <= x < w -> is_Some (next y x)) ->
    exists new,
      (nxt' ← pass w h next nxt; Some (nxt', cur)) = Some (new, cur) /\
      (forall y x, 0 <= y < h -> 0 <= x < w ->
         grid_at new y x = of_bool <$> next y x) /\
      (forall nxt2, grid_shape w h nxt2 ->
         (nxt' ← pass w h next nxt2; Some (nxt', cur)) = Some (new, cur)) /\
      (forall order, order ≡ₚ iteration_space w h ->
         run_cells next order nxt = Some new)) as Hgen.
  { intros next Hnext.
    destruct (step_pass_spec w h next cur nxt Hn Hnext)
      as (new & Hstep & Hs & _ & Hat).
    exists new. split; [done|]. split; [done|]. split.
    - intros nxt2 Hn2.
      destruct (step_pass_spec w h next cur nxt2 Hn2 Hnext)
        as (new2 & -> & Hs2 & _ & Hat2).
      do 2 f_equal. apply (grid_shape_ext w h); [done|done|].
      intros y x Hy Hx. by rewrite Hat, Hat2.
    - intros order Hp. rewrite (run_cells_perm next _ _ nxt Hp).
      rewrite <- pass_run_cells.
      by destruct (pass w h next nxt); simplify_eq/=. }
  split; [|split].
  - intros next g y x g'. unfold store_cell.
    destruct (next y x) as [v|]; simpl; [|done]. intros Hset y' x' Hne.
    destruct (grid_at g y x) eqn:Hin.
    + destruct (grid_set_Some g y x (of_bool v)) as (g1 & Hg1 & _ & Hat).
      { unfold in_grid. eauto. }
      rewrite Hset in Hg1. injection Hg1 as <-.
      by rewrite Hat, bool_decide_eq_false_2.
    + rewrite grid_set_None in Hset; [done|].
      unfold in_grid. rewrite Hin. by intros [? ?].
  - apply Hgen. intros y x Hy Hx.
    rewrite (conway_next_ok w h cur) by done. eauto.
  - intros B S HB HS Hb. apply Hgen. intros y x Hy Hx.
    rewrite (table_next_ok w h cur) by (try done; by apply count_spec_bits).
    eauto.
Qed.

Lemma step_frame_witness :
  (exists new,
     DefaultSequential.step 3 3 [[0; 1; 0]; [0; 1; 0]; [0; 1; 0]]
       [[1; 1; 1]; [0; 0; 0]; [1; 0; 1]]
     = Some (new, [[0; 1; 0]; [0; 1; 0]; [0; 1; 0]]) /\
     forall nxt2, grid_shape 3 3 nxt2 ->
       DefaultSequential.step 3 3 [[0; 1; 0]; [0; 1; 0]; [0; 1; 0]] nxt2
       = Some (new, [[0; 1; 0]; [0; 1; 0]; [0; 1; 0]])) /\
  (exists new,
     step_tables 3 3 InvertAmaze.B InvertAmaze.S
       [[0; 1; 0]; [0; 1; 0]; [0; 1; 0]] [[1; 1; 1]; [0; 0; 0]; [1; 0; 1]]
     = Some (new, [[0; 1; 0]; [0; 1; 0]; [0; 1; 0]]) /\
     forall nxt2, grid_shape 3 3 nxt2 ->
       step_tables 3 3 InvertAmaze.B InvertAmaze.S
         [[0; 1; 0]; [0; 1; 0]; [0; 1; 0]] nxt2
       = Some (new, [[0; 1; 0]; [0; 1; 0]; [0; 1; 0]])).
Proof.
  destruct (step_frame 3 3 [[0; 1; 0]; [0; 1; 0]; [0; 1; 0]]
              [[1; 1; 1]; [0; 0; 0]; [1; 0; 1]])
    as (_ & (new & Hstep & _ & Hany & _) & Htables).
  - unfold dims_ok. lia.
  - concrete_shape.
  - concrete_shape.
  - concrete_cells.
  - split; [by exists new|].
    destruct (Htables InvertAmaze.B InvertAmaze.S)
      as (new' & Hstep' & _ & Hany' & _);
      [reflexivity|reflexivity|concrete_cells|].
    by exists new'.
Defined.

(** ** The torus *)

Lemma wrap_mod_pred n : 0 < n -> (0 + -1 + n) mod n = n - 1.
Proof.
  intros Hn. replace (0 + -1 + n) with (n - 1) by lia.
  apply Z.mod_small. lia.
Qed.

Lemma wrap_mod_succ n : 0 < n -> (n - 1 + 1 + n) mod n = 0.
Proof.
  intros Hn. replace (n - 1 + 1 + n) with (0 + 2 * n) by lia.
  rewrite Z_mod_plus_full. apply Z.mod_0_l. lia.
Qed.

Lemma wrap_mod_same i n : 0 <= i < n -> (i + 0 + n) mod n = i.
Proof.
  intros Hi. replace (i + 0 + n) with (i + 1 * n) by lia.
  rewrite Z_mod_plus_full. apply Z.mod_small. lia.
Qed.

(** Every cell at one of the eight wrapped offsets is a summand of the
    count, and the count grows when it comes alive. *)
Lemma neighbor_counted w h (g : Grid) y x d y' x' :
  dims_ok w h -> grid_shape w h g -> cells_u8 g ->
  0 <= y < h -> 0 <= x < w -> d ∈ neighbor_offsets ->
  y' = (y + d.1 + h) mod h -> x' = (x + d.2 + w) mod w ->
  neighbor_of w h g y x d y' x'.
Proof.
  intros Hd Hs Hu Hy Hx Hin -> ->. split; [split; [done|]|].
  - rewrite (neighbor_count_ok w h g) by done. f_equal.
    unfold neighbor_offsets in Hin.
    repeat (apply elem_of_cons in Hin as [->|Hin];
            [cbv [count_spec other_neighbors neighbor_offsets List.filter
                    negb andb fst snd Z.eqb Pos.eqb map foldr]; lia|]).
    by apply elem_of_nil in Hin.
  - intros g' Hs' Hu' (Hdead & Hlive & Hsame).
    exists (count_spec w h g y x), (count_spec w h g' y x).
    split; [by apply neighbor_count_ok|]. split; [by apply neighbor_count_ok|].
    assert (forall a b, cell g a b <= cell g' a b) as Hle.
    { intros a b.
      destruct (decide (a = (y + d.1 + h) mod h)) as [->|Ha];
        [destruct (decide (b = (x + d.2 + w) mod w)) as [->|Hb]|].
      - lia.
      - rewrite Hsame by auto. lia.
      - rewrite Hsame by auto. lia. }
    unfold neighbor_offsets in Hin. unfold count_spec, neighbor_offsets.
    cbn [map foldr fst snd].
    repeat match goal with
      | |- context [cell g ?a ?b] =>
          lazymatch goal with
          | _ : cell g a b <= cell g' a b |- _ => fail
          | _ => pose proof (Hle a b)
          end
      end.
    repeat (apply elem_of_cons in Hin as [->|Hin];
            [cbn [fst snd] in Hdead, Hlive; lia|]).
    by apply elem_of_nil in Hin.
Qed.

(** C4: neighbour counting is toroidal.  On any grid of positive
    dimensions the cell [(0, 0)] counts the cell [(height-1, width-1)] as a
    neighbour: the count of [(0, 0)] is that cell (the summand of the
    offset [(-1, -1)]) plus the cells at the seven other offsets, so a live
    cell there makes the count at least 1, and making the cell alive makes
    the count larger.  The wrap holds alike in the four directions: a cell
    of the top row counts the cell of the bottom row in its column, a cell
    of the bottom row the one of the top row, a cell of the left column the
    one of the right column in its row, and a cell of the right column the
    one of the left column. *)
Theorem neighbor_count_toroidal w h (g : Grid) :
  dims_ok w h -> grid_shape w h g -> cells_u8 g ->
  neighbor_of w h g 0 0 (-1, -1) (h - 1) (w - 1) /\
  (cell g (h - 1) (w - 1) <> 0 ->
   exists n, neighbor_count w h g 0 0 = Some n /\ 1 <= n) /\
  (forall x, 0 <= x < w -> neighbor_of w h g 0 x (-1, 0) (h - 1) x) /\
  (forall x, 0 <= x < w -> neighbor_of w h g (h - 1) x (1, 0) 0 x) /\
  (forall y, 0 <= y < h -> neighbor_of w h g y 0 (0, -1) y (w - 1)) /\
  (forall y, 0 <= y < h -> neighbor_of w h g y (w - 1) (0, 1) y 0).
Proof.
  intros Hd Hs Hu. pose proof Hd as [Hw Hh].
  assert (forall d : Z * Z, In d neighbor_offsets -> d ∈ neighbor_offsets) as Hin
    by (intros d; apply list_elem_of_In).
  assert (neighbor_of w h g 0 0 (-1, -1) (h - 1) (w - 1)) as Hdiag.
  { apply neighbor_counted; try done; try lia.
    - apply Hin; simpl; tauto.
    - cbn [fst]. by rewrite wrap_mod_pred by lia.
    - cbn [snd]. by rewrite wrap_mod_pred by lia. }
  split; [exact Hdiag|]. split; [|split; [|split; [|split]]].
  - intros Hlive. destruct Hdiag as [[_ Hn] _].
    eexists. split; [exact Hn|].
    pose proof (cell_u8 g (h - 1) (w - 1) Hu).
    assert (0 <= other_neighbors w h g 0 0 (-1, -1)); [|lia].
    cbv [other_neighbors neighbor_offsets List.filter
           negb andb fst snd Z.eqb Pos.eqb map foldr].
    repeat match goal with
      | |- context [cell g ?a ?b] =>
          lazymatch goal with
          | _ : 0 <= cell g a b < 256 |- _ => fail
          | _ => pose proof (cell_u8 g a b Hu)
          end
      end.
    lia.
  - intros x Hx. apply neighbor_counted; try done; try lia.
    + apply Hin; simpl; tauto.
    + cbn [fst]. by rewrite wrap_mod_pred by lia.
    + cbn [snd]. by rewrite wrap_mod_same by lia.
  - intros x Hx. apply neighbor_counted; try done; try lia.
    + apply Hin; simpl; tauto.
    + cbn [fst]. by rewrite wrap_mod_succ by lia.
    + cbn [snd]. by rewrite wrap_mod_same by lia.
  - intros y Hy. apply neighbor_counted; try done; try lia.
    + apply Hin; simpl; tauto.
    + cbn [fst]. by rewrite wrap_mod_same by lia.
    + cbn [snd]. by rewrite wrap_mod_pred by lia.
  - intros y Hy. apply neighbor_counted; try done; try lia.
    + apply Hin; simpl; tauto.
    + cbn [fst]. by rewrite wrap_mod_same by lia.
    + cbn [snd]. by rewrite wrap_mod_succ by lia.
Qed.

Lemma neighbor_count_toroidal_witness :
  neighbor_count 4 3 [[1; 0; 0; 0]; [0; 0; 0; 0]; [0; 0; 0; 1]] 0 0 =
    Some (cell [[1; 0; 0; 0]; [0; 0; 0; 0]; [0; 0; 0; 1]] 2 3 +
          other_neighbors 4 3 [[1; 0; 0; 0]; [0; 0; 0; 0]; [0; 0; 0; 1]]
            0 0 (-1, -1)) /\
  (exists n, neighbor_count 4 3 [[1; 0; 0; 0]; [0; 0; 0; 0]; [0; 0; 0; 1]] 0 0
             = Some n /\ 1 <= n) /\
  (exists n n',
     neighbor_count 4 3 [[1; 0; 0; 0]; [0; 0; 0; 0]; [0; 0; 0; 0]] 0 0 = Some n /\
     neighbor_count 4 3 [[1; 0; 0; 0]; [0; 0; 0; 0]; [0; 0; 0; 1]] 0 0 = Some n' /\
     n < n').
Proof.
  destruct (neighbor_count_toroidal 4 3
              [[1; 0; 0; 0]; [0; 0; 0; 0]; [0; 0; 0; 1]])
    as ([[_ Hsum] _] & Hlive & _).
  { unfold dims_ok. lia. }
  { concrete_shape. }
  { concrete_cells. }
  destruct (neighbor_count_toroidal 4 3
              [[1; 0; 0; 0]; [0; 0; 0; 0]; [0; 0; 0; 0]])
    as ([_ Hgrow] & _).
  { unfold dims_ok. lia. }
  { concrete_shape. }
  { concrete_cells. }
  split; [exact Hsum|]. split.
  - apply Hlive. vm_compute. discriminate.
  - apply (Hgrow [[1; 0; 0; 0]; [0; 0; 0; 0]; [0; 0; 0; 1]]).
    + concrete_shape.
    + concrete_cells.
    + split; [reflexivity|]. split; [reflexivity|].
      intros a b Hab. unfold cell, grid_at, vec_at.
      destruct (Z.ltb_spec a 0); [done|].
      destruct (Z.to_nat a) as [|[|[|k]]] eqn:Ea; cbn [lookup list_lookup mbind option_bind];
        try done.
      destruct (Z.ltb_spec b 0); [done|].
      destruct (Z.to_nat b) as [|[|[|[|j]]]] eqn:Eb; try done.
      lia.
Defined.

(** ** The 2 x 2 block *)

Lemma mod_shift i d b n :
  0 < n -> ((i + d + n) mod n - b) mod n = ((i - b) mod n + d) mod n.
Proof.
  intros Hn. rewrite Zminus_mod_idemp_l, Zplus_mod_idemp_l.
  replace (i + d + n - b) with (i - b + d + 1 * n) by lia.
  apply Z_mod_plus_full.
Qed.

(** Where a row (or column) lies relative to the block decides which of
    the three rows around it meet the block. *)
Lemma block_patterns k n :
  4 <= n -> 0 <= k < n ->
  exists a b c,
    ((k + -1) mod n <? 2) = a /\ ((k + 0) mod n <? 2) = b /\ (k <? 2) = b /\
    ((k + 1) mod n <? 2) = c /\
    ((a, b, c) = (false, true, true) \/ (a, b, c) = (true, true, false) \/
     (a, b, c) = (true, false, false) \/ (a, b, c) = (false, false, true) \/
     (a, b, c) = (false, false, false)).
Proof.
  intros Hn Hk.
  exists ((k + -1) mod n <? 2), (k <? 2), ((k + 1) mod n <? 2).
  split; [done|]. split; [by rewrite Z.add_0_r, Z.mod_small by lia|].
  split; [done|]. split; [done|].
  assert ((k + -1) mod n = if k =? 0 then n - 1 else k - 1) as ->.
  { destruct (Z.eqb_spec k 0) as [->|Hk0].
    - replace (0 + -1) with (n - 1 + -1 * n) by lia.
      rewrite Z_mod_plus_full. apply Z.mod_small. lia.
    - replace (k + -1) with (k - 1) by lia. apply Z.mod_small. lia. }
  assert ((k + 1) mod n = if k =? n - 1 then 0 else k + 1) as ->.
  { destruct (Z.eqb_spec k (n - 1)) as [->|Hk1].
    - replace (n - 1 + 1) with (0 + 1 * n) by lia.
      rewrite Z_mod_plus_full. apply Z.mod_0_l. lia.
    - apply Z.mod_small. lia. }
  destruct (Z.eqb_spec k 0), (Z.eqb_spec k (n - 1));
    repeat match goal with
      | |- context [?a <? ?b] => destruct (Z.ltb_spec a b)
      end; try lia; auto 10.
Qed.

Section Block.
Variables (w h by_ bx : Z) (g : Grid).
Hypothesis Hw : 4 <= w < 2 ^ 30.
Hypothesis Hh : 4 <= h < 2 ^ 30.
Hypothesis Hby : 0 <= by_ < h.
Hypothesis Hbx : 0 <= bx < w.
Hypothesis Hblock : block_grid w h by_ bx g.

Lemma block_dims_ok : dims_ok w h.
Proof. unfold dims_ok. lia. Qed.

Lemma block_bit_valued : bit_valued g.
Proof.
  destruct Hblock as [Hs Hat]. apply (bits_from_lookup w h); [done|].
  intros y x Hy Hx. rewrite Hat by done. eauto.
Qed.

Lemma block_cell y x :
  0 <= y < h -> 0 <= x < w ->
  cell g y x = of_bool (in_block w h by_ bx y x).
Proof.
  intros Hy Hx. destruct Hblock as [_ Hat]. unfold cell.
  by rewrite Hat.
Qed.

(** A cell of the block has three live neighbours, a cell outside has
    at most two: nothing changes. *)
Lemma block_conway_next y x :
  0 <= y < h -> 0 <= x < w ->
  conway_next w h g y x = Some (in_block w h by_ bx y x).
Proof.
  intros Hy Hx. destruct Hblock as [Hs Hat].
  rewrite (conway_next_ok w h g block_dims_ok Hs
             (bit_valued_u8 g block_bit_valued)) by done.
  f_equal. unfold count_spec, neighbor_offsets. cbn [map foldr fst snd].
  rewrite !block_cell by (try done; apply Z.mod_pos_bound; lia).
  unfold in_block. rewrite !mod_shift by lia.
  destruct (block_patterns ((y - by_) mod h) h) as
    (a & b & c & -> & -> & -> & -> & Hrow);
    [lia|apply Z.mod_pos_bound; lia|].
  destruct (block_patterns ((x - bx) mod w) w) as
    (a' & b' & c' & -> & -> & -> & -> & Hcol);
    [lia|apply Z.mod_pos_bound; lia|].
  destruct Hrow as [E|[E|[E|[E|E]]]]; injection E as -> -> ->;
    destruct Hcol as [E|[E|[E|[E|E]]]]; injection E as -> -> ->;
    reflexivity.
Qed.

Lemma block_step nxt :
  grid_shape w h nxt -> step_conway w h g nxt = Some (g, g).
Proof.
  intros Hn.
  destruct (step_pass_spec w h (conway_next w h g) g nxt Hn)
    as (new & Hstep & Hs & _ & Hat).
  { intros y x Hy Hx. rewrite block_conway_next by done. eauto. }
  unfold step_conway. rewrite Hstep. do 2 f_equal.
  destruct Hblock as [Hsg Hatg].
  apply (grid_shape_ext w h); [done|done|]. intros y x Hy Hx.
  by rewrite Hat, Hatg, block_conway_next.
Qed.

Lemma block_run n : forall nxt,
  grid_shape w h nxt ->
  exists nxt', run_steps (step_conway w h) n g nxt = Some (g, nxt').
Proof.
  induction n as [|n IH]; intros nxt Hn; simpl.
  - eauto.
  - rewrite block_step by done. simpl. apply IH. by destruct Hblock.
Qed.
End Block.

(** C8: under the default rule a 2 x 2 block of live cells on an otherwise
    dead grid of width and height at least 4 is a still life: one step
    leaves the grid as it is, for the step with Conway's rule written out
    and for the table driven step with Birth={3}, Survive={2,3}, and so
    does any number of steps.  The block may lie anywhere on the torus,
    also across an edge. *)
Theorem block_still_life w h by_ bx (g nxt : Grid) (n : nat) :
  4 <= w < 2 ^ 30 -> 4 <= h < 2 ^ 30 -> 0 <= by_ < h -> 0 <= bx < w ->
  block_grid w h by_ bx g -> grid_shape w h nxt ->
  DefaultSequential.step w h g nxt = Some (g, g) /\
  step_tables w h default_B default_S g nxt = Some (g, g) /\
  exists nxt', run_steps (DefaultSequential.step w h) n g nxt = Some (g, nxt').
Proof.
  intros Hw Hh Hby Hbx Hblock Hn. split; [|split].
  - by apply (block_step w h by_ bx).
  - unfold step_tables.
    rewrite <- (pass_ext w h (conway_next w h g)).
    + by apply (block_step w h by_ bx).
    + intros y x Hy Hx. apply conway_table_next; try done.
      * by destruct Hblock.
      * by apply (block_bit_valued w h by_ bx).
  - by apply (block_run w h by_ bx).
Qed.

Lemma block_still_life_witness :
  DefaultSequential.step 4 4
    [[0; 0; 0; 0]; [0; 1; 1; 0]; [0; 1; 1; 0]; [0; 0; 0; 0]]
    [[0; 0; 0; 0]; [0; 0; 0; 0]; [0; 0; 0; 0]; [0; 0; 0; 0]] =
  Some ([[0; 0; 0; 0]; [0; 1; 1; 0]; [0; 1; 1; 0]; [0; 0; 0; 0]],
        [[0; 0; 0; 0]; [0; 1; 1; 0]; [0; 1; 1; 0]; [0; 0; 0; 0]]) /\
  step_tables 4 4 default_B default_S
    [[0; 0; 0; 0]; [0; 1; 1; 0]; [0; 1; 1; 0]; [0; 0; 0; 0]]
    [[0; 0; 0; 0]; [0; 0; 0; 0]; [0; 0; 0; 0]; [0; 0; 0; 0]] =
  Some ([[0; 0; 0; 0]; [0; 1; 1; 0]; [0; 1; 1; 0]; [0; 0; 0; 0]],
        [[0; 0; 0; 0]; [0; 1; 1; 0]; [0; 1; 1; 0]; [0; 0; 0; 0]]) /\
  exists nxt',
    run_steps (DefaultSequential.step 4 4) 5
      [[0; 0; 0; 0]; [0; 1; 1; 0]; [0; 1; 1; 0]; [0; 0; 0; 0]]
      [[0; 0; 0; 0]; [0; 0; 0; 0]; [0; 0; 0; 0]; [0; 0; 0; 0]] =
    Some ([[0; 0; 0; 0]; [0; 1; 1; 0]; [0; 1; 1; 0]; [0; 0; 0; 0]], nxt').
Proof.
  apply (block_still_life 4 4 1 1); try lia.
  - split; [concrete_shape|]. intros y x Hy Hx.
    assert (y = 0 \/ y = 1 \/ y = 2 \/ y = 3) as [->|[->|[->| ->]]] by lia;
      (assert (x = 0 \/ x = 1 \/ x = 2 \/ x = 3) as [->|[->|[->| ->]]] by lia);
      reflexivity.
  - concrete_shape.
Defined.

(** ** The rulestring parser *)

Lemma strip_rule_filter rule : strip_rule rule = List.filter kept rule.
Proof.
  unfold strip_rule.
  assert (forall acc, foldl (fun r c =>
            if negb (bool_decide (c = " "%char)) && negb (bool_decide (c = ","%char))
            then r ++ [c] else r) acc rule = acc ++ List.filter kept rule) as H.
  { induction rule as [|c rule IH]; intros acc; simpl.
    - by rewrite app_nil_r.
    - rewrite IH. unfold kept. destruct (_ && _); [|done].
      by rewrite <- app_assoc. }
  apply H.
Qed.

Lemma parse_rulestring_strip rule rule' :
  strip_rule rule = strip_rule rule' ->
  parse_rulestring rule = parse_rulestring rule'.
Proof. intros E. unfold parse_rulestring. by rewrite E. Qed.

Lemma filter_kept_idemp rule :
  List.filter kept (List.filter kept rule) = List.filter kept rule.
Proof.
  induction rule as [|c rule IH]; simpl; [done|].
  destruct (kept c) eqn:E; simpl; [|done]. by rewrite E, IH.
Qed.

Lemma find_first_of_None r set :
  Forall (fun c => c ∉ set) r -> find_first_of r set = None.
Proof.
  induction 1 as [|c r Hc _ IH]; simpl; [done|].
  by rewrite bool_decide_eq_false_2, IH.
Qed.

Lemma parse_rulestring_no_marker rule :
  Forall (fun c => c ∉ lit "BbSs") rule ->
  parse_rulestring rule = (default_rule, []).
Proof.
  intros Hno. unfold parse_rulestring.
  assert (Forall (fun c => c ∉ lit "BbSs") (strip_rule rule)) as Hr.
  { rewrite strip_rule_filter. apply Forall_forall. intros c Hc.
    apply list_elem_of_In, filter_In in Hc as [Hc _].
    rewrite Forall_forall in Hno. by apply Hno, list_elem_of_In. }
  rewrite !find_first_of_None; [done| |].
  - eapply Forall_impl; [exact Hr|]. intros c Hc Hin. apply Hc.
    apply list_elem_of_In in Hin. apply list_elem_of_In. simpl in *. tauto.
  - eapply Forall_impl; [exact Hr|]. intros c Hc Hin. apply Hc.
    apply list_elem_of_In in Hin. apply list_elem_of_In. simpl in *. tauto.
Qed.

(** C5: [parse("")] and [parse("B3/S23")] yield the same tables, Birth={3}
    and Survive={2,3} with every other entry 0, and no diagnostic; these
    tables are the rule "a live cell survives with 2 or 3 live neighbours,
    a dead cell is born with exactly 3"; and whenever the text holds
    neither a B nor an S marker the parser returns this default rule. *)
Theorem parse_default_rule :
  parse_rulestring (lit "") = (default_rule, []) /\
  parse_rulestring (lit "B3/S23") = (default_rule, []) /\
  Rules.B default_rule = [0; 0; 0; 1; 0; 0; 0; 0; 0] /\
  Rules.S default_rule = [0; 0; 1; 1; 0; 0; 0; 0; 0] /\
  (forall alive n, 0 <= n <= 8 ->
     rule_spec (Rules.B default_rule) (Rules.S default_rule) alive n =
     conway_spec alive n) /\
  forall rule, Forall (fun c => c ∉ lit "BbSs") rule ->
    parse_rulestring rule = (default_rule, []).
Proof.
  split; [reflexivity|]. split; [reflexivity|].
  split; [reflexivity|]. split; [reflexivity|].
  split; [apply rule_spec_default|].
  apply parse_rulestring_no_marker.
Qed.

Lemma parse_default_rule_witness :
  parse_rulestring (lit "3/23") = (default_rule, []).
Proof.
  apply parse_default_rule.
  apply (bool_decide_unpack (Forall (fun c => c ∉ lit "BbSs") (lit "3/23"))).
  vm_compute. exact I.
Defined.

(** *** The scan of a section *)

Lemma fill_char_invalid st c :
  invalidChars (fill_char st c) =
  if invalid_digit c then add_seen (invalidChars st) c else invalidChars st.
Proof.
  unfold fill_char, invalid_digit, isdigit, add_seen.
  destruct (code "0" <=? code c) eqn:E0; simpl; [|done].
  destruct (code c <=? code "8") eqn:E8; simpl.
  - by rewrite andb_false_r.
  - destruct (code c <=? code "9"); simpl; done.
Qed.

Lemma fill_char_found st c :
  (invalidFound st = true <-> invalidChars st <> []) ->
  (invalidFound (fill_char st c) = true <-> invalidChars (fill_char st c) <> []).
Proof.
  intros Hinv. unfold fill_char.
  assert ((if bool_decide (c ∈ invalidChars st) then invalidChars st
           else invalidChars st ++ [c]) <> []) as Hne.
  { case_bool_decide as Hc.
    - intros E. rewrite E in Hc. by apply elem_of_nil in Hc.
    - intros E. by apply app_nil in E as [_ ?]. }
  repeat match goal with
    | |- context [if ?b then _ else _] =>
        lazymatch b with
        | bool_decide _ => fail
        | _ => destruct b
        end
    end; simpl; tauto.
Qed.

Lemma fill_char_table st c :
  table_ok (arr st) -> table_ok (arr (fill_char st c)).
Proof.
  intros [Hlen Hbits]. unfold fill_char.
  repeat match goal with
    | |- context [if ?b then _ else _] =>
        lazymatch b with
        | bool_decide _ => fail
        | _ => destruct b
        end
    end; simpl; try done.
  split; [by rewrite length_insert|].
  apply Forall_insert; auto.
Qed.

Lemma fill_loop_invalid s : forall st,
  invalidChars (fill_loop s st) =
  foldl add_seen (invalidChars st) (List.filter invalid_digit (until_marker s)).
Proof.
  induction s as [|c s IH]; intros st; simpl; [done|].
  destruct (is_marker c); simpl; [done|].
  rewrite IH, fill_char_invalid. by destruct (invalid_digit c).
Qed.

Lemma fill_loop_found s : forall st,
  (invalidFound st = true <-> invalidChars st <> []) ->
  (invalidFound (fill_loop s st) = true <-> invalidChars (fill_loop s st) <> []).
Proof.
  induction s as [|c s IH]; intros st Hinv; simpl; [done|].
  destruct (is_marker c); [done|]. by apply IH, fill_char_found.
Qed.

Lemma fill_loop_table s : forall st,
  table_ok (arr st) -> table_ok (arr (fill_loop s st)).
Proof.
  induction s as [|c s IH]; intros st Hok; simpl; [done|].
  destruct (is_marker c); [done|]. by apply IH, fill_char_table.
Qed.

Lemma add_seen_NoDup acc c : NoDup acc -> NoDup (add_seen acc c).
Proof.
  intros Hnd. unfold add_seen. case_bool_decide as Hc; [done|].
  apply NoDup_app. split; [done|]. split.
  - intros x Hx Hx'. apply list_elem_of_singleton in Hx'. by subst.
  - apply NoDup_singleton.
Qed.

Lemma first_seen_NoDup cs : NoDup (first_seen cs).
Proof.
  unfold first_seen.
  assert (forall acc, NoDup acc -> NoDup (foldl add_seen acc cs)) as H.
  { induction cs as [|c cs IH]; intros acc Hacc; simpl; [done|].
    by apply IH, add_seen_NoDup. }
  apply H, NoDup_nil_2.
Qed.

Ltac concrete_table :=
  split; [done|]; cbv [zero_table replicate];
  repeat (apply Forall_cons; split; [auto|]); constructor.

Lemma zero_table_ok : table_ok zero_table.
Proof. concrete_table. Qed.

Lemma default_B_ok : table_ok default_B.
Proof. concrete_table. Qed.

Lemma default_S_ok : table_ok default_S.
Proof. concrete_table. Qed.

(** The parser in terms of the scanned sections. *)
Lemma parse_rulestring_spec rule :
  table_ok (Rules.B (parse_rulestring rule).1) /\
  table_ok (Rules.S (parse_rulestring rule).1) /\
  (parse_rulestring rule).2 =
    match first_seen (List.filter invalid_digit (scanned rule)) with
    | [] => []
    | cs => warning cs
    end.
Proof.
  unfold parse_rulestring, scanned.
  set (r := strip_rule rule).
  set (st0 := {| arr := zero_table; invalidFound := false; invalidChars := [] |}).
  assert (invalidFound st0 = true <-> invalidChars st0 <> []) as H0 by done.
  destruct (find_first_of r (lit "Bb")) as [pB|] eqn:EB;
    destruct (find_first_of r (lit "Ss")) as [pS|] eqn:ES; cbn [fst snd].
  4: { split; [exact default_B_ok|]. split; [exact default_S_ok|done]. }
  all: unfold fillDigits; cbn [section_after Rules.B Rules.S].
  all: rewrite ?List.filter_app, ?app_nil_r; unfold first_seen;
       rewrite ?foldl_app.
  - set (stB := fill_loop (drop (pB + 1) r) st0).
    set (st1 := {| arr := zero_table; invalidFound := invalidFound stB;
                   invalidChars := invalidChars stB |}).
    assert (invalidFound stB = true <-> invalidChars stB <> []) as HB
      by (by apply fill_loop_found).
    assert (invalidFound st1 = true <-> invalidChars st1 <> []) as H1 by done.
    pose proof (fill_loop_found (drop (pS + 1) r) st1 H1) as HS.
    split; [by apply fill_loop_table, zero_table_ok|].
    split; [by apply fill_loop_table, zero_table_ok|].
    pose proof (fill_loop_invalid (drop (pB + 1) r) st0) as EB'.
    pose proof (fill_loop_invalid (drop (pS + 1) r) st1) as ES'.
    cbn [invalidChars st0 st1] in EB', ES'. fold stB in EB'.
    rewrite <- EB', <- ES'.
    destruct (invalidFound (fill_loop _ st1)) eqn:Ef,
      (invalidChars (fill_loop _ st1)) eqn:Ec; try done.
    + by destruct (proj1 HS eq_refl).
    + by destruct HS as [_ HS]; discriminate HS.
  - set (stB := fill_loop (drop (pB + 1) r) st0).
    assert (invalidFound stB = true <-> invalidChars stB <> []) as HB
      by (by apply fill_loop_found).
    split; [by apply fill_loop_table, zero_table_ok|].
    split; [apply zero_table_ok|]. cbn [invalidFound invalidChars].
    pose proof (fill_loop_invalid (drop (pB + 1) r) st0) as EB'.
    cbn [invalidChars st0] in EB'. fold stB in EB'. rewrite <- EB'.
    destruct (invalidFound stB) eqn:Ef, (invalidChars stB) eqn:Ec; try done.
    + by destruct (proj1 HB eq_refl).
    + by destruct HB as [_ HB]; discriminate HB.
  - pose proof (fill_loop_found (drop (pS + 1) r) st0 H0) as HS.
    split; [apply zero_table_ok|].
    split; [by apply fill_loop_table, zero_table_ok|].
    cbn [invalidFound invalidChars].
    pose proof (fill_loop_invalid (drop (pS + 1) r) st0) as ES'.
    change (invalidChars st0) with (@nil ascii) in ES'.
    change {| arr := zero_table; invalidFound := invalidFound st0;
              invalidChars := invalidChars st0 |} with st0.
    cbn [List.filter foldl]. rewrite <- ES'.
    destruct (invalidFound (fill_loop _ st0)) eqn:Ef,
      (invalidChars (fill_loop _ st0)) eqn:Ec; try done.
    + by destruct (proj1 HS eq_refl).
    + by destruct HS as [_ HS]; discriminate HS.
Qed.

Lemma fill_char_invalid_table st c :
  invalid_digit c = true -> arr (fill_char st c) = arr st.
Proof.
  unfold invalid_digit, isdigit, fill_char.
  destruct (code "0" <=? code c); simpl; [|done].
  destruct (code c <=? code "8"); simpl; [by rewrite andb_false_r|].
  by destruct (code c <=? code "9").
Qed.

Lemma invalid_digit_nine c : invalid_digit c = true -> c = "9"%char.
Proof.
  destruct c as [[] [] [] [] [] [] [] []]; (reflexivity || discriminate).
Qed.

Lemma first_seen_elem cs c : c ∈ first_seen cs -> c ∈ cs.
Proof.
  unfold first_seen.
  assert (forall acc, c ∈ foldl add_seen acc cs -> c ∈ acc \/ c ∈ cs) as H.
  { induction cs as [|c' cs IH]; intros acc Hc; simpl in Hc; [by left|].
    apply IH in Hc as [Hc|Hc]; [|right; by right].
    unfold add_seen in Hc. case_bool_decide; [by left|].
    apply elem_of_app in Hc as [Hc|Hc]; [by left|].
    apply list_elem_of_singleton in Hc as ->. right. by left. }
  intros Hc. apply H in Hc as [Hc|Hc]; [|done]. by apply elem_of_nil in Hc.
Qed.

(** Only ['9'] can be listed. *)
Lemma first_seen_invalid cs :
  first_seen (List.filter invalid_digit cs) = [] \/
  first_seen (List.filter invalid_digit cs) = lit "9".
Proof.
  pose proof (first_seen_NoDup (List.filter invalid_digit cs)) as Hnd.
  assert (forall c, c ∈ first_seen (List.filter invalid_digit cs) ->
                    c = "9"%char) as Hall.
  { intros c Hc. apply first_seen_elem, list_elem_of_In, filter_In in Hc.
    apply invalid_digit_nine, Hc. }
  destruct (first_seen (List.filter invalid_digit cs)) as [|c1 [|c2 l]].
  - by left.
  - right. by rewrite (Hall c1) by left.
  - apply NoDup_cons in Hnd as [Hnot _]. destruct Hnot.
    rewrite (Hall c1), (Hall c2); [left|right; left|left].
Qed.

(** C6: [parse("B39/S23")] yields Birth={3} and Survive={2,3} and writes
    the one diagnostic line that names [9]; a digit above 8 leaves the
    table as it is; and for every text the parser returns two well-formed
    tables and writes either nothing or one line that lists the distinct
    invalid digit characters of the scanned sections in the order of their
    first appearance, which is the line for [9] as no other character is
    an invalid digit. *)
Theorem parse_invalid_digit :
  parse_rulestring (lit "B39/S23") =
    (default_rule, lit "Warning: digits >8 ignored in rulestring: 9" ++ endl) /\
  (forall st c, invalid_digit c = true -> arr (fill_char st c) = arr st) /\
  forall rule,
    table_ok (Rules.B (parse_rulestring rule).1) /\
    table_ok (Rules.S (parse_rulestring rule).1) /\
    NoDup (first_seen (List.filter invalid_digit (scanned rule))) /\
    (parse_rulestring rule).2 =
      match first_seen (List.filter invalid_digit (scanned rule)) with
      | [] => []
      | cs => warning cs
      end /\
    ((parse_rulestring rule).2 = [] \/
     (parse_rulestring rule).2 =
       lit "Warning: digits >8 ignored in rulestring: 9" ++ endl).
Proof.
  split; [reflexivity|]. split; [apply fill_char_invalid_table|].
  intros rule. destruct (parse_rulestring_spec rule) as (HB & HS & Hw).
  split; [done|]. split; [done|]. split; [apply first_seen_NoDup|].
  split; [done|]. rewrite Hw.
  destruct (first_seen_invalid (scanned rule)) as [-> | ->]; [by left|by right].
Qed.

Lemma parse_invalid_digit_witness :
  arr (fill_char {| arr := zero_table; invalidFound := false;
                    invalidChars := [] |} "9") = zero_table.
Proof.
  apply (proj1 (proj2 parse_invalid_digit)
           {| arr := zero_table; invalidFound := false; invalidChars := [] |}
           "9"%char).
  reflexivity.
Defined.

(** *** Spaces, commas and the case of the markers *)

Lemma marker_upper_kept c : kept (marker_upper c) = kept c.
Proof. destruct c as [[] [] [] [] [] [] [] []]; reflexivity. Qed.

Lemma marker_upper_B c :
  bool_decide (marker_upper c ∈ lit "Bb") = bool_decide (c ∈ lit "Bb").
Proof. destruct c as [[] [] [] [] [] [] [] []]; reflexivity. Qed.

Lemma marker_upper_S c :
  bool_decide (marker_upper c ∈ lit "Ss") = bool_decide (c ∈ lit "Ss").
Proof. destruct c as [[] [] [] [] [] [] [] []]; reflexivity. Qed.

Lemma marker_upper_marker c : is_marker (marker_upper c) = is_marker c.
Proof. destruct c as [[] [] [] [] [] [] [] []]; reflexivity. Qed.

Lemma marker_upper_other c : is_marker c = false -> marker_upper c = c.
Proof. destruct c as [[] [] [] [] [] [] [] []]; (reflexivity || discriminate). Qed.

Lemma filter_kept_upper rule :
  List.filter kept (map marker_upper rule) =
  map marker_upper (List.filter kept rule).
Proof.
  induction rule as [|c rule IH]; simpl; [done|].
  rewrite marker_upper_kept. destruct (kept c); simpl; by rewrite IH.
Qed.

Lemma find_first_of_upper_B r :
  find_first_of (map marker_upper r) (lit "Bb") = find_first_of r (lit "Bb").
Proof.
  induction r as [|c r IH]; [done|]. cbn [map find_first_of].
  by rewrite marker_upper_B, IH.
Qed.

Lemma find_first_of_upper_S r :
  find_first_of (map marker_upper r) (lit "Ss") = find_first_of r (lit "Ss").
Proof.
  induction r as [|c r IH]; [done|]. cbn [map find_first_of].
  by rewrite marker_upper_S, IH.
Qed.

Lemma fill_loop_upper s : forall st,
  fill_loop (map marker_upper s) st = fill_loop s st.
Proof.
  induction s as [|c s IH]; intros st; simpl; [done|].
  rewrite marker_upper_marker. destruct (is_marker c) eqn:E; [done|].
  by rewrite IH, marker_upper_other.
Qed.

Lemma fillDigits_upper r from st :
  fillDigits (map marker_upper r) from st = fillDigits r from st.
Proof.
  unfold fillDigits.
  change (map marker_upper r) with (marker_upper <$> r).
  rewrite <- fmap_drop. apply fill_loop_upper.
Qed.

Lemma parse_rulestring_upper rule :
  parse_rulestring (map marker_upper rule) = parse_rulestring rule.
Proof.
  unfold parse_rulestring.
  rewrite !strip_rule_filter, filter_kept_upper.
  rewrite find_first_of_upper_B, find_first_of_upper_S.
  destruct (find_first_of _ (lit "Bb")), (find_first_of _ (lit "Ss"));
    by rewrite ?fillDigits_upper.
Qed.

(** C7: the parser drops every space and comma before it scans and takes
    the markers in either case: the three variants of the specification
    parse like ["B3/S23"], any two texts that agree once spaces and commas
    are removed parse alike, and so do a text and its copy with the marker
    letters in upper case. *)
Theorem parse_tolerant :
  parse_rulestring (lit "b3/s23") = parse_rulestring (lit "B3/S23") /\
  parse_rulestring (lit "B3 / S23") = parse_rulestring (lit "B3/S23") /\
  parse_rulestring (lit "B,3/S,2,3") = parse_rulestring (lit "B3/S23") /\
  (forall rule, strip_rule rule = List.filter kept rule) /\
  (forall rule, parse_rulestring rule = parse_rulestring (List.filter kept rule)) /\
  (forall rule rule', List.filter kept rule = List.filter kept rule' ->
     parse_rulestring rule = parse_rulestring rule') /\
  (forall rule, parse_rulestring (map marker_upper rule) = parse_rulestring rule).
Proof.
  split; [reflexivity|]. split; [reflexivity|]. split; [reflexivity|].
  split; [apply strip_rule_filter|]. split; [|split].
  - intros rule. apply parse_rulestring_strip.
    by rewrite !strip_rule_filter, filter_kept_idemp.
  - intros rule rule' E. apply parse_rulestring_strip.
    by rewrite !strip_rule_filter.
  - apply parse_rulestring_upper.
Qed.

Lemma parse_tolerant_witness :
  parse_rulestring (lit " B 3,6 / S 2,3 ") = parse_rulestring (lit "B36/S23").
Proof.
  apply (proj1 (proj2 (proj2 (proj2 (proj2 (proj2 parse_tolerant)))))).
  reflexivity.
Defined.

(** ** The dimension check of [main] *)

Section MainFacts.
Variable Prob : Type.
Variable default_prob : Prob.
Variable stod : cstring -> option Prob.
Variable stoi : cstring -> option Z.
Variable random_init : Grid -> Prob -> Grid.
Variable step : Z -> Z -> Grid -> Grid -> option (Grid * Grid).
Variable has_threads : bool.

Lemma main_body_invalid_dimensions fuel (c : config Prob) :
  gWidth c <= 0 \/ gHeight c <= 0 ->
  main_body Prob random_init step fuel c =
  Some {| trace := (if draw_enabled c then [ClearScreen] else []) ++
                   [Cerr (lit "Invalid dimensions" ++ endl)];
          result := Exit 1 |}.
Proof.
  intros Hbad. unfold main_body.
  destruct (Z.leb_spec (gWidth c) 0); [done|].
  destruct (Z.leb_spec (gHeight c) 0); [done|]. lia.
Qed.

Lemma life_main_invalid_dimensions fuel argv (c : config Prob) :
  parse_args Prob stod stoi has_threads (tail argv)
    (default_config Prob default_prob) = Some c ->
  gWidth c <= 0 \/ gHeight c <= 0 ->
  exists r,
    life_main Prob default_prob stod stoi random_init step has_threads
      fuel argv = Some r /\
    result r = Exit 1 /\
    Cerr (lit "Invalid dimensions" ++ endl) ∈ trace r /\
    forall g, StepCall g ∉ trace r.
Proof.
  intros Hargs Hbad. unfold life_main. rewrite Hargs.
  rewrite main_body_invalid_dimensions by done.
  eexists. split; [done|]. split; [done|]. cbn [trace]. split.
  - apply elem_of_app. right. by left.
  - intros g Hin. apply elem_of_app in Hin as [Hin|Hin].
    + destruct (draw_enabled c).
      * apply list_elem_of_singleton in Hin. discriminate.
      * by apply elem_of_nil in Hin.
    + apply list_elem_of_singleton in Hin. discriminate.
Qed.
End MainFacts.

(** C9: a run whose width or height is not positive, as with [--width 0]
    or [--height -1], is a fatal configuration error: both programs write
    ["Invalid dimensions"] to [std::cerr] and return 1 without a single
    call of [step], whatever else the command line holds. *)
Theorem invalid_dimensions_fatal {Prob : Type} (default_prob : Prob)
    stod stoi random_init fuel argv :
  (forall c,
     parse_args Prob stod stoi false (tail argv)
       (default_config Prob default_prob) = Some c ->
     gWidth c <= 0 \/ gHeight c <= 0 ->
     exists r,
       DefaultSequential.main default_prob stod stoi random_init fuel argv
       = Some r /\
       result r = Exit 1 /\
       Cerr (lit "Invalid dimensions" ++ endl) ∈ trace r /\
       forall g, StepCall g ∉ trace r) /\
  (forall c,
     parse_args Prob stod stoi true (tail argv)
       (default_config Prob default_prob) = Some c ->
     gWidth c <= 0 \/ gHeight c <= 0 ->
     exists r,
       InvertAmaze.main default_prob stod stoi random_init fuel argv
       = Some r /\
       result r = Exit 1 /\
       Cerr (lit "Invalid dimensions" ++ endl) ∈ trace r /\
       forall g, StepCall g ∉ trace r).
Proof.
  split; intros c Hargs Hbad.
  - by apply (life_main_invalid_dimensions Prob default_prob stod stoi
                random_init DefaultSequential.step false fuel argv c).
  - by apply (life_main_invalid_dimensions Prob default_prob stod stoi
                random_init InvertAmaze.step true fuel argv c).
Qed.

Lemma invalid_dimensions_fatal_witness :
  (exists r,
     DefaultSequential.main tt (fun _ => Some tt) stoi_dec (fun g _ => g) 0
       [lit "life"; lit "--width"; lit "0"] = Some r /\
     result r = Exit 1 /\
     Cerr (lit "Invalid dimensions" ++ endl) ∈ trace r /\
     forall g, StepCall g ∉ trace r) /\
  (exists r,
     InvertAmaze.main tt (fun _ => Some tt) stoi_dec (fun g _ => g) 0
       [lit "life"; lit "--no-draw"; lit "--steps"; lit "10";
        lit "--height"; lit "-1"] = Some r /\
     result r = Exit 1 /\
     Cerr (lit "Invalid dimensions" ++ endl) ∈ trace r /\
     forall g, StepCall g ∉ trace r).
Proof.
  split.
  - apply (proj1 (invalid_dimensions_fatal tt (fun _ => Some tt) stoi_dec
                    (fun g _ => g) 0 [lit "life"; lit "--width"; lit "0"])
             {| draw_enabled := true; steps := -1; prob := tt;
                gWidth := 0; gHeight := 24; threads := -1 |}).
    + reflexivity.
    + left. simpl. lia.
  - apply (proj2 (invalid_dimensions_fatal tt (fun _ => Some tt) stoi_dec
                    (fun g _ => g) 0
                    [lit "life"; lit "--no-draw"; lit "--steps"; lit "10";
                     lit "--height"; lit "-1"])
             {| draw_enabled := false; steps := 10; prob := tt;
                gWidth := 80; gHeight := -1; threads := -1 |}).
    + reflexivity.
    + right. simpl. lia.
Defined.

(** * Further properties of the code *)

(** ** Runs of several steps *)

Lemma step_conway_defined w h (cur nxt : Grid) :
  dims_ok w h -> grid_shape w h cur -> grid_shape w h nxt -> cells_u8 cur ->
  exists new, step_conway w h cur nxt = Some (new, cur) /\
    grid_shape w h new /\ bit_valued new.
Proof.
  intros Hd Hc Hn Hu.
  destruct (step_pass_spec w h (conway_next w h cur) cur nxt Hn)
    as (new & Hstep & Hs & Hb & _).
  { intros y x Hy Hx. rewrite (conway_next_ok w h cur) by done. eauto. }
  exists new. auto.
Qed.

Lemma step_tables_defined w h B S (cur nxt : Grid) :
  dims_ok w h -> grid_shape w h cur -> grid_shape w h nxt -> bit_valued cur ->
  length B = 9%nat -> length S = 9%nat ->
  exists new, step_tables w h B S cur nxt = Some (new, cur) /\
    grid_shape w h new /\ bit_valued new.
Proof.
  intros Hd Hc Hn Hb HB HS.
  destruct (step_pass_spec w h (table_next w h B S cur) cur nxt Hn)
    as (new & Hstep & Hs & Hbn & _).
  { intros y x Hy Hx.
    rewrite (table_next_ok w h cur Hd Hc (bit_valued_u8 cur Hb) B S y x HB HS Hy Hx).
    - eauto.
    - by apply count_spec_bits. }
  exists new. auto.
Qed.

Lemma run_steps_add step n m (cur nxt : Grid) :
  run_steps step (n + m) cur nxt =
  run_steps step n cur nxt ≫= fun s => run_steps step m s.1 s.2.
Proof.
  revert cur nxt. induction n as [|n IH]; intros cur nxt; simpl; [done|].
  destruct (step cur nxt) as [[c' n']|]; simpl; [apply IH|done].
Qed.

(** A run of steps from an invariant the step keeps. *)
Lemma run_steps_invariant (step : Grid -> Grid -> option (Grid * Grid))
    (P Q : Grid -> Prop) :
  (forall cur nxt, P cur -> Q nxt ->
     exists new, step cur nxt = Some (new, cur) /\ P new) ->
  (forall g, P g -> Q g) ->
  forall n cur nxt, P cur -> Q nxt ->
    exists c' n', run_steps step n cur nxt = Some (c', n') /\ P c' /\ Q n'.
Proof.
  intros Hstep HPQ. induction n as [|n IH]; intros cur nxt HP HQ; simpl.
  - eauto.
  - destruct (Hstep cur nxt HP HQ) as (new & -> & HPn). simpl.
    apply IH; auto.
Qed.

(** X1: any number of steps in a row is defined on well-formed buffers
    and ends on well-formed buffers whose first one is bit-valued, for the
    step with Conway's rule written out (from any [uint8_t] cells) and for
    the table driven step (from bit-valued cells); and a run of [n + m]
    steps is a run of [n] steps followed by a run of [m]. *)
Theorem run_steps_safe w h B S (n m : nat) (cur nxt : Grid) :
  dims_ok w h -> grid_shape w h cur -> grid_shape w h nxt -> cells_u8 cur ->
  (exists c' n', run_steps (DefaultSequential.step w h) n cur nxt = Some (c', n') /\
     grid_shape w h c' /\ grid_shape w h n' /\ cells_u8 c' /\
     ((0 < n)%nat -> bit_valued c')) /\
  (bit_valued cur -> length B = 9%nat -> length S = 9%nat ->
   exists c' n', run_steps (step_tables w h B S) n cur nxt = Some (c', n') /\
     grid_shape w h c' /\ grid_shape w h n' /\ bit_valued c') /\
  (forall step, run_steps step (n + m) cur nxt =
     run_steps step n cur nxt ≫= fun s => run_steps step m s.1 s.2).
Proof.
  intros Hd Hc Hn Hu. split; [|split].
  - destruct n as [|n]; simpl.
    { exists cur, nxt. do 4 (split; [done|]). lia. }
    unfold DefaultSequential.step.
    destruct (step_conway_defined w h cur nxt Hd Hc Hn Hu)
      as (new & -> & Hs & Hb). simpl.
    destruct (run_steps_invariant (step_conway w h)
                (fun g => grid_shape w h g /\ bit_valued g) (grid_shape w h))
      with (n := n) (cur := new) (nxt := cur)
      as (c' & n' & Hrun & [Hsc Hbc] & Hsn); auto.
    + intros c1 n1 [Hs1 Hb1] Hn1.
      destruct (step_conway_defined w h c1 n1 Hd Hs1 Hn1 (bit_valued_u8 _ Hb1))
        as (new1 & Hst & Hs2 & Hb2).
      exists new1. auto.
    + by intros g [? ?].
    + exists c', n'. do 3 (split; [done|]). split; [by apply bit_valued_u8|done].
  - intros Hb HB HS.
    destruct (run_steps_invariant (step_tables w h B S)
                (fun g => grid_shape w h g /\ bit_valued g) (grid_shape w h))
      with (n := n) (cur := cur) (nxt := nxt)
      as (c' & n' & Hrun & [Hsc Hbc] & Hsn); auto.
    + intros c1 n1 [Hs1 Hb1] Hn1.
      destruct (step_tables_defined w h B S c1 n1 Hd Hs1 Hn1 Hb1 HB HS)
        as (new1 & Hst & Hs2 & Hb2).
      exists new1. auto.
    + by intros g [? ?].
    + exists c', n'. auto.
  - intros step. apply run_steps_add.
Qed.

Lemma run_steps_safe_witness :
  (exists c' n',
     run_steps (DefaultSequential.step 3 3) 4
       [[0; 7; 0]; [0; 1; 0]; [0; 1; 0]] [[0; 0; 0]; [0; 0; 0]; [0; 0; 0]]
     = Some (c', n') /\
     grid_shape 3 3 c' /\ grid_shape 3 3 n' /\ cells_u8 c' /\
     ((0 < 4)%nat -> bit_valued c')).
Proof.
  destruct (run_steps_safe 3 3 [] [] 4 0
              [[0; 7; 0]; [0; 1; 0]; [0; 1; 0]]
              [[0; 0; 0]; [0; 0; 0]; [0; 0; 0]]) as [Hrun _].
  - unfold dims_ok. lia.
  - concrete_shape.
  - concrete_shape.
  - concrete_cells.
  - exact Hrun.
Defined.

(** ** Uniform grids *)

Lemma uniform_grid_shape w h c :
  0 <= w -> 0 <= h -> grid_shape w h (uniform_grid w h c).
Proof.
  intros Hw Hh. unfold grid_shape, uniform_grid. split.
  - rewrite length_replicate. lia.
  - apply Forall_replicate. rewrite length_replicate. lia.
Qed.

Lemma grid_at_uniform w h c y x :
  0 <= y < h -> 0 <= x < w -> grid_at (uniform_grid w h c) y x = Some c.
Proof.
  intros Hy Hx. unfold grid_at, uniform_grid.
  assert (vec_at (replicate (Z.to_nat h) (replicate (Z.to_nat w) c)) y =
          Some (replicate (Z.to_nat w) c)) as ->.
  { apply vec_at_Some. split; [lia|]. apply lookup_replicate_2. lia. }
  simpl. apply vec_at_Some. split; [lia|]. apply lookup_replicate_2. lia.
Qed.

Lemma uniform_grid_cells w h c :
  0 <= c < 256 -> cells_u8 (uniform_grid w h c).
Proof.
  intros Hc. unfold cells_u8, uniform_grid.
  apply Forall_replicate, Forall_replicate. done.
Qed.

Lemma count_spec_uniform w h c y x :
  0 < w -> 0 < h -> count_spec w h (uniform_grid w h c) y x = 8 * c.
Proof.
  intros Hw Hh. unfold count_spec, neighbor_offsets, cell.
  cbn [map foldr fst snd].
  rewrite !grid_at_uniform by (apply Z.mod_pos_bound; lia). simpl. lia.
Qed.

(** X2: a grid whose cells are all dead, or all alive, stays uniform under
    any rule tables: all dead cells take the value [B[0]], all live cells
    the value [S[8]], for every positive size, the 1 x 1 grid included.
    So Conway's rule keeps the dead grid dead and kills the full grid, and
    the rule B028/S0124 of the parallel program turns the dead grid into
    the full one and back. *)
Theorem step_uniform w h B S (nxt : Grid) :
  dims_ok w h -> grid_shape w h nxt ->
  length B = 9%nat -> length S = 9%nat ->
  step_tables w h B S (uniform_grid w h 0) nxt =
    Some (uniform_grid w h (of_bool (negb (entry B 0 =? 0))), uniform_grid w h 0) /\
  step_tables w h B S (uniform_grid w h 1) nxt =
    Some (uniform_grid w h (of_bool (negb (entry S 8 =? 0))), uniform_grid w h 1) /\
  DefaultSequential.step w h (uniform_grid w h 0) nxt =
    Some (uniform_grid w h 0, uniform_grid w h 0) /\
  DefaultSequential.step w h (uniform_grid w h 1) nxt =
    Some (uniform_grid w h 0, uniform_grid w h 1) /\
  InvertAmaze.step w h (uniform_grid w h 0) nxt =
    Some (uniform_grid w h 1, uniform_grid w h 0) /\
  InvertAmaze.step w h (uniform_grid w h 1) nxt =
    Some (uniform_grid w h 0, uniform_grid w h 1).
Proof.
  intros Hd Hn HB HS. pose proof Hd as [Hw Hh].
  assert (forall B S c, length B = 9%nat -> length S = 9%nat ->
            c = 0 \/ c = 1 ->
            step_tables w h B S (uniform_grid w h c) nxt =
            Some (uniform_grid w h
                    (of_bool (rule_spec B S (negb (c =? 0)) (8 * c))),
                  uniform_grid w h c)) as Htab.
  { intros B' S' c HB' HS' Hc.
    assert (grid_shape w h (uniform_grid w h c)) as Hs
      by (apply uniform_grid_shape; lia).
    assert (cells_u8 (uniform_grid w h c)) as Hu
      by (apply uniform_grid_cells; lia).
    assert (forall y x, 0 <= y < h -> 0 <= x < w ->
              table_next w h B' S' (uniform_grid w h c) y x =
              Some (rule_spec B' S' (negb (c =? 0)) (8 * c))) as Hnext.
    { intros y x Hy Hx.
      rewrite (table_next_ok w h _ Hd Hs Hu B' S' y x HB' HS' Hy Hx).
      - rewrite count_spec_uniform by lia. unfold cell.
        by rewrite grid_at_uniform.
      - rewrite count_spec_uniform by lia. lia. }
    destruct (step_pass_spec w h (table_next w h B' S' (uniform_grid w h c))
                (uniform_grid w h c) nxt Hn) as (new & Hstep & Hsn & _ & Hat).
    { intros y x Hy Hx. rewrite Hnext by done. eauto. }
    unfold step_tables. rewrite Hstep. do 2 f_equal.
    apply (grid_shape_ext w h); [done|apply uniform_grid_shape; lia|].
    intros y x Hy Hx. by rewrite Hat, Hnext, grid_at_uniform. }
  assert (forall c, c = 0 \/ c = 1 ->
            step_conway w h (uniform_grid w h c) nxt =
            step_tables w h default_B default_S (uniform_grid w h c) nxt)
    as Hconway.
  { intros c Hc. apply step_conway_default_tables.
    - apply uniform_grid_shape; lia.
    - apply Forall_replicate, Forall_replicate. done. }
  split.
  { rewrite Htab by auto. unfold rule_spec. simpl. by rewrite orb_false_r. }
  split.
  { rewrite Htab by auto. unfold rule_spec. by simpl. }
  unfold DefaultSequential.step, InvertAmaze.step.
  rewrite !Hconway by auto. rewrite !Htab by auto.
  repeat split; reflexivity.
Qed.

Lemma step_uniform_witness :
  InvertAmaze.step 1 1 (uniform_grid 1 1 0) [[0]] =
    Some (uniform_grid 1 1 1, uniform_grid 1 1 0) /\
  InvertAmaze.step 1 1 (uniform_grid 1 1 1) [[0]] =
    Some (uniform_grid 1 1 0, uniform_grid 1 1 1).
Proof.
  destruct (step_uniform 1 1 InvertAmaze.B InvertAmaze.S [[0]])
    as (_ & _ & _ & _ & Hdead & Hfull).
  - unfold dims_ok. lia.
  - concrete_shape.
  - reflexivity.
  - reflexivity.
  - by split.
Defined.

(** ** Dimensions that are not positive, buffers that are too small *)

Lemma iteration_space_empty w h : w <= 0 \/ h <= 0 -> iteration_space w h = [].
Proof.
  intros Hwh. unfold iteration_space.
  destruct (Z.leb_spec h 0) as [Hh|Hh]; [by rewrite (seqZ_nil 0 h)|].
  rewrite (seqZ_nil 0 w) by lia. by induction (seqZ 0 h).
Qed.

Lemma wrap_index_zero i d : wrap_index i d 0 = None.
Proof.
  unfold wrap_index, int_rem.
  destruct (int_add i d) as [a|]; [|done]. simpl.
  by destruct (int_add a 0).
Qed.

Lemma add_neighbor_zero_dimension w h (g : Grid) y x cnt :
  w = 0 \/ h = 0 -> add_neighbor w h g y x (-1) cnt (-1) = None.
Proof.
  intros Hz. unfold add_neighbor. cbn [Z.eqb negb orb].
  destruct Hz as [-> | ->].
  - rewrite wrap_index_zero. by destruct (wrap_index y (-1) h).
  - by rewrite wrap_index_zero.
Qed.

(** X3: what the dimension check of [main] guards.  With a zero width or
    height the neighbour count is undefined for every grid and cell (the
    remainder divides by zero), and with a width or height that is not
    positive a step computes no cell at all: it only exchanges the two
    buffers. *)
Theorem step_without_dimensions w h (cur nxt : Grid) :
  (w = 0 \/ h = 0 -> forall g y x, neighbor_count w h g y x = None) /\
  (w <= 0 \/ h <= 0 ->
   DefaultSequential.step w h cur nxt = Some (nxt, cur) /\
   InvertAmaze.step w h cur nxt = Some (nxt, cur)).
Proof.
  split.
  - intros Hz g y x. unfold neighbor_count, for_range.
    change (seqZ (-1) (2 - -1)) with [-1; 0; 1]. cbn [for_each].
    by rewrite add_neighbor_zero_dimension.
  - intros Hwh.
    unfold DefaultSequential.step, InvertAmaze.step, step_conway, step_tables.
    rewrite !pass_run_cells, iteration_space_empty by done. done.
Qed.

Lemma step_without_dimensions_witness :
  neighbor_count 0 3 [[0; 1; 0]; [0; 1; 0]; [0; 1; 0]] 1 1 = None /\
  DefaultSequential.step 3 (-1) [[0; 1; 0]] [[1; 1; 1]] =
    Some ([[1; 1; 1]], [[0; 1; 0]]).
Proof.
  destruct (step_without_dimensions 0 3 [] []) as [Hcount _].
  destruct (step_without_dimensions 3 (-1) [[0; 1; 0]] [[1; 1; 1]])
    as [_ Hstep].
  split.
  - apply Hcount. by left.
  - apply Hstep. right. lia.
Defined.

(** X4: on a well-formed [cur], a step is defined exactly when [nxt] holds
    every cell of the [gWidth] x [gHeight] range; [nxt] may be larger, and
    then the step keeps its row lengths and every cell outside the range. *)
Theorem step_needs_covering_buffer w h (cur nxt : Grid) :
  dims_ok w h -> grid_shape w h cur -> cells_u8 cur ->
  (is_Some (DefaultSequential.step w h cur nxt) <-> covers w h nxt) /\
  forall new old, DefaultSequential.step w h cur nxt = Some (new, old) ->
    row_lengths new = row_lengths nxt /\
    forall y x, ~ (0 <= y < h /\ 0 <= x < w) ->
      grid_at new y x = grid_at nxt y x.
Proof.
  intros Hd Hc Hu.
  assert (Forall (cell_ready (conway_next w h cur) nxt) (iteration_space w h)
          <-> covers w h nxt) as Hready.
  { rewrite Forall_forall. unfold covers. split.
    - intros H y x Hy Hx. apply (H (y, x)).
      by apply elem_of_iteration_space.
    - intros H [y x] Hin. apply elem_of_iteration_space in Hin as [Hy Hx].
      split; simpl; [|by apply H].
      rewrite (conway_next_ok w h cur) by done. eauto. }
  unfold DefaultSequential.step, step_conway. rewrite pass_run_cells.
  destruct (decide (Forall (cell_ready (conway_next w h cur) nxt)
                      (iteration_space w h))) as [Hall|Hall].
  - destruct (run_cells_Some _ _ _ Hall) as (g & -> & Hlen & Hat). simpl.
    split; [split; [by intros _; apply Hready|eauto]|].
    intros new old [= <- <-]. split; [done|]. intros y x Hout.
    rewrite Hat, bool_decide_eq_false_2; [done|].
    by rewrite elem_of_iteration_space.
  - rewrite run_cells_None by done. simpl. split.
    + split; [by intros [? ?]|]. intros Hcov. by apply Hready in Hcov.
    + by intros new old.
Qed.

Lemma step_needs_covering_buffer_witness :
  (is_Some (DefaultSequential.step 2 2 [[0; 1]; [1; 1]] [[5; 5; 5]; [5; 5]])
   <-> covers 2 2 [[5; 5; 5]; [5; 5]]) /\
  forall new old,
    DefaultSequential.step 2 2 [[0; 1]; [1; 1]] [[5; 5; 5]; [5; 5]]
    = Some (new, old) ->
    row_lengths new = row_lengths [[5; 5; 5]; [5; 5]] /\
    forall y x, ~ (0 <= y < 2 /\ 0 <= x < 2) ->
      grid_at new y x = grid_at [[5; 5; 5]; [5; 5]] y x.
Proof.
  apply step_needs_covering_buffer.
  - unfold dims_ok. lia.
  - concrete_shape.
  - concrete_cells.
Defined.

(** ** Moving a pattern on the torus *)

Lemma cells_from_lookup (P : Z -> Prop) w h (g : Grid) :
  grid_shape w h g ->
  (forall y x, 0 <= y < h -> 0 <= x < w ->
     exists c, grid_at g y x = Some c /\ P c) ->
  Forall (Forall P) g.
Proof.
  intros Hs Hat.
  apply Forall_lookup. intros i row Hrow. apply Forall_lookup. intros j c Hc.
  assert (grid_at g (Z.of_nat i) (Z.of_nat j) = Some c) as Hg.
  { unfold grid_at, vec_at.
    destruct (Z.ltb_spec (Z.of_nat i) 0); [lia|].
    rewrite (Nat2Z.id i), Hrow. simpl.
    destruct (Z.ltb_spec (Z.of_nat j) 0); [lia|]. by rewrite Nat2Z.id. }
  assert (in_grid g (Z.of_nat i) (Z.of_nat j)) as Hin by (unfold in_grid; eauto).
  apply (in_grid_shape w h) in Hin as [Hy Hx]; [|done].
  destruct (Hat _ _ Hy Hx) as (c' & Hc' & HP). congruence.
Qed.

Lemma lookup_from_cells (P : Z -> Prop) (g : Grid) y x c :
  Forall (Forall P) g -> grid_at g y x = Some c -> P c.
Proof.
  intros HP. unfold grid_at.
  destruct (vec_at g y) as [row|] eqn:Hrow; simpl; [|done]. intros Hc.
  apply vec_at_Some in Hrow as [_ Hrow]. apply vec_at_Some in Hc as [_ Hc].
  rewrite Forall_lookup in HP. specialize (HP _ _ Hrow).
  rewrite Forall_lookup in HP. by apply (HP _ _ Hc).
Qed.

Lemma shifted_cells (P : Z -> Prop) w h a b (g g' : Grid) :
  0 < w -> 0 < h -> grid_shape w h g -> grid_shape w h g' ->
  shifted w h a b g g' -> Forall (Forall P) g -> Forall (Forall P) g'.
Proof.
  intros Hw Hh Hs Hs' Hsh HP. apply (cells_from_lookup P w h); [done|].
  intros y x Hy Hx. rewrite (Hsh y x Hy Hx).
  rewrite (grid_at_cell w h) by (try done; apply Z.mod_pos_bound; lia).
  eexists. split; [done|]. apply (lookup_from_cells P g ((y + a) mod h) ((x + b) mod w)).
  - done.
  - apply (grid_at_cell w h); [done| |]; apply Z.mod_pos_bound; lia.
Qed.

Lemma wrap_shift y d a n :
  0 < n -> ((y + d + n) mod n + a) mod n = ((y + a) mod n + d + n) mod n.
Proof.
  intros Hn. rewrite Zplus_mod_idemp_l.
  replace ((y + a) mod n + d + n) with ((y + a) mod n + (d + n)) by lia.
  rewrite Zplus_mod_idemp_l. f_equal. lia.
Qed.

Lemma shifted_cell w h a b (g g' : Grid) y x :
  shifted w h a b g g' -> 0 <= y < h -> 0 <= x < w ->
  cell g' y x = cell g ((y + a) mod h) ((x + b) mod w).
Proof. intros Hsh Hy Hx. unfold cell. by rewrite (Hsh y x). Qed.

Lemma shifted_count w h a b (g g' : Grid) y x :
  0 < w -> 0 < h -> shifted w h a b g g' ->
  count_spec w h g' y x = count_spec w h g ((y + a) mod h) ((x + b) mod w).
Proof.
  intros Hw Hh Hsh. unfold count_spec, neighbor_offsets.
  cbn [map foldr fst snd].
  rewrite !(shifted_cell w h a b g g') by (try done; apply Z.mod_pos_bound; lia).
  by rewrite !wrap_shift by lia.
Qed.

(** X5: a step commutes with moving the pattern on the torus, for Conway's
    rule written out and for any rule tables: if [cur'] is [cur] moved by
    [(a, b)], wrapped at the edges, then the generation after [cur'] is
    the generation after [cur] moved by [(a, b)]. *)
Theorem step_translation w h B S a b (cur cur' nxt nxt' : Grid) :
  dims_ok w h ->
  grid_shape w h cur -> grid_shape w h cur' ->
  grid_shape w h nxt -> grid_shape w h nxt' ->
  shifted w h a b cur cur' ->
  (cells_u8 cur ->
   exists new new',
     DefaultSequential.step w h cur nxt = Some (new, cur) /\
     DefaultSequential.step w h cur' nxt' = Some (new', cur') /\
     shifted w h a b new new') /\
  (bit_valued cur -> length B = 9%nat -> length S = 9%nat ->
   exists new new',
     step_tables w h B S cur nxt = Some (new, cur) /\
     step_tables w h B S cur' nxt' = Some (new', cur') /\
     shifted w h a b new new').
Proof.
  intros Hd Hc Hc' Hn Hn' Hsh. pose proof Hd as [Hw Hh].
  assert (forall y, 0 <= (y + a) mod h < h) as Hya
    by (intros; apply Z.mod_pos_bound; lia).
  assert (forall x, 0 <= (x + b) mod w < w) as Hxb
    by (intros; apply Z.mod_pos_bound; lia).
  split.
  - intros Hu.
    assert (cells_u8 cur') as Hu'
      by (apply (shifted_cells _ w h a b cur); auto; lia).
    destruct (step_pass_spec w h (conway_next w h cur) cur nxt Hn)
      as (new & Hstep & Hs & _ & Hat).
    { intros y x Hy Hx. rewrite (conway_next_ok w h cur) by done. eauto. }
    destruct (step_pass_spec w h (conway_next w h cur') cur' nxt' Hn')
      as (new' & Hstep' & Hs' & _ & Hat').
    { intros y x Hy Hx. rewrite (conway_next_ok w h cur') by done. eauto. }
    exists new, new'. split; [done|]. split; [done|].
    intros y x Hy Hx. rewrite Hat' by done. rewrite Hat by done.
    rewrite (conway_next_ok w h cur') by done.
    rewrite (conway_next_ok w h cur) by done.
    rewrite (shifted_count w h a b cur cur') by (try done; lia).
    by rewrite (shifted_cell w h a b cur cur').
  - intros Hb HB HS.
    assert (bit_valued cur') as Hb'
      by (apply (shifted_cells _ w h a b cur); auto; lia).
    assert (forall g y x, grid_shape w h g -> bit_valued g ->
              0 <= y < h -> 0 <= x < w ->
              table_next w h B S g y x =
              Some (rule_spec B S (negb (cell g y x =? 0)) (count_spec w h g y x)))
      as Hnext.
    { intros g y x Hg Hbg Hy Hx.
      apply table_next_ok; try done; [by apply bit_valued_u8|].
      by apply count_spec_bits. }
    destruct (step_pass_spec w h (table_next w h B S cur) cur nxt Hn)
      as (new & Hstep & Hs & _ & Hat).
    { intros y x Hy Hx. rewrite Hnext by done. eauto. }
    destruct (step_pass_spec w h (table_next w h B S cur') cur' nxt' Hn')
      as (new' & Hstep' & Hs' & _ & Hat').
    { intros y x Hy Hx. rewrite Hnext by done. eauto. }
    exists new, new'. split; [done|]. split; [done|].
    intros y x Hy Hx. rewrite Hat' by done. rewrite Hat by done.
    rewrite !Hnext by done.
    rewrite (shifted_count w h a b cur cur') by (try done; lia).
    by rewrite (shifted_cell w h a b cur cur').
Qed.

Lemma step_translation_witness :
  exists new new',
    DefaultSequential.step 3 3 [[1; 1; 0]; [0; 0; 0]; [0; 1; 0]]
      [[0; 0; 0]; [0; 0; 0]; [0; 0; 0]]
    = Some (new, [[1; 1; 0]; [0; 0; 0]; [0; 1; 0]]) /\
    DefaultSequential.step 3 3 [[0; 0; 0]; [1; 0; 0]; [1; 0; 1]]
      [[0; 0; 0]; [0; 0; 0]; [0; 0; 0]]
    = Some (new', [[0; 0; 0]; [1; 0; 0]; [1; 0; 1]]) /\
    shifted 3 3 1 1 new new'.
Proof.
  destruct (step_translation 3 3 [] [] 1 1
              [[1; 1; 0]; [0; 0; 0]; [0; 1; 0]]
              [[0; 0; 0]; [1; 0; 0]; [1; 0; 1]]
              [[0; 0; 0]; [0; 0; 0]; [0; 0; 0]]
              [[0; 0; 0]; [0; 0; 0]; [0; 0; 0]]) as [Hconway _].
  - unfold dims_ok. lia.
  - concrete_shape.
  - concrete_shape.
  - concrete_shape.
  - concrete_shape.
  - intros y x Hy Hx.
    assert (y = 0 \/ y = 1 \/ y = 2) as [->|[->| ->]] by lia;
      (assert (x = 0 \/ x = 1 \/ x = 2) as [->|[->| ->]] by lia);
      reflexivity.
  - apply Hconway. concrete_cells.
Defined.

(** ** The blinker *)

Lemma mod_pred_cases k n :
  0 < n -> 0 <= k < n -> (k + -1) mod n = if k =? 0 then n - 1 else k - 1.
Proof.
  intros Hn Hk. destruct (Z.eqb_spec k 0) as [->|Hk0].
  - replace (0 + -1) with (n - 1 + -1 * n) by lia.
    rewrite Z_mod_plus_full. apply Z.mod_small. lia.
  - replace (k + -1) with (k - 1) by lia. apply Z.mod_small. lia.
Qed.

Lemma mod_succ_cases k n :
  0 < n -> 0 <= k < n -> (k + 1) mod n = if k =? n - 1 then 0 else k + 1.
Proof.
  intros Hn Hk. destruct (Z.eqb_spec k (n - 1)) as [->|Hk1].
  - replace (n - 1 + 1) with (0 + 1 * n) by lia.
    rewrite Z_mod_plus_full. apply Z.mod_0_l. lia.
  - apply Z.mod_small. lia.
Qed.

(** The three lines around a line of the torus: which of them is the line
    [0], and whether the line lies in the bar [n-1, 0, 1]. *)
Lemma line_patterns k n :
  5 <= n -> 0 <= k < n ->
  exists a b c,
    ((k + -1) mod n =? 0) = a /\ ((k + 0) mod n =? 0) = b /\ (k =? 0) = b /\
    ((k + 1) mod n =? 0) = c /\ ((k + 1) mod n <? 3) = a || b || c /\
    ((a, b, c) = (true, false, false) \/ (a, b, c) = (false, true, false) \/
     (a, b, c) = (false, false, true) \/ (a, b, c) = (false, false, false)).
Proof.
  intros Hn Hk.
  exists ((k + -1) mod n =? 0), (k =? 0), ((k + 1) mod n =? 0).
  split; [done|]. split; [by rewrite Z.add_0_r, Z.mod_small by lia|].
  split; [done|]. split; [done|].
  rewrite mod_pred_cases, mod_succ_cases by lia.
  destruct (Z.eqb_spec k 0), (Z.eqb_spec k (n - 1));
    repeat match goal with
      | |- context [?a =? ?b] => destruct (Z.eqb_spec a b)
      | |- context [?a <? ?b] => destruct (Z.ltb_spec a b)
      end; try lia; simpl; auto 10.
Qed.

(** The three lines around a line of the torus: which of them lie in the
    bar [0, 1, 2], and whether the line is the middle of the bar. *)
Lemma bar_patterns j n :
  5 <= n -> 0 <= j < n ->
  exists a b c,
    ((j + -1) mod n <? 3) = a /\ ((j + 0) mod n <? 3) = b /\ (j <? 3) = b /\
    ((j + 1) mod n <? 3) = c /\ ((j + -1) mod n =? 0) = a && b && c /\
    ((a, b, c) = (false, true, true) \/ (a, b, c) = (true, true, true) \/
     (a, b, c) = (true, true, false) \/ (a, b, c) = (true, false, false) \/
     (a, b, c) = (false, false, true) \/ (a, b, c) = (false, false, false)).
Proof.
  intros Hn Hj.
  exists ((j + -1) mod n <? 3), (j <? 3), ((j + 1) mod n <? 3).
  split; [done|]. split; [by rewrite Z.add_0_r, Z.mod_small by lia|].
  split; [done|]. split; [done|].
  rewrite mod_pred_cases, mod_succ_cases by lia.
  destruct (Z.eqb_spec j 0), (Z.eqb_spec j (n - 1));
    repeat match goal with
      | |- context [?a =? ?b] => destruct (Z.eqb_spec a b)
      | |- context [?a <? ?b] => destruct (Z.ltb_spec a b)
      end; try lia; simpl; auto 10.
Qed.

Lemma mod_recentre_succ y c n :
  0 < n -> (y - (c - 1)) mod n = ((y - c) mod n + 1) mod n.
Proof. intros Hn. rewrite Zplus_mod_idemp_l. f_equal. lia. Qed.

Lemma mod_recentre_pred x c n :
  0 < n -> (x - c) mod n = ((x - (c - 1)) mod n + -1) mod n.
Proof. intros Hn. rewrite Zplus_mod_idemp_l. f_equal. lia. Qed.

Section Blinker.
Variables (w h cy cx : Z).
Hypothesis Hw : 5 <= w < 2 ^ 30.
Hypothesis Hh : 5 <= h < 2 ^ 30.

Lemma blinker_dims_ok : dims_ok w h.
Proof. unfold dims_ok. lia. Qed.

Lemma hblinker_next (g : Grid) y x :
  hblinker w h cy cx g -> 0 <= y < h -> 0 <= x < w ->
  conway_next w h g y x =
  Some (((y - (cy - 1)) mod h <? 3) && ((x - cx) mod w =? 0)).
Proof.
  intros [Hs Hat] Hy Hx.
  assert (bit_valued g) as Hb.
  { apply (bits_from_lookup w h); [done|]. intros y' x' Hy' Hx'.
    rewrite Hat by done. eauto. }
  assert (forall y' x', 0 <= y' < h -> 0 <= x' < w ->
            cell g y' x' =
            of_bool (((y' - cy) mod h =? 0) && ((x' - (cx - 1)) mod w <? 3)))
    as Hcell.
  { intros y' x' Hy' Hx'. unfold cell. by rewrite Hat. }
  rewrite (conway_next_ok w h g blinker_dims_ok Hs (bit_valued_u8 g Hb)) by done.
  f_equal. unfold count_spec, neighbor_offsets. cbn [map foldr fst snd].
  rewrite !Hcell by (try done; apply Z.mod_pos_bound; lia).
  rewrite !mod_shift by lia.
  rewrite (mod_recentre_succ y cy h), (mod_recentre_pred x cx w) by lia.
  destruct (line_patterns ((y - cy) mod h) h) as
    (a & b & c & -> & -> & -> & -> & -> & Hrow);
    [lia|apply Z.mod_pos_bound; lia|].
  destruct (bar_patterns ((x - (cx - 1)) mod w) w) as
    (a' & b' & c' & -> & -> & -> & -> & -> & Hcol);
    [lia|apply Z.mod_pos_bound; lia|].
  destruct Hrow as [E|[E|[E|E]]]; injection E as -> -> ->;
    destruct Hcol as [E|[E|[E|[E|[E|E]]]]]; injection E as -> -> ->;
    reflexivity.
Qed.

Lemma vblinker_next (g : Grid) y x :
  vblinker w h cy cx g -> 0 <= y < h -> 0 <= x < w ->
  conway_next w h g y x =
  Some (((y - cy) mod h =? 0) && ((x - (cx - 1)) mod w <? 3)).
Proof.
  intros [Hs Hat] Hy Hx.
  assert (bit_valued g) as Hb.
  { apply (bits_from_lookup w h); [done|]. intros y' x' Hy' Hx'.
    rewrite Hat by done. eauto. }
  assert (forall y' x', 0 <= y' < h -> 0 <= x' < w ->
            cell g y' x' =
            of_bool (((y' - (cy - 1)) mod h <? 3) && ((x' - cx) mod w =? 0)))
    as Hcell.
  { intros y' x' Hy' Hx'. unfold cell. by rewrite Hat. }
  rewrite (conway_next_ok w h g blinker_dims_ok Hs (bit_valued_u8 g Hb)) by done.
  f_equal. unfold count_spec, neighbor_offsets. cbn [map foldr fst snd].
  rewrite !Hcell by (try done; apply Z.mod_pos_bound; lia).
  rewrite !mod_shift by lia.
  rewrite (mod_recentre_pred y cy h), (mod_recentre_succ x cx w) by lia.
  destruct (bar_patterns ((y - (cy - 1)) mod h) h) as
    (a & b & c & -> & -> & -> & -> & -> & Hrow);
    [lia|apply Z.mod_pos_bound; lia|].
  destruct (line_patterns ((x - cx) mod w) w) as
    (a' & b' & c' & -> & -> & -> & -> & -> & Hcol);
    [lia|apply Z.mod_pos_bound; lia|].
  destruct Hrow as [E|[E|[E|[E|[E|E]]]]]; injection E as -> -> ->;
    destruct Hcol as [E|[E|[E|E]]]; injection E as -> -> ->;
    reflexivity.
Qed.

Lemma hblinker_step (g nxt : Grid) :
  hblinker w h cy cx g -> grid_shape w h nxt ->
  exists g', step_conway w h g nxt = Some (g', g) /\ vblinker w h cy cx g'.
Proof.
  intros Hg Hn.
  destruct (step_pass_spec w h (conway_next w h g) g nxt Hn)
    as (new & Hstep & Hs & _ & Hat).
  { intros y x Hy Hx. rewrite hblinker_next by done. eauto. }
  exists new. split; [done|]. split; [done|]. intros y x Hy Hx.
  by rewrite Hat, hblinker_next.
Qed.

Lemma vblinker_step (g nxt : Grid) :
  vblinker w h cy cx g -> grid_shape w h nxt ->
  exists g', step_conway w h g nxt = Some (g', g) /\ hblinker w h cy cx g'.
Proof.
  intros Hg Hn.
  destruct (step_pass_spec w h (conway_next w h g) g nxt Hn)
    as (new & Hstep & Hs & _ & Hat).
  { intros y x Hy Hx. rewrite vblinker_next by done. eauto. }
  exists new. split; [done|]. split; [done|]. intros y x Hy Hx.
  by rewrite Hat, vblinker_next.
Qed.

Lemma hblinker_unique (g g' : Grid) :
  hblinker w h cy cx g -> hblinker w h cy cx g' -> g = g'.
Proof.
  intros [Hs Hat] [Hs' Hat']. apply (grid_shape_ext w h); [done|done|].
  intros y x Hy Hx. by rewrite Hat, Hat'.
Qed.
End Blinker.

(** X6: the blinker has period two.  On a torus of width and height at
    least 5, three live cells in a row, anywhere (also across an edge),
    on an otherwise dead grid become the three cells in a column through
    the middle one after one step, and the second step gives back the
    first grid: after two calls of [step] the buffers [cur] and [nxt]
    hold the row and the column again. *)
Theorem blinker_period_two w h cy cx (g nxt : Grid) :
  5 <= w < 2 ^ 30 -> 5 <= h < 2 ^ 30 ->
  hblinker w h cy cx g -> grid_shape w h nxt ->
  exists g',
    DefaultSequential.step w h g nxt = Some (g', g) /\
    vblinker w h cy cx g' /\
    DefaultSequential.step w h g' g = Some (g, g') /\
    run_steps (DefaultSequential.step w h) 2 g nxt = Some (g, g').
Proof.
  intros Hw Hh Hg Hn. unfold DefaultSequential.step.
  destruct (hblinker_step w h cy cx Hw Hh g nxt Hg Hn) as (g' & Hstep & Hv).
  destruct (vblinker_step w h cy cx Hw Hh g' g Hv) as (g2 & Hstep2 & Hh2).
  { by destruct Hg. }
  assert (g2 = g) as -> by (by apply (hblinker_unique w h cy cx)).
  exists g'. split; [done|]. split; [done|]. split; [done|].
  simpl. rewrite Hstep. simpl. by rewrite Hstep2.
Qed.

Lemma blinker_period_two_witness :
  exists g',
    DefaultSequential.step 5 5
      [[0; 0; 0; 0; 0]; [0; 0; 0; 0; 0]; [1; 0; 0; 1; 1];
       [0; 0; 0; 0; 0]; [0; 0; 0; 0; 0]]
      (uniform_grid 5 5 0)
    = Some (g', [[0; 0; 0; 0; 0]; [0; 0; 0; 0; 0]; [1; 0; 0; 1; 1];
                 [0; 0; 0; 0; 0]; [0; 0; 0; 0; 0]]) /\
    vblinker 5 5 2 4 g' /\
    DefaultSequential.step 5 5 g'
      [[0; 0; 0; 0; 0]; [0; 0; 0; 0; 0]; [1; 0; 0; 1; 1];
       [0; 0; 0; 0; 0]; [0; 0; 0; 0; 0]]
    = Some ([[0; 0; 0; 0; 0]; [0; 0; 0; 0; 0]; [1; 0; 0; 1; 1];
             [0; 0; 0; 0; 0]; [0; 0; 0; 0; 0]], g') /\
    run_steps (DefaultSequential.step 5 5) 2
      [[0; 0; 0; 0; 0]; [0; 0; 0; 0; 0]; [1; 0; 0; 1; 1];
       [0; 0; 0; 0; 0]; [0; 0; 0; 0; 0]]
      (uniform_grid 5 5 0)
    = Some ([[0; 0; 0; 0; 0]; [0; 0; 0; 0; 0]; [1; 0; 0; 1; 1];
             [0; 0; 0; 0; 0]; [0; 0; 0; 0; 0]], g').
Proof.
  apply (blinker_period_two 5 5 2 4); try lia.
  - split; [concrete_shape|]. intros y x Hy Hx.
    assert (y = 0 \/ y = 1 \/ y = 2 \/ y = 3 \/ y = 4)
      as [->|[->|[->|[->| ->]]]] by lia;
      (assert (x = 0 \/ x = 1 \/ x = 2 \/ x = 3 \/ x = 4)
         as [->|[->|[->|[->| ->]]]] by lia);
      reflexivity.
  - concrete_shape.
Defined.

(** ** The random fill *)

Lemma random_row_length draws k row :
  length (random_row draws k row).1 = length row /\
  (random_row draws k row).2 = (k + length row)%nat.
Proof.
  revert k. induction row as [|c row IH]; intros k; simpl; [split; [done|lia]|].
  destruct (IH (S k)) as [-> ->]. split; [done|lia].
Qed.

Lemma random_row_lookup draws k row i :
  (i < length row)%nat ->
  (random_row draws k row).1 !! i = Some (of_bool (draws (k + i)%nat)).
Proof.
  revert k i. induction row as [|c row IH]; intros k i Hi; simpl in *; [lia|].
  destruct i as [|i]; simpl; [by rewrite Nat.add_0_r|].
  rewrite IH by lia. do 3 f_equal. lia.
Qed.

Lemma random_row_ext draws k row row' :
  length row = length row' -> random_row draws k row = random_row draws k row'.
Proof.
  revert k row'. induction row as [|c row IH]; intros k [|c' row'] Hl;
    simpl in *; try done.
  by rewrite (IH (S k) row') by lia.
Qed.

Lemma random_rows_lengths draws k (g : Grid) :
  row_lengths (random_rows draws k g) = row_lengths g.
Proof.
  revert k. induction g as [|row g IH]; intros k; simpl; [done|].
  unfold row_lengths in *. simpl.
  by rewrite (proj1 (random_row_length draws k row)), IH.
Qed.

Lemma random_rows_bits draws k (g : Grid) : bit_valued (random_rows draws k g).
Proof.
  revert k. induction g as [|row g IH]; intros k; simpl; [constructor|].
  constructor; [|apply IH]. clear IH. revert k.
  induction row as [|c row IH]; intros k; simpl; [constructor|].
  constructor; [destruct (draws k); auto|apply IH].
Qed.

Lemma random_rows_ext draws k (g g' : Grid) :
  row_lengths g = row_lengths g' ->
  random_rows draws k g = random_rows draws k g'.
Proof.
  revert k g'. induction g as [|row g IH]; intros k [|row' g'] Hl;
    simpl in *; try done.
  unfold row_lengths in *. simpl in Hl. injection Hl as Hrow Hl.
  rewrite (random_row_ext draws k row row' Hrow). f_equal. by apply IH.
Qed.

Lemma random_rows_lookup draws w (g : Grid) : forall k i j,
  Forall (fun row => length row = w) g ->
  (i < length g)%nat -> (j < w)%nat ->
  random_rows draws k g !! i ≫= (fun row => row !! j) =
  Some (of_bool (draws (k + i * w + j)%nat)).
Proof.
  induction g as [|row g IH]; intros k i j Hw Hi Hj; simpl in *; [lia|].
  apply Forall_cons in Hw as [Hrow Hw].
  destruct i as [|i]; simpl.
  - rewrite random_row_lookup by lia. do 3 f_equal. lia.
  - rewrite (proj2 (random_row_length draws k row)), Hrow.
    rewrite IH by (try done; lia). do 3 f_equal. lia.
Qed.

(** X7: [random_init] overwrites every cell with 0 or 1 and keeps the
    length of every row; what the grid held before does not matter, only
    its row lengths do; and on a grid of [h] rows of [w] cells the cell
    [(y, x)] receives the outcome number [y * w + x] of the generator. *)
Theorem random_init_fills draws (g : Grid) :
  row_lengths (random_init draws g) = row_lengths g /\
  bit_valued (random_init draws g) /\
  (forall g', row_lengths g' = row_lengths g ->
     random_init draws g' = random_init draws g) /\
  (forall w h, grid_shape w h g ->
     grid_shape w h (random_init draws g) /\
     forall y x, 0 <= y < h -> 0 <= x < w ->
       grid_at (random_init draws g) y x =
       Some (of_bool (draws (Z.to_nat (y * w + x))))).
Proof.
  unfold random_init. split; [apply random_rows_lengths|].
  split; [apply random_rows_bits|]. split.
  - intros g' Hl. by apply random_rows_ext.
  - intros w h Hs. split.
    + apply (grid_shape_same_lengths w h g); [apply random_rows_lengths|done].
    + intros y x Hy Hx. destruct Hs as [Hh Hw].
      assert (Forall (fun row : list Z => length row = Z.to_nat w) g) as Hw'
        by (eapply Forall_impl; [exact Hw|]; simpl; lia).
      pose proof (random_rows_lookup draws (Z.to_nat w) g 0
                    (Z.to_nat y) (Z.to_nat x) Hw' ltac:(lia) ltac:(lia)) as Hl.
      replace (Z.to_nat (y * w + x))
        with (0 + Z.to_nat y * Z.to_nat w + Z.to_nat x)%nat
        by (rewrite Z2Nat.inj_add, Z2Nat.inj_mul by nia; lia).
      rewrite <- Hl. unfold grid_at, vec_at.
      destruct (Z.ltb_spec y 0); [lia|].
      destruct (random_rows draws 0 g !! Z.to_nat y) as [row|]; simpl; [|done].
      destruct (Z.ltb_spec x 0); [lia|done].
Qed.

Lemma random_init_fills_witness :
  grid_shape 2 2 (random_init Nat.even [[7; 7]; [7; 7]]) /\
  forall y x, 0 <= y < 2 -> 0 <= x < 2 ->
    grid_at (random_init Nat.even [[7; 7]; [7; 7]]) y x =
    Some (of_bool (Nat.even (Z.to_nat (y * 2 + x)))).
Proof.
  apply (proj2 (proj2 (proj2 (random_init_fills Nat.even [[7; 7]; [7; 7]])))).
  concrete_shape.
Defined.

(** ** The drawing *)

Lemma for_each_append {A C : Type} (f : A -> option C) (gl : C -> ascii)
    (xs : list A) (cs : list C) (out : cstring) :
  Forall2 (fun x c => f x = Some c) xs cs ->
  for_each (fun out x => c ← f x; Some (out ++ [gl c])) xs out =
  Some (out ++ map gl cs).
Proof.
  intros H. revert out. induction H as [|x c xs cs Hx _ IH]; intros out; simpl.
  - by rewrite app_nil_r.
  - rewrite Hx. simpl. rewrite IH. by rewrite <- app_assoc.
Qed.

Lemma for_each_blocks {A R : Type} (F : cstring -> A -> option cstring)
    (block : R -> cstring) (ys : list A) (rows : list R) (out : cstring) :
  Forall2 (fun y row => forall out, F out y = Some (out ++ block row)) ys rows ->
  for_each F ys out = Some (out ++ concat (map block rows)).
Proof.
  intros H. revert out. induction H as [|y row ys rows Hy _ IH]; intros out; simpl.
  - by rewrite app_nil_r.
  - rewrite Hy. simpl. rewrite IH. by rewrite <- app_assoc.
Qed.

Lemma seqZ_cells {A : Type} (f : Z -> option A) (l : list A) :
  (forall i a, l !! i = Some a -> f (Z.of_nat i) = Some a) ->
  Forall2 (fun x a => f x = Some a) (seqZ 0 (Z.of_nat (length l))) l.
Proof.
  intros H. apply Forall2_same_length_lookup. split.
  - rewrite length_seqZ. lia.
  - intros i x a Hx Ha. apply lookup_seqZ in Hx as [-> _].
    rewrite Z.add_0_l. by apply H.
Qed.

Lemma draw_render w h (g : Grid) :
  grid_shape w h g -> draw w h g = Some (render g).
Proof.
  intros [Hh Hw]. unfold draw, render, for_range. rewrite !Z.sub_0_r.
  apply (for_each_blocks _ render_row). rewrite <- Hh.
  apply Forall2_same_length_lookup. split; [rewrite length_seqZ; lia|].
  intros i y row Hy Hrow out. apply lookup_seqZ in Hy as [-> _].
  rewrite Z.add_0_l. rewrite Forall_lookup in Hw.
  specialize (Hw _ _ Hrow). rewrite <- Hw.
  rewrite (for_each_append (fun x => grid_at g (Z.of_nat i) x) glyph _ row).
  - simpl. unfold render_row. by rewrite <- app_assoc.
  - apply (seqZ_cells (fun x => grid_at g (Z.of_nat i) x)).
    intros j c Hc. unfold grid_at, vec_at.
    destruct (Z.ltb_spec (Z.of_nat i) 0); [lia|].
    rewrite (Nat2Z.id i), Hrow. simpl.
    destruct (Z.ltb_spec (Z.of_nat j) 0); [lia|]. by rewrite Nat2Z.id.
Qed.

Lemma render_row_length (row : list Z) :
  length (render_row row) = S (length row).
Proof. unfold render_row. rewrite length_app, length_map. simpl. lia. Qed.

Lemma concat_blocks_inj (k : nat) (l1 l2 : list cstring) :
  Forall (fun b => length b = k) l1 -> Forall (fun b => length b = k) l2 ->
  length l1 = length l2 -> concat l1 = concat l2 -> l1 = l2.
Proof.
  intros H1. revert l2. induction H1 as [|b1 l1 Hb1 _ IH];
    intros [|b2 l2] H2 Hl E; simpl in *; try done.
  apply Forall_cons in H2 as [Hb2 H2].
  apply app_inj_1 in E as [-> E]; [|congruence].
  f_equal. apply IH; auto.
Qed.

Lemma glyph_inj c c' : glyph c = glyph c' -> (c = 0 <-> c' = 0).
Proof.
  unfold glyph. destruct (Z.eqb_spec c 0), (Z.eqb_spec c' 0); try done; tauto.
Qed.

(** X8: [draw] writes the cursor-home sequence and then, row by row, one
    character per cell, ['#'] for a live cell and a blank for a dead one,
    and a newline: [3 + h * (w + 1)] characters.  Two grids that are drawn
    alike have the same live cells, so a frame determines a bit-valued
    grid. *)
Theorem draw_shows_the_grid w h (g g' : Grid) :
  grid_shape w h g -> grid_shape w h g' ->
  draw w h g = Some (render g) /\
  Z.of_nat (length (render g)) = 3 + h * (w + 1) /\
  (draw w h g = draw w h g' ->
   (forall y x, 0 <= y < h -> 0 <= x < w -> (cell g y x = 0 <-> cell g' y x = 0)) /\
   (bit_valued g -> bit_valued g' -> g = g')).
Proof.
  intros Hs Hs'. split; [by apply draw_render|]. split.
  - destruct Hs as [Hh Hw]. unfold render. rewrite length_app. simpl.
    assert (length (concat (map render_row g)) =
            (length g * S (Z.to_nat w))%nat) as ->.
    { clear Hh. induction Hw as [|row g Hrow _ IH]; simpl; [done|].
      rewrite length_app, render_row_length, IH. lia. }
    destruct g as [|row g]; simpl in *; [lia|].
    apply Forall_cons in Hw as [Hrow _]. nia.
  - rewrite (draw_render w h g), (draw_render w h g') by done.
    unfold render. intros [= E].
    assert (Hs0 := Hs). assert (Hs0' := Hs').
    destruct Hs as [Hh Hw], Hs' as [Hh' Hw'].
    apply (concat_blocks_inj (S (Z.to_nat w))) in E.
    2: { apply Forall_fmap. eapply Forall_impl; [exact Hw|].
         intros row Hrow. simpl in *. rewrite render_row_length. lia. }
    2: { apply Forall_fmap. eapply Forall_impl; [exact Hw'|].
         intros row Hrow. simpl in *. rewrite render_row_length. lia. }
    2: { rewrite !length_map. lia. }
    assert (forall y x, 0 <= y < h -> 0 <= x < w ->
              glyph (cell g y x) = glyph (cell g' y x)) as Hgl.
    { intros y x Hy Hx.
      pose proof (grid_at_cell w h g y x Hs0 Hy Hx) as Hc.
      pose proof (grid_at_cell w h g' y x Hs0' Hy Hx) as Hc'.
      unfold grid_at in Hc, Hc'.
      destruct (vec_at g y) as [row|] eqn:Hrow; [|done].
      destruct (vec_at g' y) as [row'|] eqn:Hrow'; [|done].
      simpl in Hc, Hc'.
      apply vec_at_Some in Hrow as [_ Hrow], Hrow' as [_ Hrow'].
      apply vec_at_Some in Hc as [_ Hc], Hc' as [_ Hc'].
      pose proof (f_equal (fun l => l !! Z.to_nat y) E) as Ey. simpl in Ey.
      rewrite !list_lookup_fmap, Hrow, Hrow' in Ey. simpl in Ey.
      injection Ey as Ey. unfold render_row in Ey.
      apply app_inv_tail in Ey.
      pose proof (f_equal (fun l => l !! Z.to_nat x) Ey) as Ex. simpl in Ex.
      rewrite !list_lookup_fmap, Hc, Hc' in Ex. simpl in Ex. congruence. }
    split.
    + intros y x Hy Hx. by apply glyph_inj, Hgl.
    + intros Hb Hb'. apply (grid_shape_ext w h); [done|done|].
      intros y x Hy Hx. rewrite !(grid_at_cell w h) by done. f_equal.
      pose proof (glyph_inj _ _ (Hgl y x Hy Hx)).
      destruct (cell_bit g y x Hb), (cell_bit g' y x Hb'); lia.
Qed.

Lemma draw_shows_the_grid_witness :
  draw 3 2 [[0; 1; 0]; [1; 1; 0]] = Some (render [[0; 1; 0]; [1; 1; 0]]) /\
  Z.of_nat (length (render [[0; 1; 0]; [1; 1; 0]])) = 3 + 2 * (3 + 1).
Proof.
  destruct (draw_shows_the_grid 3 2 [[0; 1; 0]; [1; 1; 0]]
              [[0; 1; 0]; [1; 1; 0]]) as (Hdraw & Hlen & _).
  - concrete_shape.
  - concrete_shape.
  - by split.
Defined.

(** ** The first sequential program *)

Lemma vblinker_unique w h cy cx (g g' : Grid) :
  vblinker w h cy cx g -> vblinker w h cy cx g' -> g = g'.
Proof.
  intros [Hs Hat] [Hs' Hat']. apply (grid_shape_ext w h); [done|done|].
  intros y x Hy Hx. by rewrite Hat, Hat'.
Qed.

Lemma manual_init_blinker :
  exists g0,
    FixedProgram.manual_init (uniform_grid 80 24 0) = Some g0 /\
    hblinker 80 24 10 41 g0.
Proof.
  assert (grid_shape 80 24 (uniform_grid 80 24 0)) as Hs0
    by (apply uniform_grid_shape; lia).
  unfold FixedProgram.manual_init.
  destruct (grid_set_Some (uniform_grid 80 24 0) 10 40 1)
    as (g1 & -> & Hl1 & Hat1).
  { apply (in_grid_shape 80 24); [done|lia]. }
  pose proof (grid_shape_same_lengths 80 24 _ g1 Hl1 Hs0) as Hs1. simpl.
  destruct (grid_set_Some g1 10 41 1) as (g2 & -> & Hl2 & Hat2).
  { apply (in_grid_shape 80 24); [done|lia]. }
  pose proof (grid_shape_same_lengths 80 24 _ g2 Hl2 Hs1) as Hs2. simpl.
  destruct (grid_set_Some g2 10 42 1) as (g3 & -> & Hl3 & Hat3).
  { apply (in_grid_shape 80 24); [done|lia]. }
  pose proof (grid_shape_same_lengths 80 24 _ g3 Hl3 Hs2) as Hs3.
  exists g3. split; [done|]. split; [done|]. intros y x Hy Hx.
  rewrite Hat3, Hat2, Hat1, grid_at_uniform by lia.
  assert (((y - 10) mod 24 =? 0) = (y =? 10)) as ->.
  { destruct (Z.eqb_spec ((y - 10) mod 24) 0), (Z.eqb_spec y 10);
      try done; exfalso; Z.div_mod_to_equations; lia. }
  assert (((x - (41 - 1)) mod 80 <? 3) = (40 <=? x) && (x <=? 42)) as ->.
  { destruct (Z.ltb_spec ((x - (41 - 1)) mod 80) 3), (Z.leb_spec 40 x),
      (Z.leb_spec x 42); try done; exfalso; Z.div_mod_to_equations; lia. }
  repeat case_bool_decide;
    destruct (Z.eqb_spec y 10), (Z.leb_spec 40 x), (Z.leb_spec x 42);
    try done; exfalso; lia.
Qed.

Lemma fixed_loop_blinks (g0 g1 : Grid) :
  hblinker 80 24 10 41 g0 -> vblinker 80 24 10 41 g1 ->
  forall n k nxt tr,
    grid_shape 80 24 nxt ->
    FixedProgram.loop n (if Nat.even k then g0 else g1) nxt tr =
    (tr ++ frames (map (fun i => if Nat.even i then g0 else g1) (seq k n)), None).
Proof.
  intros H0 H1. induction n as [|n IH]; intros k nxt tr Hn; simpl.
  - by rewrite app_nil_r.
  - unfold FixedSequential.step, FixedSequential.kWidth, FixedSequential.kHeight.
    assert (step_conway 80 24 (if Nat.even k then g0 else g1) nxt =
            Some (if Nat.even (S k) then g0 else g1,
                  if Nat.even k then g0 else g1)) as ->.
    { rewrite Nat.even_succ, <- Nat.negb_even.
      destruct (Nat.even k); simpl.
      - destruct (hblinker_step 80 24 10 41 ltac:(lia) ltac:(lia) g0 nxt H0 Hn)
          as (g' & -> & Hv).
        by rewrite (vblinker_unique 80 24 10 41 g' g1).
      - destruct (vblinker_step 80 24 10 41 ltac:(lia) ltac:(lia) g1 nxt H1 Hn)
          as (g' & -> & Hh).
        by rewrite (hblinker_unique 80 24 10 41 g' g0). }
    rewrite IH.
    + by rewrite <- app_assoc.
    + destruct (Nat.even k); [by destruct H0|by destruct H1].
Qed.

(** X9: the first sequential program shows a blinker for ever.
    [manual_init] puts three live cells in row 10, columns 40 to 42, of
    the dead 80 x 24 grid; every round of the endless loop draws the grid
    and steps it, the frames alternate between this row and the column of
    three through its middle, no step is undefined, and the program never
    returns. *)
Theorem fixed_program_blinks :
  exists g0 g1,
    FixedProgram.manual_init (uniform_grid 80 24 0) = Some g0 /\
    hblinker 80 24 10 41 g0 /\ vblinker 80 24 10 41 g1 /\
    forall n,
      FixedProgram.main n =
      (ClearScreen ::
         frames (map (fun i => if Nat.even i then g0 else g1) (seq 0 n)),
       None).
Proof.
  destruct manual_init_blinker as (g0 & Hinit & H0).
  destruct (hblinker_step 80 24 10 41 ltac:(lia) ltac:(lia) g0
              (uniform_grid 80 24 0) H0) as (g1 & _ & H1).
  { apply uniform_grid_shape; lia. }
  exists g0, g1. split; [done|]. split; [done|]. split; [done|].
  intros n. unfold FixedProgram.main, FixedSequential.kWidth,
    FixedSequential.kHeight. rewrite Hinit.
  rewrite (fixed_loop_blinks g0 g1 H0 H1 n 0); [done|].
  apply uniform_grid_shape; lia.
Qed.

(** ** Whole runs of [main] *)

Section Runs.
Variable Prob : Type.
Variable step : Z -> Z -> Grid -> Grid -> option (Grid * Grid).
Variable c : config Prob.
Variables P Q : Grid -> Prop.
Hypothesis Hstep : forall cur nxt, P cur -> Q nxt ->
  exists new, step (gWidth c) (gHeight c) cur nxt = Some (new, cur) /\ P new.
Hypothesis HPQ : forall g, P g -> Q g.

Lemma generations_spec n : forall cur nxt,
  P cur -> Q nxt ->
  length (generations (step (gWidth c) (gHeight c)) n cur nxt) = n /\
  Forall P (generations (step (gWidth c) (gHeight c)) n cur nxt).
Proof.
  induction n as [|n IH]; intros cur nxt HP HQ; simpl; [by split|].
  destruct (Hstep cur nxt HP HQ) as (new & -> & HPn). simpl.
  destruct (IH new cur HPn (HPQ cur HP)) as [-> HF]. by split; [|constructor].
Qed.

Lemma benchmark_loop_spec todo : forall cur nxt tr,
  P cur -> Q nxt ->
  benchmark_loop Prob step c todo cur nxt tr =
  match report_cells Prob c with
  | Some _ =>
      {| trace := tr ++ map StepCall
                          (generations (step (gWidth c) (gHeight c)) todo cur nxt)
                     ++ [Report (steps c)];
         result := Exit 0 |}
  | None =>
      {| trace := tr ++ map StepCall
                          (generations (step (gWidth c) (gHeight c)) todo cur nxt);
         result := Crash |}
  end.
Proof.
  induction todo as [|todo IH]; intros cur nxt tr HP HQ; simpl.
  - destruct (report_cells Prob c); [done|]. by rewrite app_nil_r.
  - destruct (Hstep cur nxt HP HQ) as (new & -> & HPn). simpl.
    rewrite IH by auto. destruct (report_cells Prob c); by rewrite <- app_assoc.
Qed.

(** With positive factors the product of the report is defined exactly
    when [steps * gWidth * gHeight] fits an [int]. *)
Lemma report_cells_spec :
  0 < steps c -> 0 < gWidth c -> 0 < gHeight c ->
  report_cells Prob c =
  if steps c * gWidth c * gHeight c <=? INT_MAX
  then Some (steps c * gWidth c * gHeight c) else None.
Proof.
  intros Hs Hw Hh. unfold report_cells, int_mul, in_int, INT_MIN.
  assert (steps c * gWidth c <= steps c * gWidth c * gHeight c) by nia.
  assert (0 < steps c * gWidth c) by nia.
  destruct (Z.leb_spec (steps c * gWidth c * gHeight c) INT_MAX) as [Hle|Hgt].
  - destruct (Z.leb_spec (- 2 ^ 31) (steps c * gWidth c)); [|lia].
    destruct (Z.leb_spec (steps c * gWidth c) INT_MAX); [|lia]. simpl.
    destruct (Z.leb_spec (- 2 ^ 31) (steps c * gWidth c * gHeight c)); [|lia].
    destruct (Z.leb_spec (steps c * gWidth c * gHeight c) INT_MAX); [|lia]. done.
  - destruct (Z.leb_spec (- 2 ^ 31) (steps c * gWidth c)); [|lia].
    destruct (Z.leb_spec (steps c * gWidth c) INT_MAX); simpl; [|done].
    destruct (Z.leb_spec (- 2 ^ 31) (steps c * gWidth c * gHeight c)); [|lia].
    destruct (Z.leb_spec (steps c * gWidth c * gHeight c) INT_MAX); [lia|]. done.
Qed.

Lemma interactive_loop_finite fuel : forall iter cur nxt tr,
  draw_enabled c = true -> 0 <= iter <= steps c -> steps c <= INT_MAX ->
  (Z.to_nat (steps c - iter) <= fuel)%nat ->
  P cur -> Q nxt ->
  interactive_loop Prob step fuel c iter cur nxt tr =
  Some {| trace := tr ++ frames (generations (step (gWidth c) (gHeight c))
                                   (Z.to_nat (steps c - iter)) cur nxt);
          result := Exit 0 |}.
Proof.
  induction fuel as [|fuel IH]; intros iter cur nxt tr Hdraw Hiter Hmax Hfuel HP HQ.
  - assert (iter = steps c) as -> by lia. simpl.
    destruct (Z.ltb_spec (steps c) 0); [lia|].
    destruct (Z.ltb_spec (steps c) (steps c)); [lia|]. simpl.
    rewrite Z.sub_diag. simpl. by rewrite app_nil_r.
  - simpl. destruct (Z.ltb_spec (steps c) 0); [lia|].
    destruct (Z.ltb_spec iter (steps c)) as [Hlt|Hge]; simpl.
    + rewrite Hdraw.
      destruct (Hstep cur nxt HP HQ) as (new & Hst & HPn). rewrite Hst.
      rewrite int_add_in_range by (unfold INT_MIN, INT_MAX in *; lia).
      rewrite IH by (auto; lia).
      replace (Z.to_nat (steps c - iter))
        with (S (Z.to_nat (steps c - (iter + 1)))) by lia.
      simpl. rewrite Hst. simpl. by rewrite <- !app_assoc.
    + assert (iter = steps c) as -> by lia.
      rewrite Z.sub_diag. simpl. by rewrite app_nil_r.
Qed.

Lemma interactive_loop_endless fuel : forall iter cur nxt tr,
  steps c < 0 -> 0 <= iter <= INT_MAX -> P cur -> Q nxt ->
  (Z.of_nat fuel + iter <= INT_MAX ->
   interactive_loop Prob step fuel c iter cur nxt tr = None) /\
  (INT_MAX < Z.of_nat fuel + iter ->
   exists tr', interactive_loop Prob step fuel c iter cur nxt tr =
               Some {| trace := tr'; result := Crash |}).
Proof.
  induction fuel as [|fuel IH]; intros iter cur nxt tr Hneg Hiter HP HQ; simpl;
    destruct (Z.ltb_spec (steps c) 0); try lia; simpl.
  - split; [done|lia].
  - destruct (Hstep cur nxt HP HQ) as (new & -> & HPn).
    unfold int_add, in_int, INT_MIN.
    destruct (Z.leb_spec (- 2 ^ 31) (iter + 1)); [|lia]. simpl.
    destruct (Z.leb_spec (iter + 1) INT_MAX) as [Hle|Hgt].
    + assert (0 <= iter + 1 <= INT_MAX) as Hiter' by lia.
      split; intros Hf; destruct (draw_enabled c).
      * apply (proj1 (IH (iter + 1) new cur _ Hneg Hiter' HPn (HPQ cur HP))). lia.
      * apply (proj1 (IH (iter + 1) new cur _ Hneg Hiter' HPn (HPQ cur HP))). lia.
      * apply (proj2 (IH (iter + 1) new cur _ Hneg Hiter' HPn (HPQ cur HP))). lia.
      * apply (proj2 (IH (iter + 1) new cur _ Hneg Hiter' HPn (HPQ cur HP))). lia.
    + split; [lia|]. intros _. eauto.
Qed.
End Runs.

Section WholeRuns.
Variable Prob : Type.
Variable default_prob : Prob.
Variable stod : cstring -> option Prob.
Variable stoi : cstring -> option Z.
Variable draws : nat -> bool.
Variable step : Z -> Z -> Grid -> Grid -> option (Grid * Grid).
Variable has_threads : bool.
Variable argv : list cstring.
Variable c : config Prob.
Hypothesis Hargs :
  parse_args Prob stod stoi has_threads (tail argv)
    (default_config Prob default_prob) = Some c.
Hypothesis Hdims : dims_ok (gWidth c) (gHeight c).
Hypothesis Hstep : forall cur nxt,
  grid_shape (gWidth c) (gHeight c) cur /\ bit_valued cur ->
  grid_shape (gWidth c) (gHeight c) nxt ->
  exists new, step (gWidth c) (gHeight c) cur nxt = Some (new, cur) /\
    (grid_shape (gWidth c) (gHeight c) new /\ bit_valued new).

Lemma first_buffers_ok :
  (grid_shape (gWidth c) (gHeight c) (random_init draws (uniform_grid (gWidth c) (gHeight c) 0)) /\ bit_valued (random_init draws (uniform_grid (gWidth c) (gHeight c) 0))) /\
  grid_shape (gWidth c) (gHeight c) (uniform_grid (gWidth c) (gHeight c) 0).
Proof.
  destruct Hdims as [Hw Hh].
  assert (grid_shape (gWidth c) (gHeight c) (uniform_grid (gWidth c) (gHeight c) 0)) as Hs
    by (apply uniform_grid_shape; lia).
  split; [|done]. split.
  - apply (grid_shape_same_lengths _ _ (uniform_grid (gWidth c) (gHeight c) 0)); [|done].
    apply random_rows_lengths.
  - apply random_rows_bits.
Qed.

Lemma life_main_valid fuel :
  life_main Prob default_prob stod stoi (fun g _ => random_init draws g) step
    has_threads fuel argv =
  if negb (draw_enabled c) && (0 <? steps c) then
    Some (benchmark_loop Prob step c (Z.to_nat (steps c)) (random_init draws (uniform_grid (gWidth c) (gHeight c) 0)) (uniform_grid (gWidth c) (gHeight c) 0)
            (if draw_enabled c then [ClearScreen] else []))
  else interactive_loop Prob step fuel c 0 (random_init draws (uniform_grid (gWidth c) (gHeight c) 0)) (uniform_grid (gWidth c) (gHeight c) 0)
         (if draw_enabled c then [ClearScreen] else []).
Proof.
  unfold life_main. rewrite Hargs. unfold main_body.
  destruct Hdims as [Hw Hh].
  destruct (Z.leb_spec (gWidth c) 0); [lia|].
  destruct (Z.leb_spec (gHeight c) 0); [lia|]. done.
Qed.

Lemma life_main_benchmark fuel :
  draw_enabled c = false -> 0 < steps c ->
  life_main Prob default_prob stod stoi (fun g _ => random_init draws g) step
    has_threads fuel argv =
  Some (if steps c * gWidth c * gHeight c <=? INT_MAX then
          {| trace := map StepCall
                        (generations (step (gWidth c) (gHeight c))
                           (Z.to_nat (steps c)) (random_init draws (uniform_grid (gWidth c) (gHeight c) 0)) (uniform_grid (gWidth c) (gHeight c) 0))
                      ++ [Report (steps c)];
             result := Exit 0 |}
        else
          {| trace := map StepCall
                        (generations (step (gWidth c) (gHeight c))
                           (Z.to_nat (steps c)) (random_init draws (uniform_grid (gWidth c) (gHeight c) 0)) (uniform_grid (gWidth c) (gHeight c) 0));
             result := Crash |}) /\
  length (generations (step (gWidth c) (gHeight c))
            (Z.to_nat (steps c)) (random_init draws (uniform_grid (gWidth c) (gHeight c) 0)) (uniform_grid (gWidth c) (gHeight c) 0)) = Z.to_nat (steps c) /\
  Forall (fun g => grid_shape (gWidth c) (gHeight c) g /\ bit_valued g)
    (generations (step (gWidth c) (gHeight c))
       (Z.to_nat (steps c)) (random_init draws (uniform_grid (gWidth c) (gHeight c) 0)) (uniform_grid (gWidth c) (gHeight c) 0)).
Proof.
  intros Hdraw Hsteps. destruct first_buffers_ok as [HP HQ].
  rewrite life_main_valid, Hdraw. simpl.
  destruct (Z.ltb_spec 0 (steps c)); [|lia].
  rewrite (benchmark_loop_spec Prob step c _ _ Hstep) by (try done; tauto).
  rewrite report_cells_spec by (unfold dims_ok in Hdims; lia).
  split; [by destruct (_ <=? INT_MAX)|].
  apply (generations_spec Prob step c _ _ Hstep); try done; tauto.
Qed.

Lemma life_main_interactive fuel :
  draw_enabled c = true -> 0 <= steps c -> steps c <= INT_MAX ->
  (Z.to_nat (steps c) <= fuel)%nat ->
  life_main Prob default_prob stod stoi (fun g _ => random_init draws g) step
    has_threads fuel argv =
  Some {| trace := ClearScreen ::
                   frames (generations (step (gWidth c) (gHeight c))
                             (Z.to_nat (steps c)) (random_init draws (uniform_grid (gWidth c) (gHeight c) 0)) (uniform_grid (gWidth c) (gHeight c) 0));
          result := Exit 0 |}.
Proof.
  intros Hdraw Hsteps Hmax Hfuel. destruct first_buffers_ok as [HP HQ].
  rewrite life_main_valid, Hdraw. simpl.
  rewrite (interactive_loop_finite Prob step c _ _ Hstep)
    by (try done; try tauto; rewrite ?Z.sub_0_r; lia).
  by rewrite Z.sub_0_r.
Qed.

Lemma life_main_endless fuel :
  steps c < 0 ->
  (Z.of_nat fuel <= INT_MAX ->
   life_main Prob default_prob stod stoi (fun g _ => random_init draws g) step
     has_threads fuel argv = None) /\
  (INT_MAX < Z.of_nat fuel ->
   exists tr,
     life_main Prob default_prob stod stoi (fun g _ => random_init draws g) step
       has_threads fuel argv = Some {| trace := tr; result := Crash |}).
Proof.
  intros Hneg. destruct first_buffers_ok as [HP HQ].
  rewrite life_main_valid.
  destruct (Z.ltb_spec 0 (steps c)); [lia|]. rewrite andb_false_r.
  destruct (interactive_loop_endless Prob step c _ _ Hstep
              ltac:(tauto) fuel 0 (random_init draws (uniform_grid (gWidth c) (gHeight c) 0)) (uniform_grid (gWidth c) (gHeight c) 0)
              (if draw_enabled c then [ClearScreen] else [])
              Hneg ltac:(unfold INT_MAX; lia) HP HQ) as [Hnone Hcrash].
  split; intros Hf; [apply Hnone|apply Hcrash]; lia.
Qed.
End WholeRuns.

Lemma conway_step_invariant w h :
  dims_ok w h ->
  forall cur nxt, grid_shape w h cur /\ bit_valued cur -> grid_shape w h nxt ->
    exists new, DefaultSequential.step w h cur nxt = Some (new, cur) /\
      (grid_shape w h new /\ bit_valued new).
Proof.
  intros Hd cur nxt [Hs Hb] Hn.
  destruct (step_conway_defined w h cur nxt Hd Hs Hn (bit_valued_u8 _ Hb))
    as (new & Hst & Hsn & Hbn).
  exists new. auto.
Qed.

Lemma invert_step_invariant w h :
  dims_ok w h ->
  forall cur nxt, grid_shape w h cur /\ bit_valued cur -> grid_shape w h nxt ->
    exists new, InvertAmaze.step w h cur nxt = Some (new, cur) /\
      (grid_shape w h new /\ bit_valued new).
Proof.
  intros Hd cur nxt [Hs Hb] Hn.
  destruct (step_tables_defined w h InvertAmaze.B InvertAmaze.S cur nxt
              Hd Hs Hn Hb eq_refl eq_refl) as (new & Hst & Hsn & Hbn).
  exists new. auto.
Qed.

(** X10: the benchmark mode.  With [--no-draw], a positive [--steps n]
    and dimensions that pass the check, both programs fill the grid at
    random and call [step] exactly [n] times on the successive generations;
    every generation is a bit-valued grid of the configured size, so no
    step of the run is undefined, whatever the random fill.  Then, when the
    [int] product [steps * gWidth * gHeight] of the report fits an [int],
    they print the report and return 0; when it does not, the product
    overflows and the end of the run is undefined. *)
Theorem benchmark_run {Prob : Type} (default_prob : Prob) stod stoi draws
    fuel argv (c : config Prob) :
  dims_ok (gWidth c) (gHeight c) -> draw_enabled c = false -> 0 < steps c ->
  let nxt0 := uniform_grid (gWidth c) (gHeight c) 0 in
  let cur0 := random_init draws nxt0 in
  (parse_args Prob stod stoi false (tail argv)
     (default_config Prob default_prob) = Some c ->
   let gens := generations (DefaultSequential.step (gWidth c) (gHeight c))
                 (Z.to_nat (steps c)) cur0 nxt0 in
   DefaultSequential.main default_prob stod stoi
     (fun g _ => random_init draws g) fuel argv =
   Some (if steps c * gWidth c * gHeight c <=? INT_MAX then
           {| trace := map StepCall gens ++ [Report (steps c)];
              result := Exit 0 |}
         else {| trace := map StepCall gens; result := Crash |}) /\
   length gens = Z.to_nat (steps c) /\
   Forall (fun g => grid_shape (gWidth c) (gHeight c) g /\ bit_valued g) gens) /\
  (parse_args Prob stod stoi true (tail argv)
     (default_config Prob default_prob) = Some c ->
   let gens := generations (InvertAmaze.step (gWidth c) (gHeight c))
                 (Z.to_nat (steps c)) cur0 nxt0 in
   InvertAmaze.main default_prob stod stoi
     (fun g _ => random_init draws g) fuel argv =
   Some (if steps c * gWidth c * gHeight c <=? INT_MAX then
           {| trace := map StepCall gens ++ [Report (steps c)];
              result := Exit 0 |}
         else {| trace := map StepCall gens; result := Crash |}) /\
   length gens = Z.to_nat (steps c) /\
   Forall (fun g => grid_shape (gWidth c) (gHeight c) g /\ bit_valued g) gens).
Proof.
  intros Hd Hdraw Hsteps nxt0 cur0. split; intros Hargs gens.
  - apply (life_main_benchmark Prob default_prob stod stoi draws
             DefaultSequential.step false argv c Hargs Hd
             (conway_step_invariant _ _ Hd) fuel Hdraw Hsteps).
  - apply (life_main_benchmark Prob default_prob stod stoi draws
             InvertAmaze.step true argv c Hargs Hd
             (invert_step_invariant _ _ Hd) fuel Hdraw Hsteps).
Qed.

Lemma benchmark_run_witness :
  (let nxt0 := uniform_grid 4 3 0 in
   let cur0 := random_init Nat.even nxt0 in
   let gens := generations (InvertAmaze.step 4 3) 3 cur0 nxt0 in
   InvertAmaze.main tt (fun _ => Some tt) stoi_dec
     (fun g _ => random_init Nat.even g) 0
     [lit "life"; lit "--no-draw"; lit "--steps"; lit "3"; lit "--width";
      lit "4"; lit "--height"; lit "3"; lit "--threads"; lit "2"] =
   Some {| trace := map StepCall gens ++ [Report 3]; result := Exit 0 |} /\
   length gens = 3%nat /\
   Forall (fun g => grid_shape 4 3 g /\ bit_valued g) gens) /\
  (let nxt0 := uniform_grid 2000 2000 0 in
   let cur0 := random_init Nat.even nxt0 in
   let gens := generations (DefaultSequential.step 2000 2000)
                 (Z.to_nat 1000) cur0 nxt0 in
   DefaultSequential.main tt (fun _ => Some tt) stoi_dec
     (fun g _ => random_init Nat.even g) 0
     [lit "life"; lit "--no-draw"; lit "--steps"; lit "1000"; lit "--width";
      lit "2000"; lit "--height"; lit "2000"] =
   Some {| trace := map StepCall gens; result := Crash |}).
Proof.
  split.
  - intros nxt0 cur0 gens.
    apply (proj2 (benchmark_run tt (fun _ => Some tt) stoi_dec Nat.even 0
                    [lit "life"; lit "--no-draw"; lit "--steps"; lit "3";
                     lit "--width"; lit "4"; lit "--height"; lit "3";
                     lit "--threads"; lit "2"]
                    {| draw_enabled := false; steps := 3; prob := tt;
                       gWidth := 4; gHeight := 3; threads := 2 |}
                    ltac:(unfold dims_ok; simpl; lia) eq_refl eq_refl)).
    reflexivity.
  - intros nxt0 cur0 gens.
    pose proof (proj1 (benchmark_run tt (fun _ => Some tt) stoi_dec Nat.even 0
                    [lit "life"; lit "--no-draw"; lit "--steps"; lit "1000";
                     lit "--width"; lit "2000"; lit "--height"; lit "2000"]
                    {| draw_enabled := false; steps := 1000; prob := tt;
                       gWidth := 2000; gHeight := 2000; threads := -1 |}
                    ltac:(unfold dims_ok; simpl; lia) eq_refl eq_refl)
                  eq_refl) as [Hrun _].
    exact Hrun.
Defined.

(** X11: the animation with a bound.  With drawing on and [--steps n],
    [n >= 0], both programs clear the screen, then draw and step the
    successive generations [n] times and return 0. *)
Theorem animation_run {Prob : Type} (default_prob : Prob) stod stoi draws
    fuel argv (c : config Prob) :
  dims_ok (gWidth c) (gHeight c) -> draw_enabled c = true ->
  0 <= steps c <= INT_MAX -> (Z.to_nat (steps c) <= fuel)%nat ->
  let nxt0 := uniform_grid (gWidth c) (gHeight c) 0 in
  let cur0 := random_init draws nxt0 in
  (parse_args Prob stod stoi false (tail argv)
     (default_config Prob default_prob) = Some c ->
   DefaultSequential.main default_prob stod stoi
     (fun g _ => random_init draws g) fuel argv =
   Some {| trace := ClearScreen ::
             frames (generations (DefaultSequential.step (gWidth c) (gHeight c))
                       (Z.to_nat (steps c)) cur0 nxt0);
           result := Exit 0 |}) /\
  (parse_args Prob stod stoi true (tail argv)
     (default_config Prob default_prob) = Some c ->
   InvertAmaze.main default_prob stod stoi
     (fun g _ => random_init draws g) fuel argv =
   Some {| trace := ClearScreen ::
             frames (generations (InvertAmaze.step (gWidth c) (gHeight c))
                       (Z.to_nat (steps c)) cur0 nxt0);
           result := Exit 0 |}).
Proof.
  intros Hd Hdraw [Hsteps Hmax] Hfuel nxt0 cur0. split; intros Hargs.
  - apply (life_main_interactive Prob default_prob stod stoi draws
             DefaultSequential.step false argv c Hargs Hd
             (conway_step_invariant _ _ Hd) fuel Hdraw Hsteps Hmax Hfuel).
  - apply (life_main_interactive Prob default_prob stod stoi draws
             InvertAmaze.step true argv c Hargs Hd
             (invert_step_invariant _ _ Hd) fuel Hdraw Hsteps Hmax Hfuel).
Qed.

Lemma animation_run_witness :
  DefaultSequential.main tt (fun _ => Some tt) stoi_dec
    (fun g _ => random_init Nat.even g) 2
    [lit "life"; lit "--steps"; lit "2"; lit "--width"; lit "4"] =
  Some {| trace := ClearScreen ::
            frames (generations (DefaultSequential.step 4 24) 2
                      (random_init Nat.even (uniform_grid 4 24 0))
                      (uniform_grid 4 24 0));
          result := Exit 0 |}.
Proof.
  apply (proj1 (animation_run tt (fun _ => Some tt) stoi_dec Nat.even 2
                  [lit "life"; lit "--steps"; lit "2"; lit "--width"; lit "4"]
                  {| draw_enabled := true; steps := 2; prob := tt;
                     gWidth := 4; gHeight := 24; threads := -1 |}
                  ltac:(unfold dims_ok; simpl; lia) eq_refl
                  ltac:(unfold INT_MAX; simpl; lia) ltac:(simpl; lia))).
  reflexivity.
Defined.

(** X12: the endless mode.  Without [--steps] (or with a negative one) the
    loop has no exit: after any number of rounds up to [2^31 - 1] both
    programs are still running, and they never return normally; in the
    round after that the increment of the [int] counter [iter] overflows. *)
Theorem endless_run {Prob : Type} (default_prob : Prob) stod stoi draws
    fuel argv (c : config Prob) :
  dims_ok (gWidth c) (gHeight c) -> steps c < 0 ->
  (parse_args Prob stod stoi false (tail argv)
     (default_config Prob default_prob) = Some c ->
   (Z.of_nat fuel <= INT_MAX ->
    DefaultSequential.main default_prob stod stoi
      (fun g _ => random_init draws g) fuel argv = None) /\
   (INT_MAX < Z.of_nat fuel ->
    exists tr,
      DefaultSequential.main default_prob stod stoi
        (fun g _ => random_init draws g) fuel argv =
      Some {| trace := tr; result := Crash |})) /\
  (parse_args Prob stod stoi true (tail argv)
     (default_config Prob default_prob) = Some c ->
   (Z.of_nat fuel <= INT_MAX ->
    InvertAmaze.main default_prob stod stoi
      (fun g _ => random_init draws g) fuel argv = None) /\
   (INT_MAX < Z.of_nat fuel ->
    exists tr,
      InvertAmaze.main default_prob stod stoi
        (fun g _ => random_init draws g) fuel argv =
      Some {| trace := tr; result := Crash |})).
Proof.
  intros Hd Hneg. split; intros Hargs.
  - apply (life_main_endless Prob default_prob stod stoi draws
             DefaultSequential.step false argv c Hargs Hd
             (conway_step_invariant _ _ Hd) fuel Hneg).
  - apply (life_main_endless Prob default_prob stod stoi draws
             InvertAmaze.step true argv c Hargs Hd
             (invert_step_invariant _ _ Hd) fuel Hneg).
Qed.

Lemma endless_run_witness :
  DefaultSequential.main tt (fun _ => Some tt) stoi_dec
    (fun g _ => random_init Nat.even g) 1000 [lit "life"] = None.
Proof.
  apply (proj1 (endless_run tt (fun _ => Some tt) stoi_dec Nat.even 1000
                  [lit "life"]
                  {| draw_enabled := true; steps := -1; prob := tt;
                     gWidth := 80; gHeight := 24; threads := -1 |}
                  ltac:(unfold dims_ok; simpl; lia) ltac:(simpl; lia))).
  - reflexivity.
  - unfold INT_MAX. lia.
Defined.

(** ** More on the rulestring parser *)

Lemma digit_char_facts n :
  (n < 9)%nat ->
  (code "0" <=? code (digit_char n)) && (code (digit_char n) <=? code "8") = true /\
  Z.to_nat (code (digit_char n) - code "0") = n /\
  is_marker (digit_char n) = false /\
  kept (digit_char n) = true /\
  bool_decide (digit_char n ∈ lit "Bb") = false /\
  bool_decide (digit_char n ∈ lit "Ss") = false.
Proof.
  intros Hn.
  do 9 (destruct n as [|n]; [vm_compute; repeat split; reflexivity|]). lia.
Qed.

Lemma valid_digit_char c :
  (code "0" <=? code c) && (code c <=? code "8") = true ->
  c = digit_char (Z.to_nat (code c - code "0")) /\
  (Z.to_nat (code c - code "0") < 9)%nat.
Proof.
  destruct c as [[] [] [] [] [] [] [] []]; intros H; try discriminate H;
    (split; [reflexivity|vm_compute; lia]).
Qed.

Lemma fill_char_valid st c :
  (code "0" <=? code c) && (code c <=? code "8") = true ->
  fill_char st c =
  {| arr := <[Z.to_nat (code c - code "0") := 1]> (arr st);
     invalidFound := invalidFound st; invalidChars := invalidChars st |}.
Proof. intros H. unfold fill_char. by rewrite H. Qed.

Lemma fill_char_other st c :
  (code "0" <=? code c) && (code c <=? code "8") = false ->
  arr (fill_char st c) = arr st.
Proof.
  intros H. unfold fill_char. rewrite H.
  by repeat match goal with
    | |- context [if ?b then _ else _] =>
        lazymatch b with
        | bool_decide _ => fail
        | _ => destruct b
        end
    end.
Qed.

Lemma entry_insert (t : list Z) (i n : nat) :
  (i < length t)%nat ->
  entry (<[i := 1]> t) (Z.of_nat n) =
  if bool_decide (n = i) then 1 else entry t (Z.of_nat n).
Proof.
  intros Hi. unfold entry, vec_at.
  destruct (Z.ltb_spec (Z.of_nat n) 0); [lia|]. rewrite Nat2Z.id.
  case_bool_decide as E.
  - subst. by rewrite list_lookup_insert_eq.
  - by rewrite list_lookup_insert_ne.
Qed.

(** The table after a section scan: the digits of the section are set. *)
Lemma fill_loop_entry s : forall st n,
  length (arr st) = 9%nat -> (n < 9)%nat ->
  entry (arr (fill_loop s st)) (Z.of_nat n) =
  if bool_decide (digit_char n ∈ until_marker s) then 1
  else entry (arr st) (Z.of_nat n).
Proof.
  induction s as [|c s IH]; intros st n Hlen Hn; cbn [fill_loop until_marker].
  - rewrite bool_decide_eq_false_2; [done|]. apply not_elem_of_nil.
  - destruct (is_marker c) eqn:Em.
    { rewrite bool_decide_eq_false_2; [done|]. apply not_elem_of_nil. }
    destruct ((code "0" <=? code c) && (code c <=? code "8")) eqn:Ev.
    + destruct (valid_digit_char c Ev) as [Ec Hc].
      assert (length (arr (fill_char st c)) = 9%nat) as Hlen'.
      { rewrite (fill_char_valid st c Ev). cbn [arr].
        rewrite length_insert. exact Hlen. }
      rewrite (IH _ n Hlen' Hn), (fill_char_valid st c Ev). cbn [arr].
      rewrite entry_insert by lia.
      destruct (decide (digit_char n ∈ until_marker s)) as [Hin|Hin].
      * rewrite !bool_decide_eq_true_2; [reflexivity| |exact Hin].
        right. exact Hin.
      * rewrite (bool_decide_eq_false_2 _ Hin).
        destruct (decide (n = Z.to_nat (code c - code "0"))) as [->|Hne].
        -- rewrite !bool_decide_eq_true_2; [reflexivity| |reflexivity].
           rewrite <- Ec. left.
        -- rewrite !bool_decide_eq_false_2; [reflexivity| |exact Hne].
           intros [E|Hin']%elem_of_cons; [|exact (Hin Hin')]. apply Hne.
           rewrite <- E. symmetry.
           exact (proj1 (proj2 (digit_char_facts n Hn))).
    + assert (length (arr (fill_char st c)) = 9%nat) as Hlen'.
      { rewrite (fill_char_other st c Ev). exact Hlen. }
      rewrite (IH _ n Hlen' Hn), (fill_char_other st c Ev).
      destruct (decide (digit_char n ∈ until_marker s)) as [Hin|Hin].
      * rewrite !bool_decide_eq_true_2; [reflexivity| |exact Hin].
        right. exact Hin.
      * rewrite !bool_decide_eq_false_2; [reflexivity| |exact Hin].
        intros [E|Hin']%elem_of_cons; [|exact (Hin Hin')].
        rewrite <- E, (proj1 (digit_char_facts n Hn)) in Ev. discriminate Ev.
Qed.

Lemma entry_zero_table n : entry zero_table n = 0.
Proof.
  unfold entry, vec_at, zero_table. destruct (n <? 0); [done|].
  destruct (replicate 9 0 !! Z.to_nat n) as [z|] eqn:E; [|done].
  apply lookup_replicate in E as [-> _]. done.
Qed.

Lemma parse_rulestring_entries rule (n : nat) :
  let r := strip_rule rule in
  let posB := find_first_of r (lit "Bb") in
  let posS := find_first_of r (lit "Ss") in
  (n < 9)%nat -> is_Some posB \/ is_Some posS ->
  entry (Rules.B (parse_rulestring rule).1) (Z.of_nat n) =
    (if bool_decide (digit_char n ∈ section_after r posB) then 1 else 0) /\
  entry (Rules.S (parse_rulestring rule).1) (Z.of_nat n) =
    (if bool_decide (digit_char n ∈ section_after r posS) then 1 else 0).
Proof.
  intros r posB posS Hn Hsome. unfold parse_rulestring.
  fold r. fold posB. fold posS.
  assert (forall s inv chars,
            entry (arr (fill_loop s {| arr := zero_table; invalidFound := inv;
                                       invalidChars := chars |})) (Z.of_nat n) =
            if bool_decide (digit_char n ∈ until_marker s) then 1 else 0) as Hfill.
  { intros s inv chars. rewrite fill_loop_entry by done. simpl.
    by rewrite entry_zero_table. }
  assert (bool_decide (digit_char n ∈ @nil ascii) = false) as Hnil
    by (apply bool_decide_eq_false_2, not_elem_of_nil).
  destruct posB as [pB|], posS as [pS|]; cbn [section_after Rules.B Rules.S fst];
    unfold fillDigits; rewrite ?Hfill, ?Hnil, ?entry_zero_table; try done.
  destruct Hsome as [[? ?]|[? ?]]; done.
Qed.

(** X13: what the tables hold.  When the text has a B or an S marker,
    the entry [n] of the birth table is 1 exactly when the digit [n]
    occurs in the section after the first B marker (up to the next marker
    or the end) and 0 otherwise, and likewise for the survival table and
    the first S marker; digits outside the two sections set nothing. *)
Theorem parse_tables_hold_the_digits rule (n : nat) :
  let r := strip_rule rule in
  let posB := find_first_of r (lit "Bb") in
  let posS := find_first_of r (lit "Ss") in
  (n < 9)%nat -> is_Some posB \/ is_Some posS ->
  entry (Rules.B (parse_rulestring rule).1) (Z.of_nat n) =
    (if bool_decide (digit_char n ∈ section_after r posB) then 1 else 0) /\
  entry (Rules.S (parse_rulestring rule).1) (Z.of_nat n) =
    (if bool_decide (digit_char n ∈ section_after r posS) then 1 else 0).
Proof. apply parse_rulestring_entries. Qed.

Lemma parse_tables_hold_the_digits_witness :
  entry (Rules.B (parse_rulestring (lit "b36 s23/B1")).1) (Z.of_nat 6) =
    (if bool_decide (digit_char 6 ∈
         section_after (strip_rule (lit "b36 s23/B1"))
           (find_first_of (strip_rule (lit "b36 s23/B1")) (lit "Bb")))
     then 1 else 0) /\
  entry (Rules.S (parse_rulestring (lit "b36 s23/B1")).1) (Z.of_nat 6) =
    (if bool_decide (digit_char 6 ∈
         section_after (strip_rule (lit "b36 s23/B1"))
           (find_first_of (strip_rule (lit "b36 s23/B1")) (lit "Ss")))
     then 1 else 0).
Proof.
  apply (parse_tables_hold_the_digits (lit "b36 s23/B1") 6).
  - lia.
  - left. vm_compute. eauto.
Defined.

(** *** The canonical text of a rule *)

Lemma digit_char_invalid n : (n < 9)%nat -> invalid_digit (digit_char n) = false.
Proof.
  intros Hn. do 9 (destruct n as [|n]; [reflexivity|]). lia.
Qed.

Lemma show_table_digits t :
  Forall (fun c => exists n, (n < 9)%nat /\ c = digit_char n) (show_table t).
Proof.
  unfold show_table. apply Forall_forall. intros c Hc.
  apply list_elem_of_In, in_map_iff in Hc as (n & <- & Hn).
  apply filter_In in Hn as [Hn _]. apply in_seq in Hn. exists n. split; [lia|done].
Qed.

Lemma digits_kept ds :
  Forall (fun c => exists n, (n < 9)%nat /\ c = digit_char n) ds ->
  List.filter kept ds = ds.
Proof.
  induction 1 as [|c ds (n & Hn & ->) _ IH]; [done|]. cbn [List.filter].
  rewrite (proj1 (proj2 (proj2 (proj2 (digit_char_facts n Hn))))).
  by rewrite IH.
Qed.

Lemma digits_until_marker ds rest :
  Forall (fun c => exists n, (n < 9)%nat /\ c = digit_char n) ds ->
  until_marker (ds ++ rest) = ds ++ until_marker rest.
Proof.
  induction 1 as [|c ds (n & Hn & ->) _ IH]; [done|].
  cbn [app until_marker].
  rewrite (proj1 (proj2 (proj2 (digit_char_facts n Hn)))).
  by rewrite IH.
Qed.

Lemma digits_find_S ds rest :
  Forall (fun c => exists n, (n < 9)%nat /\ c = digit_char n) ds ->
  find_first_of (ds ++ rest) (lit "Ss") =
  (fun p => (length ds + p)%nat) <$> find_first_of rest (lit "Ss").
Proof.
  induction 1 as [|c ds (n & Hn & ->) _ IH].
  - cbn [app length Nat.add]. by destruct (find_first_of rest (lit "Ss")).
  - cbn [app find_first_of length].
    rewrite (proj2 (proj2 (proj2 (proj2 (proj2 (digit_char_facts n Hn)))))).
    rewrite IH. by destruct (find_first_of rest (lit "Ss")).
Qed.

Lemma digit_char_inj n m :
  (n < 9)%nat -> (m < 9)%nat -> digit_char n = digit_char m -> n = m.
Proof.
  intros Hn Hm E.
  rewrite <- (proj1 (proj2 (digit_char_facts n Hn))).
  rewrite <- (proj1 (proj2 (digit_char_facts m Hm))). by rewrite E.
Qed.

Lemma elem_of_show_table t n :
  (n < 9)%nat ->
  digit_char n ∈ show_table t <-> entry t (Z.of_nat n) <> 0.
Proof.
  intros Hn. unfold show_table. rewrite list_elem_of_In, in_map_iff. split.
  - intros (m & E & Hm). apply filter_In in Hm as [Hm Hne].
    apply in_seq in Hm. apply digit_char_inj in E; [|lia|done]. subst m.
    by destruct (Z.eqb_spec (entry t (Z.of_nat n)) 0).
  - intros Hne. exists n. split; [done|]. apply filter_In. split.
    + apply in_seq. lia.
    + by destruct (Z.eqb_spec (entry t (Z.of_nat n)) 0).
Qed.

Lemma table_ext (t1 t2 : list Z) :
  length t1 = 9%nat -> length t2 = 9%nat ->
  (forall n, (n < 9)%nat -> entry t1 (Z.of_nat n) = entry t2 (Z.of_nat n)) ->
  t1 = t2.
Proof.
  intros H1 H2 He. apply list_eq_same_length with 9%nat; try done.
  intros i a b Hi Ha Hb. specialize (He i Hi). unfold entry, vec_at in He.
  destruct (Z.ltb_spec (Z.of_nat i) 0); [lia|].
  rewrite Nat2Z.id, Ha, Hb in He. done.
Qed.

Lemma entry_table_ok t n :
  table_ok t -> (n < 9)%nat ->
  entry t (Z.of_nat n) = 0 \/ entry t (Z.of_nat n) = 1.
Proof.
  intros [Hlen Hb] Hn. unfold entry, vec_at.
  destruct (Z.ltb_spec (Z.of_nat n) 0); [lia|]. rewrite Nat2Z.id.
  destruct (t !! n) as [b|] eqn:E; [|by left].
  rewrite Forall_lookup in Hb. exact (Hb _ _ E).
Qed.

Lemma show_rule_sections t :
  let r := strip_rule (show_rule t) in
  section_after r (find_first_of r (lit "Bb")) = show_table (Rules.B t) /\
  section_after r (find_first_of r (lit "Ss")) = show_table (Rules.S t).
Proof.
  intros r.
  pose proof (show_table_digits (Rules.B t)) as HdB.
  pose proof (show_table_digits (Rules.S t)) as HdS.
  assert (r = show_rule t) as ->.
  { unfold r. rewrite strip_rule_filter. unfold show_rule.
    rewrite !List.filter_app, (digits_kept _ HdB), (digits_kept _ HdS). done. }
  unfold show_rule. split.
  - cbn [lit list_ascii_of_string app find_first_of].
    rewrite bool_decide_eq_true_2 by (by left).
    cbn [section_after Nat.add skipn]. rewrite drop_0.
    rewrite digits_until_marker by done. cbn [until_marker].
    change (is_marker "/") with true. cbv iota. by rewrite app_nil_r.
  - cbn [lit list_ascii_of_string app find_first_of].
    change (bool_decide ("B"%char ∈ ["S"%char; "s"%char])) with false.
    cbv iota. rewrite digits_find_S by done. cbn [find_first_of].
    change (bool_decide ("/"%char ∈ lit "Ss")) with false.
    change (bool_decide ("S"%char ∈ lit "Ss")) with true. cbv iota.
    cbn [fmap option_fmap option_map section_after].
    replace (S (length (show_table (Rules.B t)) + 1) + 1)%nat
      with (S (length (show_table (Rules.B t)) + 2)) by lia.
    cbn [skipn].
    rewrite (drop_app_add' _ _ (length (show_table (Rules.B t))) 2) by done.
    cbn [skipn]. rewrite ?drop_0.
    rewrite <- (app_nil_r (show_table (Rules.S t))) at 1.
    rewrite digits_until_marker by done. cbn [until_marker].
    by rewrite app_nil_r.
Qed.

Lemma show_rule_has_B t :
  is_Some (find_first_of (strip_rule (show_rule t)) (lit "Bb")).
Proof.
  rewrite strip_rule_filter. unfold show_rule.
  cbn [lit list_ascii_of_string app List.filter].
  change (kept "B") with true. cbv iota. cbn [find_first_of].
  change (bool_decide ("B"%char ∈ lit "Bb")) with true. cbv iota. eauto.
Qed.

Lemma digits_not_invalid ds :
  Forall (fun c => exists n, (n < 9)%nat /\ c = digit_char n) ds ->
  List.filter invalid_digit ds = [].
Proof.
  induction 1 as [|c ds (n & Hn & ->) _ IH]; [done|]. cbn [List.filter].
  by rewrite digit_char_invalid.
Qed.

Lemma parse_show_rule t :
  table_ok (Rules.B t) -> table_ok (Rules.S t) ->
  parse_rulestring (show_rule t) = (t, []).
Proof.
  intros HB HS.
  destruct (show_rule_sections t) as [HsecB HsecS].
  destruct (parse_rulestring_spec (show_rule t)) as (HB' & HS' & Hdiag).
  assert (forall n, (n < 9)%nat ->
            entry (Rules.B (parse_rulestring (show_rule t)).1) (Z.of_nat n) =
            entry (Rules.B t) (Z.of_nat n) /\
            entry (Rules.S (parse_rulestring (show_rule t)).1) (Z.of_nat n) =
            entry (Rules.S t) (Z.of_nat n)) as Hentries.
  { intros n Hn.
    destruct (parse_rulestring_entries (show_rule t) n Hn) as [EB ES].
    { left. apply show_rule_has_B. }
    rewrite EB, ES, HsecB, HsecS. split.
    - destruct (entry_table_ok _ n HB Hn) as [E|E]; rewrite E.
      + rewrite bool_decide_eq_false_2; [done|].
        rewrite elem_of_show_table by done. lia.
      + rewrite bool_decide_eq_true_2; [done|].
        rewrite elem_of_show_table by done. lia.
    - destruct (entry_table_ok _ n HS Hn) as [E|E]; rewrite E.
      + rewrite bool_decide_eq_false_2; [done|].
        rewrite elem_of_show_table by done. lia.
      + rewrite bool_decide_eq_true_2; [done|].
        rewrite elem_of_show_table by done. lia. }
  assert ((parse_rulestring (show_rule t)).2 = []) as Hnone.
  { rewrite Hdiag. unfold scanned. rewrite HsecB, HsecS.
    rewrite List.filter_app, !digits_not_invalid by apply show_table_digits.
    done. }
  destruct (parse_rulestring (show_rule t)) as [t' d]. simpl in *.
  subst d. f_equal; [|exact Hnone].
  destruct t' as [B' S'], t as [B0 S0]. simpl in *.
  f_equal; apply table_ext;
    try (by destruct HB); try (by destruct HS);
    try (by destruct HB'); try (by destruct HS');
    intros n Hn; by destruct (Hentries n Hn).
Qed.

(** X14: the round trip of the canonical text.  For any two well-formed
    tables, the text ["B<digits>/S<digits>"] that lists their counts
    parses back to exactly these tables, with no diagnostic: every one of
    the 2^18 life-like rules can be given to the parser. *)
Theorem parse_canonical_text t :
  table_ok (Rules.B t) -> table_ok (Rules.S t) ->
  parse_rulestring (show_rule t) = (t, []).
Proof. apply parse_show_rule. Qed.

Lemma parse_canonical_text_witness :
  show_rule {| Rules.B := InvertAmaze.B; Rules.S := InvertAmaze.S |} =
    lit "B028/S0124" /\
  parse_rulestring
    (show_rule {| Rules.B := InvertAmaze.B; Rules.S := InvertAmaze.S |}) =
  ({| Rules.B := InvertAmaze.B; Rules.S := InvertAmaze.S |}, []).
Proof.
  split; [reflexivity|].
  apply parse_canonical_text; (split; [reflexivity|]);
    cbv [Rules.B Rules.S InvertAmaze.B InvertAmaze.S];
    repeat (apply Forall_cons; split; [auto|]); constructor.
Defined.

(** ** The command line and the exit code *)

Section CommandLine.
Variable Prob : Type.
Variable default_prob : Prob.
Variable stod : cstring -> option Prob.
Variable stoi : cstring -> option Z.
Variable random_init0 : Grid -> Prob -> Grid.
Variable step : Z -> Z -> Grid -> Grid -> option (Grid * Grid).
Variable has_threads : bool.

Lemma parse_args_keeps_dimensions n : forall args (c c' : config Prob),
  (length args <= n)%nat ->
  parse_args Prob stod stoi has_threads args c = Some c' ->
  lit "--width" ∉ args -> lit "--height" ∉ args ->
  gWidth c' = gWidth c /\ gHeight c' = gHeight c.
Proof.
  induction n as [|n IH]; intros args c c' Hlen Hparse Hw Hh.
  - destruct args; [|simpl in Hlen; lia]. simpl in Hparse. by injection Hparse as <-.
  - destruct args as [|a rest]; [simpl in Hparse; by injection Hparse as <-|].
    cbn [parse_args] in Hparse.
    apply not_elem_of_cons in Hw as [Hwa Hw].
    apply not_elem_of_cons in Hh as [Hha Hh].
    simpl in Hlen.
    case_bool_decide.
    { apply IH in Hparse as [-> ->]; [done|lia|done|done]. }
    destruct rest as [|v rest']; [by injection Hparse as <-|].
    assert (Hw2 := Hw). assert (Hh2 := Hh).
    apply not_elem_of_cons in Hw as [_ Hw'].
    apply not_elem_of_cons in Hh as [_ Hh'].
    simpl in Hlen.
    assert (forall c0 : config Prob,
              gWidth c0 = gWidth c -> gHeight c0 = gHeight c ->
              parse_args Prob stod stoi has_threads rest' c0 = Some c' ->
              gWidth c' = gWidth c /\ gHeight c' = gHeight c) as Hrec.
    { intros c0 E1 E2 Hp. rewrite <- E1, <- E2.
      apply (IH rest' c0 c'); [lia|done|done|done]. }
    assert (parse_args Prob stod stoi has_threads (v :: rest') c = Some c' ->
            gWidth c' = gWidth c /\ gHeight c' = gHeight c) as Hskip.
    { intros Hp. apply (IH (v :: rest') c c'); [simpl; lia|done|done|done]. }
    repeat case_bool_decide; try done.
    + destruct (stoi v); [|done]. cbn [mbind option_bind] in Hparse.
      eapply Hrec; [| |exact Hparse]; reflexivity.
    + destruct (stod v); [|done]. cbn [mbind option_bind] in Hparse.
      eapply Hrec; [| |exact Hparse]; reflexivity.
    + destruct has_threads; cbn [andb] in Hparse.
      * destruct (stoi v); [|done]. cbn [mbind option_bind] in Hparse.
        eapply Hrec; [| |exact Hparse]; reflexivity.
      * by apply Hskip.
    + rewrite andb_false_r in Hparse. by apply Hskip.
Qed.

Lemma benchmark_loop_result (c : config Prob) todo : forall cur nxt tr,
  result (benchmark_loop Prob step c todo cur nxt tr) = Exit 0 \/
  result (benchmark_loop Prob step c todo cur nxt tr) = Crash.
Proof.
  induction todo as [|todo IH]; intros cur nxt tr; simpl.
  - destruct (report_cells Prob c); [by left|by right].
  - destruct (step _ _ cur nxt) as [[cur' nxt']|]; [apply IH|by right].
Qed.

Lemma interactive_loop_result (c : config Prob) fuel : forall iter cur nxt tr r,
  interactive_loop Prob step fuel c iter cur nxt tr = Some r ->
  result r = Exit 0 \/ result r = Crash.
Proof.
  induction fuel as [|fuel IH]; intros iter cur nxt tr r; simpl;
    destruct ((steps c <? 0) || (iter <? steps c)); try done;
    try (intros [= <-]; by left).
  destruct (step _ _ cur nxt) as [[cur' nxt']|]; [|intros [= <-]; by right].
  destruct (int_add iter 1); [apply IH|intros [= <-]; by right].
Qed.

Lemma life_main_exit_code fuel argv r :
  life_main Prob default_prob stod stoi random_init0 step has_threads
    fuel argv = Some r ->
  (result r = Exit 0 \/ result r = Exit 1 \/ result r = Crash) /\
  (result r = Exit 1 <->
   exists c, parse_args Prob stod stoi has_threads (tail argv)
               (default_config Prob default_prob) = Some c /\
             (gWidth c <= 0 \/ gHeight c <= 0)).
Proof.
  unfold life_main.
  destruct (parse_args _ _ _ _ _ _) as [c|] eqn:Hargs.
  2: { intros [= <-]. simpl. split; [auto|]. split; [done|].
       by intros (c & ? & _). }
  unfold main_body.
  destruct (Z.leb_spec (gWidth c) 0) as [Hw|Hw]; simpl.
  { intros [= <-]. simpl. split; [auto|]. split; [eauto|done]. }
  destruct (Z.leb_spec (gHeight c) 0) as [Hh|Hh]; simpl.
  { intros [= <-]. simpl. split; [auto|]. split; [eauto|done]. }
  assert (forall r, (result r = Exit 0 \/ result r = Crash) ->
            (result r = Exit 0 \/ result r = Exit 1 \/ result r = Crash) /\
            (result r = Exit 1 <->
             exists c0, Some c = Some c0 /\ (gWidth c0 <= 0 \/ gHeight c0 <= 0)))
    as Hfin.
  { intros r0 Hr. split; [tauto|]. split.
    - intros E. destruct Hr as [Hr|Hr]; congruence.
    - intros (c0 & [= <-] & Hbad). lia. }
  destruct (negb (draw_enabled c) && (0 <? steps c)).
  - intros [= <-]. apply Hfin, benchmark_loop_result.
  - intros Hloop. apply Hfin. by apply interactive_loop_result in Hloop.
Qed.
End CommandLine.

(** X15: the exit code.  Whenever [main] returns, it returns 0 or 1, and
    it returns 1 exactly when the options were read and the width or the
    height they leave is not positive. *)
Theorem exit_code_one_is_the_dimension_error {Prob : Type}
    (default_prob : Prob) stod stoi random_init0 fuel argv r :
  (DefaultSequential.main default_prob stod stoi random_init0 fuel argv = Some r ->
   (result r = Exit 0 \/ result r = Exit 1 \/ result r = Crash) /\
   (result r = Exit 1 <->
    exists c, parse_args Prob stod stoi false (tail argv)
                (default_config Prob default_prob) = Some c /\
              (gWidth c <= 0 \/ gHeight c <= 0))) /\
  (InvertAmaze.main default_prob stod stoi random_init0 fuel argv = Some r ->
   (result r = Exit 0 \/ result r = Exit 1 \/ result r = Crash) /\
   (result r = Exit 1 <->
    exists c, parse_args Prob stod stoi true (tail argv)
                (default_config Prob default_prob) = Some c /\
              (gWidth c <= 0 \/ gHeight c <= 0))).
Proof. split; apply life_main_exit_code. Qed.

Lemma exit_code_one_is_the_dimension_error_witness :
  result {| trace := [ClearScreen; Cerr (lit "Invalid dimensions" ++ endl)];
            result := Exit 1 |} = Exit 1 <->
  exists c, parse_args unit (fun _ => Some tt) stoi_dec false
              (tail [lit "life"; lit "--width"; lit "-5"])
              (default_config unit tt) = Some c /\
            (gWidth c <= 0 \/ gHeight c <= 0).
Proof.
  apply (proj1 (exit_code_one_is_the_dimension_error tt (fun _ => Some tt)
                  stoi_dec (fun g _ => g) 0
                  [lit "life"; lit "--width"; lit "-5"] _)).
  reflexivity.
Defined.

(** X16: the default size.  A command line that names neither [--width]
    nor [--height] leaves the grid at 80 x 24, whatever else it holds, so
    the dimension check passes. *)
Theorem default_dimensions {Prob : Type} (default_prob : Prob) stod stoi
    has_threads argv (c : config Prob) :
  parse_args Prob stod stoi has_threads (tail argv)
    (default_config Prob default_prob) = Some c ->
  lit "--width" ∉ tail argv -> lit "--height" ∉ tail argv ->
  gWidth c = 80 /\ gHeight c = 24 /\ dims_ok (gWidth c) (gHeight c).
Proof.
  intros Hargs Hw Hh.
  destruct (parse_args_keeps_dimensions Prob stod stoi has_threads
              (length (tail argv)) (tail argv) _ c (le_n _) Hargs Hw Hh)
    as [-> ->].
  simpl. unfold dims_ok. lia.
Qed.

Lemma default_dimensions_witness :
  gWidth {| draw_enabled := false; steps := 7; prob := tt;
            gWidth := 80; gHeight := 24; threads := -1 |} = 80 /\
  gHeight {| draw_enabled := false; steps := 7; prob := tt;
             gWidth := 80; gHeight := 24; threads := -1 |} = 24 /\
  dims_ok 80 24.
Proof.
  apply (default_dimensions tt (fun _ => Some tt) stoi_dec false
           [lit "life"; lit "--steps"; lit "7"; lit "--threads"; lit "4";
            lit "--no-draw"; lit "--prob"]).
  - reflexivity.
  - apply (bool_decide_unpack
             (lit "--width" ∉ tail [lit "life"; lit "--steps"; lit "7";
                                    lit "--threads"; lit "4"; lit "--no-draw";
                                    lit "--prob"])).
    vm_compute. exact I.
  - apply (bool_decide_unpack
             (lit "--height" ∉ tail [lit "life"; lit "--steps"; lit "7";
                                     lit "--threads"; lit "4"; lit "--no-draw";
                                     lit "--prob"])).
    vm_compute. exact I.
Defined.
